(** * hmem: the bulk-read (V2) selection engine of the memory viewer

    A shallow embedding of the in-memory part of [hmem.py]: time-weighted
    scoring, per-prefix selection, capping of a root's direct children,
    token accounting and the assembly of the two views.

    Conventions of the embedding.
    - A row of [memories] is an [Entry.t], a row of [memory_nodes] a
      [Node.t]; a Python [str] is a [string] (one character per code
      point), an SQL [NULL] is [None].
    - Python dictionaries keep insertion order: they are association lists
      with unique keys ([dict_append], [dict_get]).  Python sets are [gset].
    - What the program takes from the Python runtime (floats and their
      order, [datetime.fromisoformat], the wall clock) is gathered in the
      class [Runtime]; every definition and theorem is parametric in it.
    - Each call of [datetime.now] advances a counter of clock readings; code
      that reads the clock lives in the state monad [Clocked].
    - Recursion over the parent/child relation takes fuel (the interpreter's
      stack); [None] stands for [RecursionError]. *)

From stdpp Require Import gmap strings list sorting pretty.
From Stdlib Require Import Ascii QArith Qpower.
Close Scope Q_scope.
Open Scope Z_scope.

(** ** Data model *)

Module Entry.
(** One row of the first query of [load_all_data], plus the [_promoted]
    key the view builders add to the row's dictionary. *)
Record t : Type := mk {
  id : string;
  prefix : string;
  seq : Z;
  title : option string;
  level_1 : string;
  created_at : option string;
  min_role : string;
  favorite : Z;
  access_count : Z;
  obsolete : Z;
  _promoted : option bool;
}.

Definition set_promoted (b : bool) (e : t) : t :=
  mk (id e) (prefix e) (seq e) (title e) (level_1 e) (created_at e)
     (min_role e) (favorite e) (access_count e) (obsolete e) (Some b).

#[global] Instance eq_dec : EqDecision t.
Proof. solve_decision. Defined.
End Entry.

Module Node.
(** One row of [SELECT * FROM memory_nodes]. *)
Record t : Type := mk {
  id : string;
  parent_id : string;
  root_id : string;
  depth : Z;
  seq : Z;
  title : option string;
  content : string;
  created_at : option string;
  access_count : Z;
  last_accessed : option string;
}.

#[global] Instance eq_dec : EqDecision t.
Proof. solve_decision. Defined.
End Node.

(** [DEFAULT_V2_CONFIG] and its overrides from [hmem.config.json]. *)
Record V2Config : Type := {
  topAccessCount : Z;
  topNewestCount : Z;
  topObsoleteCount : Z;
}.

Definition DEFAULT_V2_CONFIG : V2Config :=
  {| topAccessCount := 3; topNewestCount := 5; topObsoleteCount := 3 |}.

(** ** The Python runtime *)

(** What [datetime.fromisoformat] returns: a naive wall time or an aware
    instant, in microseconds since the epoch. *)
Inductive datetime : Type :=
| Naive (wall_us : Z)
| Aware (utc_us : Z).

Class Runtime : Type := {
  (** the floats a score can be, with [<=] on them *)
  Float : Type;
  float_le : Float → Float → bool;
  float_le_total : ∀ x y, float_le x y = false → float_le y x = true;
  (** [float(n)]; [0.0] is [float_of_int 0] *)
  float_of_int : Z → Float;
  (** [decay ac age_us] is [ac / math.log2(max(age_s / 86400, 0) + 2)] for
      an age of [age_us] microseconds, [age_s = age_us / 10**6] *)
  decay : Z → Z → Float;
  (** [None] when [datetime.fromisoformat] raises [ValueError] *)
  fromisoformat : string → option datetime;
  (** the successive readings of [datetime.now(timezone.utc)] *)
  clock : nat → Z;
}.

(** ** Clock-reading computations *)

Definition Clocked (A : Type) : Type := nat → A * nat.

Definition ret {A} (a : A) : Clocked A := λ t, (a, t).

Definition bind {A B} (m : Clocked A) (k : A → Clocked B) : Clocked B :=
  λ t, let '(a, t') := m t in k a t'.

Declare Scope clocked_scope.
Delimit Scope clocked_scope with clocked.
Notation "'do' x <- m ; k" := (bind m (λ x, k))
  (at level 10, x name, m at level 100, k at level 200,
   format "'[v' 'do'  x  <-  m ; '/' k ']'") : clocked_scope.
Notation "'do' ' p <- m ; k" := (bind m (λ x, match x with p => k end))
  (at level 10, p pattern, m at level 100, k at level 200,
   format "'[v' 'do'  ' p  <-  m ; '/' k ']'") : clocked_scope.
Open Scope clocked_scope.

(** Clock-reading computations that may raise: [None] is the exception,
    which ends the computation. *)
Definition bindE {A B} (m : Clocked (option A)) (k : A → Clocked (option B))
    : Clocked (option B) :=
  λ t, match m t with
       | (Some a, t') => k a t'
       | (None, t') => (None, t')
       end.

Notation "'doE' x <- m ; k" := (bindE m (λ x, k))
  (at level 10, x name, m at level 100, k at level 200,
   format "'[v' 'doE'  x  <-  m ; '/' k ']'") : clocked_scope.

Fixpoint mapC {A B} (f : A → Clocked B) (l : list A) : Clocked (list B) :=
  match l with
  | [] => ret []
  | x :: l' => do y <- f x; do ys <- mapC f l'; ret (y :: ys)
  end.

Fixpoint foldlC {A B} (f : B → A → Clocked B) (b : B) (l : list A) : Clocked B :=
  match l with
  | [] => ret b
  | x :: l' => do b' <- f b x; foldlC f b' l'
  end.

Fixpoint mapE {A B} (f : A → Clocked (option B)) (l : list A)
    : Clocked (option (list B)) :=
  match l with
  | [] => ret (Some [])
  | x :: l' => doE y <- f x; doE ys <- mapE f l'; ret (Some (y :: ys))
  end.

(** ** Python built-ins *)

(** [l[:n]] *)
Definition slice_to {A} (n : Z) (l : list A) : list A :=
  take (Z.to_nat (if n <? 0 then Z.of_nat (length l) + n else n)) l.

(** [o or ""] for an optional string *)
Definition or_empty (o : option string) : string := default ""%string o.

(** truth value of an optional string: [None] and [""] are false *)
Definition str_truthy (o : option string) : bool :=
  match o with
  | Some s => negb (String.eqb s "")
  | None => false
  end.

(** [s.replace("Z", "+00:00")] *)
Fixpoint replace_Z (s : string) : string :=
  match s with
  | EmptyString => EmptyString
  | String c s' =>
      if Ascii.eqb c "Z"%char then ("+00:00" ++ replace_Z s')%string
      else String c (replace_Z s')
  end.

Section Sorting.
Context {K A : Type} (le : K → K → bool).

(** [sorted(l, key=..., reverse=True)] on the keys already computed:
    [list.sort] is stable, and with [reverse=True] elements with equal
    keys still keep their original order.  An element goes in front of
    the first element of the sorted tail whose key is not greater. *)
Fixpoint insert_desc (x : K * A) (l : list (K * A)) : list (K * A) :=
  match l with
  | [] => [x]
  | y :: l' => if le y.1 x.1 then x :: y :: l' else y :: insert_desc x l'
  end.

Definition sort_desc (l : list (K * A)) : list (K * A) :=
  foldr insert_desc [] l.

Definition sorted_reverse (key : A → K) (l : list A) : list A :=
  (sort_desc (zip (map key l) l)).*2.

(** the same when the key function reads the clock: the keys are computed
    first, one call per element, in list order *)
Definition sorted_reverseM (key : A → Clocked K) (l : list A) : Clocked (list A) :=
  do keys <- mapC key l;
  ret (sort_desc (zip keys l)).*2.
End Sorting.

(** ** Dictionaries *)

Section Dict.
Context {K V : Type} `{EqDecision K}.
Implicit Types (d : list (K * list V)).

(** [d[k].append(v)] on a [defaultdict(list)] *)
Fixpoint dict_append (k : K) (v : V) (d : list (K * list V)) : list (K * list V) :=
  match d with
  | [] => [(k, [v])]
  | (k', vs) :: d' =>
      if decide (k = k') then (k', vs ++ [v]) :: d'
      else (k', vs) :: dict_append k v d'
  end.

(** [d.get(k, [])] *)
Fixpoint dict_get (k : K) (d : list (K * list V)) : list V :=
  match d with
  | [] => []
  | (k', vs) :: d' => if decide (k = k') then vs else dict_get k d'
  end.

(** [for x in l: d[f(x)].append(x)] from an empty dictionary *)
Definition group_by (f : V → K) (l : list V) : list (K * list V) :=
  foldl (λ d x, dict_append (f x) x d) [] l.
End Dict.

(** ** The rendered tree *)

(** The text of a tree line is produced by f-strings ([entry_label],
    [node_title], [fmt_tokens]); a label here keeps the arguments of the
    format instead of the formatted text. *)
Inductive Label : Type :=
| LRootEmpty (agent : string)
    (** [f"{agent}  —  (empty)"] *)
| LNoMemories
    (** ["No memories yet."] *)
| LRootFull (agent : string) (n_active n_obsolete total_tok : nat)
    (** [f"{agent}  —  {n} entries{hidden_note}  [{total} tokens total]"] *)
| LRootV2 (agent : string) (shown total shown_tok total_tok : nat)
    (** [f"{agent}  —  V2 Read  ({shown}/{total} shown)  [{s}/{t} tokens]"] *)
| LGroup (prefix label_name : string) (shown : nat) (total : option nat)
    (** [f"{prefix}  —  {label_name}  ({shown}[/{total} shown])"] *)
| LObsolete (shown : nat) (total : option nat)
    (** [f"⚠  Obsolete  ({shown}[/{total} shown])"] *)
| LEntry (entry : Entry.t) (v2_mode : bool)
    (** [entry_label(entry, v2_mode)] *)
| LNode (node : Node.t)
    (** [f"[{node['id']}] {title}"] *)
| LMore (hidden : Z) (entry_id : string).
    (** [f"[+{hidden} more → {entry['id']}]"] *)

(** [parent.add_leaf(label)] and [parent.add(label)] followed by the
    additions to the new node. *)
#[warnings="-register-all"]
Inductive Tree : Type :=
| Leaf (label : Label)
| Branch (label : Label) (kids : list Tree).

Definition root_label (t : Tree) : Label :=
  match t with Leaf l | Branch l _ => l end.

Definition tree_kids (t : Tree) : list Tree :=
  match t with Leaf _ => [] | Branch _ kids => kids end.

(** every label of the tree, the root's first *)
Fixpoint tree_labels (t : Tree) : list Label :=
  match t with
  | Leaf l => [l]
  | Branch l kids => l :: flat_map tree_labels kids
  end.

(** truth value of a list *)
Definition nonempty {A} (l : list A) : bool :=
  match l with [] => false | _ => true end.

(** [estimate_tokens] *)
Definition estimate_tokens (text : string) : nat := String.length text `div` 4.

(** ** Scoring *)

(** The two keys [weighted_access_score] reads from a row. *)
Class Scorable (A : Type) : Type := {
  get_access_count : A → Z;
  get_created_at : A → option string;
}.

#[global] Instance entry_scorable : Scorable Entry.t :=
  {| get_access_count := Entry.access_count; get_created_at := Entry.created_at |}.
#[global] Instance node_scorable : Scorable Node.t :=
  {| get_access_count := Node.access_count; get_created_at := Node.created_at |}.

Section Engine.
Context `{rt : Runtime}.

Definition datetime_now : Clocked Z := λ t, (clock t, S t).

(** [now - dt]: subtracting a naive datetime from an aware one raises
    [TypeError] *)
Definition aware_sub (now : Z) (dt : datetime) : option Z :=
  match dt with
  | Aware us => Some (now - us)
  | Naive _ => None
  end.

(** The body of the [try]: the age in microseconds, [None] when an
    exception is raised.  The clock is read before the string is parsed. *)
Definition try_age (now : Z) (created : string) : option Z :=
  dt ← fromisoformat (replace_Z created); aware_sub now dt.

Definition weighted_access_score {A} `{Scorable A} (entry : A) : Clocked Float :=
  let ac := get_access_count entry in
  let created := get_created_at entry in
  if negb (str_truthy created) || (ac =? 0) then ret (float_of_int 0)
  else
    do now <- datetime_now;
    match try_age now (or_empty created) with
    | None => ret (float_of_int ac)
    | Some age_us => ret (decay ac age_us)
    end.

(** ** Loading *)

(** [load_all_data] after the two queries: [rows] is the result of the
    first ([ORDER BY prefix, seq]), [all_nodes] of the second
    ([ORDER BY parent_id, seq]). *)
Definition load_all_data (rows : list Entry.t) (all_nodes : list Node.t)
    : list Entry.t * list Entry.t * list (string * list Node.t) :=
  let children_map := group_by Node.parent_id all_nodes in
  let active := filter (λ r, Entry.obsolete r = 0) rows in
  let obsolete := filter (λ r, Entry.obsolete r ≠ 0) rows in
  (active, obsolete, children_map).

(** ** Selection *)

(** [for e in l: ids.add(e["id"])] *)
Definition add_ids (ids : gset string) (l : list Entry.t) : gset string :=
  foldl (λ ids e, ids ∪ {[Entry.id e]}) ids l.

(** [sorted(entries, key=lambda e: e["created_at"] or "", reverse=True)] *)
Definition newest (entries : list Entry.t) : list Entry.t :=
  sorted_reverse String.leb (λ e, or_empty (Entry.created_at e)) entries.

(** [sorted([e for e in entries if e["access_count"] > 0],
            key=weighted_access_score, reverse=True)[:topAccessCount]] *)
Definition most_accessed (v2_config : V2Config) (entries : list Entry.t)
    : Clocked (list Entry.t) :=
  do by_score <-
    sorted_reverseM float_le weighted_access_score
      (filter (λ e, 0 < Entry.access_count e) entries);
  ret (slice_to (topAccessCount v2_config) by_score).

(** the body of the loop over [by_prefix.items()] *)
Definition select_in_prefix (v2_config : V2Config)
    (ids : gset string * gset string) (group : string * list Entry.t)
    : Clocked (gset string * gset string) :=
  let '(expanded_ids, promoted_ids) := ids in
  let entries := group.2 in
  let expanded_ids :=
    add_ids expanded_ids (slice_to (topNewestCount v2_config) (newest entries)) in
  do most_accessed <- most_accessed v2_config entries;
  ret (add_ids expanded_ids most_accessed, add_ids promoted_ids most_accessed).

Definition compute_v2_selection
    (active obsolete : list Entry.t) (v2_config : V2Config)
    : Clocked (gset string * gset string * list Entry.t) :=
  let by_prefix := group_by Entry.prefix active in
  do '(expanded_ids, promoted_ids) <-
    foldlC (select_in_prefix v2_config) (∅, ∅) by_prefix;
  let expanded_ids :=
    add_ids expanded_ids (filter (λ e, Entry.favorite e ≠ 0) active) in
  do by_score <- sorted_reverseM float_le weighted_access_score obsolete;
  ret (expanded_ids, promoted_ids, slice_to (topObsoleteCount v2_config) by_score).

(** ** Capping of a root's children *)

(** The block shared by [count_shown_tokens] and [add_entry_to_tree]:
    the children whose id is among the newest or the most accessed. *)
Definition select_children (v2_config : V2Config) (children : list Node.t)
    : Clocked (list Node.t) :=
  let newest :=
    sorted_reverse String.leb (λ c, or_empty (Node.created_at c)) children in
  let newest_ids : gset string :=
    list_to_set (Node.id <$> slice_to (topNewestCount v2_config) newest) in
  do by_score <-
    sorted_reverseM float_le weighted_access_score
      (filter (λ c, 0 < Node.access_count c) children);
  let access_ids : gset string :=
    list_to_set (Node.id <$> slice_to (topAccessCount v2_config) by_score) in
  ret (filter (λ c, Node.id c ∈ newest_ids ∪ access_ids) children).

(** [v2_config and children and len(children) > v2_config["topNewestCount"]] *)
Definition caps (v2_config : option V2Config) (children : list Node.t)
    : option V2Config :=
  match v2_config with
  | Some cfg =>
      if nonempty children && (topNewestCount cfg <? Z.of_nat (length children))
      then Some cfg else None
  | None => None
  end.

(** ** Token accounting *)

Definition count_all_tokens (active obsolete : list Entry.t)
    (children_map : list (string * list Node.t)) : nat :=
  let total :=
    foldl (λ total entry, total + estimate_tokens (Entry.level_1 entry))%nat
          0%nat (active ++ obsolete) in
  foldl (λ total nodes,
           foldl (λ total node, total + estimate_tokens (Node.content node))%nat
                 total nodes)
        total children_map.*2.

Fixpoint _count_subtree_tokens (fuel : nat) (nodes : list Node.t)
    (children_map : list (string * list Node.t)) : option nat :=
  match fuel with
  | O => None
  | S fuel' =>
      foldl (λ total node,
               total ← total;
               let total := (total + estimate_tokens (Node.content node))%nat in
               let grandchildren := dict_get (Node.id node) children_map in
               if nonempty grandchildren then
                 sub ← _count_subtree_tokens fuel' grandchildren children_map;
                 Some (total + sub)%nat
               else Some total)
            (Some 0%nat) nodes
  end.

Definition count_shown_tokens (fuel : nat) (shown_entries : list Entry.t)
    (children_map : list (string * list Node.t)) (v2_config : option V2Config)
    : Clocked (option nat) :=
  foldlC (λ total entry,
      match total with
      | None => ret None
      | Some total =>
          let total := (total + estimate_tokens (Entry.level_1 entry))%nat in
          let children := dict_get (Entry.id entry) children_map in
          do children <-
            match caps v2_config children with
            | Some cfg => select_children cfg children
            | None => ret children
            end;
          ret (sub ← _count_subtree_tokens fuel children children_map;
               Some (total + sub)%nat)
      end)
    (Some 0%nat) shown_entries.

(** ** Tree building *)

Fixpoint add_node_to_tree (fuel : nat) (node : Node.t)
    (children_map : list (string * list Node.t)) : option Tree :=
  match fuel with
  | O => None
  | S fuel' =>
      let label := LNode node in
      let children := dict_get (Node.id node) children_map in
      if nonempty children then
        kids ← mapM (λ child, add_node_to_tree fuel' child children_map) children;
        Some (Branch label kids)
      else Some (Leaf label)
  end.

Definition add_entry_to_tree (fuel : nat) (entry : Entry.t)
    (children_map : list (string * list Node.t))
    (v2_mode : bool) (v2_config : option V2Config) : Clocked (option Tree) :=
  let label := LEntry entry v2_mode in
  let children := dict_get (Entry.id entry) children_map in
  do '(children, hidden) <-
    match caps v2_config children with
    | Some cfg =>
        do selected <- select_children cfg children;
        ret (selected, Z.of_nat (length children) - Z.of_nat (length selected))
    | None => ret (children, 0)
    end;
  if nonempty children then
    ret (kids ← mapM (λ child, add_node_to_tree fuel child children_map) children;
         Some (Branch label
                 (kids ++ if 0 <? hidden
                          then [Leaf (LMore hidden (Entry.id entry))] else [])))
  else ret (Some (Leaf label)).

(** ** The two views *)

(** [sorted(l)] on strings *)
Definition sorted_strings (l : list string) : list string :=
  sorted_reverse (λ a b, String.leb b a) (λ k, k) l.

(** one [Branch] per prefix, in the order of [sorted(groups.keys())] *)
Definition add_groups (fuel : nat) (groups : list (string * list Entry.t))
    (group_label : string → list Entry.t → Label)
    (children_map : list (string * list Node.t))
    (v2_mode : bool) (v2_config : option V2Config) : Clocked (option (list Tree)) :=
  mapE (λ prefix,
      let entries := dict_get prefix groups in
      doE kids <-
        mapE (λ entry, add_entry_to_tree fuel entry children_map v2_mode v2_config)
             entries;
      ret (Some (Branch (group_label prefix entries) kids)))
    (sorted_strings groups.*1).

Definition _build_full_tree (fuel : nat) (agent_name : string)
    (active obsolete : list Entry.t) (prefix_labels : gmap string string)
    (children_map : list (string * list Node.t)) : Clocked (option Tree) :=
  do sorted_by_access <-
    sorted_reverseM float_le weighted_access_score
      (filter (λ r, 0 < Entry.access_count r) active);
  let promoted_ids : gset string :=
    list_to_set (Entry.id <$> slice_to 5 sorted_by_access) in
  let active :=
    (λ r, Entry.set_promoted (bool_decide (Entry.id r ∈ promoted_ids)) r) <$> active in
  let total_tok := count_all_tokens active obsolete children_map in
  let label := LRootFull agent_name (length active) (length obsolete) total_tok in
  let groups := group_by Entry.prefix active in
  doE group_nodes <-
    add_groups fuel groups
      (λ prefix entries,
         LGroup prefix (default prefix (prefix_labels !! prefix)) (length entries) None)
      children_map false None;
  doE obs_nodes <-
    (if nonempty obsolete then
       doE kids <-
         mapE (λ entry, add_entry_to_tree fuel entry children_map false None) obsolete;
       ret (Some [Branch (LObsolete (length obsolete) None) kids])
     else ret (Some []));
  ret (Some (Branch label (group_nodes ++ obs_nodes))).

(** [v2_config] is what [load_v2_config] returned. *)
Definition _build_v2_tree (fuel : nat) (agent_name : string)
    (active obsolete : list Entry.t) (prefix_labels : gmap string string)
    (children_map : list (string * list Node.t)) (v2_config : V2Config)
    : Clocked (option Tree) :=
  do '(expanded_ids, promoted_ids, visible_obsolete) <-
    compute_v2_selection active obsolete v2_config;
  let active :=
    (λ r, Entry.set_promoted (bool_decide (Entry.id r ∈ promoted_ids)) r) <$> active in
  let v2_active := filter (λ e, Entry.id e ∈ expanded_ids) active in
  let total := (length active + length obsolete)%nat in
  let shown := (length v2_active + length visible_obsolete)%nat in
  let total_tok := count_all_tokens active obsolete children_map in
  doE shown_tok <-
    count_shown_tokens fuel (v2_active ++ visible_obsolete) children_map (Some v2_config);
  let label := LRootV2 agent_name shown total shown_tok total_tok in
  let total_by_prefix := group_by Entry.prefix active in
  let groups := group_by Entry.prefix v2_active in
  doE group_nodes <-
    add_groups fuel groups
      (λ prefix entries,
         LGroup prefix (default prefix (prefix_labels !! prefix)) (length entries)
                (Some (length (dict_get prefix total_by_prefix))))
      children_map true (Some v2_config);
  doE obs_nodes <-
    (if nonempty visible_obsolete then
       let visible_obsolete := Entry.set_promoted false <$> visible_obsolete in
       doE kids <-
         mapE (λ entry, add_entry_to_tree fuel entry children_map true (Some v2_config))
              visible_obsolete;
       ret (Some [Branch (LObsolete (length visible_obsolete) (Some (length obsolete)))
                         kids])
     else ret (Some []));
  ret (Some (Branch label (group_nodes ++ obs_nodes))).

(** [MemoryScreen.rebuild_tree] on the rows the two queries returned. *)
Definition rebuild_tree (fuel : nat) (agent_name : string) (v2_mode : bool)
    (prefix_labels : gmap string string) (v2_config : V2Config)
    (rows : list Entry.t) (all_nodes : list Node.t) : Clocked (option Tree) :=
  let '(active, obsolete, children_map) := load_all_data rows all_nodes in
  if negb (nonempty active) && negb (nonempty obsolete) then
    ret (Some (Branch (LRootEmpty agent_name) [Leaf LNoMemories]))
  else if v2_mode then
    _build_v2_tree fuel agent_name active obsolete prefix_labels children_map v2_config
  else
    _build_full_tree fuel agent_name active obsolete prefix_labels children_map.
End Engine.

(** ** Scoring a dictionary as it comes

    [weighted_access_score] takes any dict, and SQLite types its columns
    loosely: besides an integer or NULL a key may hold a text.  Here the
    two keys hold such values, and an exception that leaves the function is
    a result of its own. *)

Inductive value : Type :=
| VNone
    (** [None], also for a key that is missing *)
| VInt (n : Z)
| VStr (s : string).






Section RawScore.
Context `{rt : Runtime}.
(** [float(s)] on a str, [None] when it raises [ValueError] *)
Variable float_of_str : string → option Float.




End RawScore.

(** ** Vocabulary of the specification *)

(** the value a clock-reading computation returns when started at reading [t] *)
Definition result_of {A} (m : Clocked A) (t : nat) : A := (m t).1.

Definition visibleIds (r : gset string * gset string * list Entry.t) : gset string := r.1.1.
Definition promotedIds (r : gset string * gset string * list Entry.t) : gset string := r.1.2.
Definition visibleObsolete (r : gset string * gset string * list Entry.t) : list Entry.t := r.2.

(** A node of which [parent_id] is the id of no record of [rows] and of no
    node of [others]. *)
Definition dangling (rows : list Entry.t) (others : list Node.t) (o : Node.t) : Prop :=
  (Node.parent_id o ∉ Entry.id <$> rows) ∧ (Node.parent_id o ∉ Node.id <$> others).

Definition entry_tokens (e : Entry.t) : nat := estimate_tokens (Entry.level_1 e).
Definition node_tokens (n : Node.t) : nat := estimate_tokens (Node.content n).

(** the root line with another [total_tok] *)
Definition with_total_tok (total_tok : nat) (tree : Tree) : Tree :=
  match tree with
  | Branch (LRootFull agent n_active n_obsolete _) kids =>
      Branch (LRootFull agent n_active n_obsolete total_tok) kids
  | Branch (LRootV2 agent shown total shown_tok _) kids =>
      Branch (LRootV2 agent shown total shown_tok total_tok) kids
  | _ => tree
  end.

(** a line that is not that of a child of [bad] *)
Definition label_ok (bad : string) (label : Label) : Prop :=
  match label with
  | LNode n => Node.parent_id n ≠ bad
  | _ => True
  end.

(** [x] is ranked at or above [y] *)
Definition desc {K A} (le : K → K → bool) (x y : K * A) : Prop := le y.1 x.1 = true.

(** [ranked] lists the elements of [l], each with its key, in descending
    order of key, elements whose keys tie staying in the order of [l] *)
Definition is_ranking {K A} (le : K → K → bool) (keys : list K) (l : list A)
    (ranked : list (K * A)) : Prop :=
  ranked ≡ₚ zip keys l
  ∧ Sorted (desc le) ranked
  ∧ ∀ x y, [x; y] `sublist_of` zip keys l → le y.1 x.1 = true →
           [x; y] `sublist_of` ranked.

(** Below the node [t] nothing is pruned: every displayed node has all its
    children of the snapshot displayed under it, in their order. *)
Fixpoint uncapped (children_map : list (string * list Node.t)) (t : Tree) : Prop :=
  match t with
  | Leaf (LNode p) => dict_get (Node.id p) children_map = []
  | Branch (LNode p) kids =>
      root_label <$> kids = LNode <$> dict_get (Node.id p) children_map
      ∧ (fix all kids :=
           match kids with
           | [] => True
           | kid :: kids => uncapped children_map kid ∧ all kids
           end) kids
  | _ => True
  end.

(** The invariants of the data model: ids are unique among the records and
    among the nodes, a node under a record has depth 2, a node under a node
    is one level deeper than its parent. *)
Record forest (rows : list Entry.t) (all_nodes : list Node.t) : Prop := {
  forest_entry_ids : NoDup (Entry.id <$> rows);
  forest_node_ids : NoDup (Node.id <$> all_nodes);
  forest_root_depth :
    ∀ n e, n ∈ all_nodes → e ∈ rows → Node.parent_id n = Entry.id e → Node.depth n = 2;
  forest_node_depth :
    ∀ n p, n ∈ all_nodes → p ∈ all_nodes → Node.parent_id n = Node.id p →
           Node.depth n = Node.depth p + 1;
}.

(** the stack is deep enough for every node of the snapshot *)
Definition deep_enough (fuel : nat) (all_nodes : list Node.t) : Prop :=
  (0 < fuel)%nat ∧ ∀ n, n ∈ all_nodes → Node.depth n ≤ Z.of_nat fuel.

(** the nodes [_count_subtree_tokens] visits *)
Fixpoint subtree_nodes (fuel : nat) (nodes : list Node.t)
    (children_map : list (string * list Node.t)) : list Node.t :=
  match fuel with
  | O => []
  | S fuel' =>
      nodes ≫= λ node,
        node :: subtree_nodes fuel' (dict_get (Node.id node) children_map) children_map
  end.

(** the body of the loop of [_count_subtree_tokens] *)
Definition count_step (fuel : nat) (children_map : list (string * list Node.t))
    (total : option nat) (node : Node.t) : option nat :=
  total ← total;
  let total := (total + estimate_tokens (Node.content node))%nat in
  let grandchildren := dict_get (Node.id node) children_map in
  if nonempty grandchildren then
    sub ← _count_subtree_tokens fuel grandchildren children_map;
    Some (total + sub)%nat
  else Some total.

Section Names.
Context `{rt : Runtime}.

(** the children of a root that stay visible: the guard and the selection
    of [count_shown_tokens] and [add_entry_to_tree] *)
Definition visible_children (v2_config : option V2Config) (children : list Node.t)
    : Clocked (list Node.t) :=
  match caps v2_config children with
  | Some cfg => select_children cfg children
  | None => ret children
  end.

(** the first [topNewestCount] children by [created_at], newest first *)
Definition top_newest (cfg : V2Config) (children : list Node.t) : list Node.t :=
  slice_to (topNewestCount cfg)
    (sorted_reverse String.leb (λ c, or_empty (Node.created_at c)) children).

(** the first [topAccessCount] accessed children by score, highest first *)
Definition top_accessed (cfg : V2Config) (children : list Node.t)
    : Clocked (list Node.t) :=
  do by_score <-
    sorted_reverseM float_le weighted_access_score
      (filter (λ c, 0 < Node.access_count c) children);
  ret (slice_to (topAccessCount cfg) by_score).

(** the nodes [count_shown_tokens] counts: the visible children of the shown
    records and everything below them *)
Definition counted_nodes (fuel : nat) (shown_entries : list Entry.t)
    (children_map : list (string * list Node.t)) (v2_config : option V2Config)
    : Clocked (list Node.t) :=
  do visible <-
    mapC (λ entry,
            visible_children v2_config (dict_get (Entry.id entry) children_map))
         shown_entries;
  ret (subtree_nodes fuel (concat visible) children_map).

(** the body of the loop of [count_shown_tokens] *)
Definition shown_step (fuel : nat)
    (children_map : list (string * list Node.t)) (v2_config : option V2Config)
    (total : option nat) (entry : Entry.t) : Clocked (option nat) :=
  match total with
  | None => ret None
  | Some total =>
      let total := (total + estimate_tokens (Entry.level_1 entry))%nat in
      let children := dict_get (Entry.id entry) children_map in
      do children <- visible_children v2_config children;
      ret (sub ← _count_subtree_tokens fuel children children_map;
           Some (total + sub)%nat)
  end.

(** from readings [t1] and [t2] on, the clock shows the same times *)
Definition same_readings (t1 t2 : nat) : Prop :=
  ∀ i, clock (t1 + i) = clock (t2 + i).

(** a computation that sees of the clock only the times it reads *)
Definition steady {A} (m : Clocked A) : Prop :=
  ∀ t1 t2, same_readings t1 t2 →
    (m t1).1 = (m t2).1
    ∧ ∃ k, (m t1).2 = (t1 + k)%nat ∧ (m t2).2 = (t2 + k)%nat.

(** the number of times a computation started at reading [t] reads the clock *)
Definition readings {A} (m : Clocked A) (t : nat) : nat := ((m t).2 - t)%nat.

(** the [k] readings from [t1] on show the same times as the [k] readings
    from [t2] on *)
Definition same_readings_during (k t1 t2 : nat) : Prop :=
  ∀ i, (i < k)%nat → clock (t1 + i) = clock (t2 + i).

(** a computation that sees of the clock only the times it reads: a run
    during which the clock shows the times of another run returns the same
    value, after as many readings *)
Definition local {A} (m : Clocked A) : Prop :=
  ∀ t1 t2,
    (t1 ≤ (m t1).2)%nat
    ∧ (same_readings_during (readings m t1) t1 t2 →
       (m t1).1 = (m t2).1 ∧ (m t2).2 = (t2 + readings m t1)%nat).
End Names.

(** ** The lines of a view *)

(** the estimate of the text a line stands for: the body of a record, the
    content of a node *)
Definition label_tokens (l : Label) : nat :=
  match l with
  | LEntry e _ => entry_tokens e
  | LNode n => node_tokens n
  | _ => 0%nat
  end.

Definition entry_of (l : Label) : option Entry.t :=
  match l with LEntry e _ => Some e | _ => None end.

Definition node_of (l : Label) : option Node.t :=
  match l with LNode n => Some n | _ => None end.

(** the records and the nodes a tree displays, from top to bottom *)
Definition entry_lines (t : Tree) : list Entry.t := omap entry_of (tree_labels t).
Definition node_lines (t : Tree) : list Node.t := omap node_of (tree_labels t).

(** [l] is a chain of descendants of [n]: its first node is a child of [n],
    every other one a child of the one before *)
Fixpoint descent (children_map : list (string * list Node.t)) (n : Node.t)
    (l : list Node.t) : Prop :=
  match l with
  | [] => True
  | m :: l' => m ∈ dict_get (Node.id n) children_map ∧ descent children_map m l'
  end.

Section Lines.
Context `{rt : Runtime}.
Variables (fuel : nat) (children_map : list (string * list Node.t)).

(** the lines [add_entry_to_tree] adds for a record when the clock is at
    reading [t] *)
Definition entry_tree_labels (v2_mode : bool) (v2_config : option V2Config)
    (e : Entry.t) (t : nat) : list Label :=
  let children := dict_get (Entry.id e) children_map in
  let visible := (visible_children v2_config children t).1 in
  let hidden := Z.of_nat (length children) - Z.of_nat (length visible) in
  LEntry e v2_mode
    :: (LNode <$> subtree_nodes fuel visible children_map)
    ++ if nonempty visible && (0 <? hidden) then [LMore hidden (Entry.id e)] else [].

(** the trees of a list of records, each built at some reading of the clock *)
Definition entries_shape (v2_mode : bool) (v2_config : option V2Config)
    (entries : list Entry.t) (kids : list Tree) : Prop :=
  Forall2 (λ e kid, ∃ t0, tree_labels kid = entry_tree_labels v2_mode v2_config e t0)
          entries kids.

(** the group nodes: one per key in ascending order, holding the trees of
    its records *)
Definition groups_shape (v2_mode : bool) (v2_config : option V2Config)
    (groups : list (string * list Entry.t))
    (group_label : string → list Entry.t → Label) (trees : list Tree) : Prop :=
  Forall2 (λ p tree, ∃ kids,
             tree = Branch (group_label p (dict_get p groups)) kids
             ∧ entries_shape v2_mode v2_config (dict_get p groups) kids)
          (sorted_strings groups.*1) trees.
End Lines.

(** no child of the record [e] is pruned: the guard of the capping block is
    false *)
Definition uncapped_at (children_map : list (string * list Node.t))
    (v2_config : option V2Config) (e : Entry.t) : Prop :=
  caps v2_config (dict_get (Entry.id e) children_map) = None.

(** ** Titles

    The title functions look for the separator [" — "], whose dash is the
    code point U+2014: here a text is the list of its code points. *)

Definition text : Type := list N.

(** the code points of a string of the data model *)
Definition text_of (s : string) : text :=
  N_of_ascii <$> String.list_ascii_of_string s.

(** [s.startswith(sub)] *)
Fixpoint starts_with {A} `{EqDecision A} (sub s : list A) : bool :=
  match sub, s with
  | [], _ => true
  | _ :: _, [] => false
  | a :: sub', b :: s' => bool_decide (a = b) && starts_with sub' s'
  end.

(** [s.find(sub)]: the lowest index at which [sub] occurs in [s], [-1] when
    it does not occur *)
Fixpoint find {A} `{EqDecision A} (sub s : list A) : Z :=
  if starts_with sub s then 0
  else match s with
       | [] => -1
       | _ :: s' => let i := find sub s' in if i <? 0 then -1 else i + 1
       end.

(** [" — "]: a space, an em dash, a space *)
Definition SEPARATOR : text := [32; 8212; 32]%N.

(** [auto_extract_title(text, max_len)] *)
Definition auto_extract_title (txt : text) (max_len : Z) : text :=
  if negb (nonempty txt) then []
  else
    let dash_idx := find SEPARATOR txt in
    if (0 <? dash_idx) && (dash_idx <=? max_len) then slice_to dash_idx txt
    else if Z.of_nat (length txt) <=? max_len then txt
    else slice_to max_len txt.

(** [title or fallback] where [title] may be [None] *)
Definition title_or (title : option text) (fallback : text) : text :=
  match title with
  | Some (c :: s) => c :: s
  | _ => fallback
  end.

(** The characters of a string of the data model name code points, one
    each; [codepoint] tells which code point a character names. *)
Definition decode (codepoint : ascii → N) (s : string) : text :=
  codepoint <$> String.list_ascii_of_string s.

(** Latin-1, with the em dash U+2014 where Windows-1252 has it *)
Definition latin1_dash (c : ascii) : N :=
  if (N_of_ascii c =? 151)%N then 8212%N else N_of_ascii c.

(** [node_title] and [entry_title], with the default [max_len = 30] *)
Definition node_title (codepoint : ascii → N) (node : Node.t) : text :=
  title_or (decode codepoint <$> Node.title node)
           (auto_extract_title (decode codepoint (Node.content node)) 30).

Definition entry_title (codepoint : ascii → N) (entry : Entry.t) : text :=
  title_or (decode codepoint <$> Entry.title entry)
           (auto_extract_title (decode codepoint (Entry.level_1 entry)) 30).

(** ** Token figures

    [fmt_tokens] divides two ints into a float and prints it with one
    decimal. A float is a binary64 number [mantissa * 2 ^ exponent]; the
    division and the printing both round to the nearest, ties to even, the
    printing on the exact binary value. *)

Record binary64 : Type := { mantissa : Z; exponent : Z }.

(** the integer nearest to [num / den], ties to even ([den] positive) *)
Definition round_half_even (num den : Z) : Z :=
  let q := num / den in
  let r := num mod den in
  if 2 * r <? den then q
  else if den <? 2 * r then q + 1
  else if Z.even q then q else q + 1.

(** [a / b] on positive ints whose quotient is in the normal range: with
    [2 ^ e <= a / b < 2 ^ (e + 1)], the quotient rounded to 53 bits *)
Definition truediv (a b : Z) : binary64 :=
  let e0 := Z.log2 a - Z.log2 b in
  let e := if a * 2 ^ Z.max 0 (- e0) <? b * 2 ^ Z.max 0 e0 then e0 - 1 else e0 in
  let shift := 52 - e in
  {| mantissa := round_half_even (a * 2 ^ Z.max 0 shift) (b * 2 ^ Z.max 0 (- shift));
     exponent := - shift |}.

(** the tenths printed by [f"{x:.1f}"], for [x] not negative *)
Definition tenths (x : binary64) : Z :=
  round_half_even (mantissa x * 10 * 2 ^ Z.max 0 (exponent x))
                  (2 ^ Z.max 0 (- exponent x)).

(** [f"{t / 10}.{t % 10}"] for a number of tenths *)
Definition decimal_1 (t : Z) : string :=
  pretty (t / 10) +:+ "." +:+ pretty (t mod 10).

(** [f"{x:.1f}"] *)
Definition format_1f (x : binary64) : string :=
  if mantissa x <? 0
  then "-" +:+ decimal_1 (tenths {| mantissa := - mantissa x; exponent := exponent x |})
  else decimal_1 (tenths x).

(** [fmt_tokens(n)] *)
Definition fmt_tokens (n : Z) : string :=
  if n <? 1000 then pretty n
  else if n <? 10000 then format_1f (truediv n 1000) +:+ "k"
  else pretty (n / 1000) +:+ "k".

(** ** Configuration files

    What [json.loads] returns; [F] is the type of the floats. An object is a
    dict: its items in the order of the file. *)

#[warnings="-register-all"]
Inductive json (F : Type) : Type :=
| JNull
| JBool (b : bool)
| JInt (n : Z)
| JFloat (x : F)
| JString (s : string)
| JArray (l : list (json F))
| JObject (items : list (string * json F)).

Arguments JNull {F}.
Arguments JBool {F} b.
Arguments JInt {F} n.
Arguments JFloat {F} x.
Arguments JString {F} s.
Arguments JArray {F} l.
Arguments JObject {F} items.

(** One [hmem.config.json]: [cfg.exists()] is false, or reading or parsing
    it raises, or it parses to [data]. *)
Inductive ConfigFile (F : Type) : Type :=
| Missing
| Unreadable
| Parsed (data : json F).

Arguments Missing {F}.
Arguments Unreadable {F}.
Arguments Parsed {F} data.

(** [d[key]] on the items of a dict, [None] for a missing key (the keys of a
    dict are distinct; were one repeated, its last item counts) *)
Fixpoint item {V} (key : string) (items : list (string * V)) : option V :=
  match items with
  | [] => None
  | (k, v) :: rest =>
      match item key rest with
      | Some v' => Some v'
      | None => if decide (k = key) then Some v else None
      end
  end.

(** [{**d, **items}] *)
Definition update {V} (d : gmap string V) (items : list (string * V)) : gmap string V :=
  foldl (λ d kv, <[kv.1 := kv.2]> d) d items.

(** [DEFAULT_V2_CONFIG] as the dict it is *)
Definition v2_dict {F} (c : V2Config) : gmap string (json F) :=
  update ∅ [("topAccessCount"%string, JInt (topAccessCount c));
            ("topNewestCount"%string, JInt (topNewestCount c));
            ("topObsoleteCount"%string, JInt (topObsoleteCount c))].

Definition DEFAULT_PREFIX_LABELS {F} : gmap string (json F) :=
  update ∅ [("P"%string, JString "Projects");
            ("L"%string, JString "Lessons Learned");
            ("E"%string, JString "Error Patterns");
            ("D"%string, JString "Decisions");
            ("T"%string, JString "Tasks");
            ("M"%string, JString "Milestones");
            ("S"%string, JString "Skills");
            ("N"%string, JString "Navigator");
            ("H"%string, JString "Human");
            ("R"%string, JString "Rules")].

Section Config.
Context {F : Type}.
(** the truth value of a float and [str.upper] *)
Variable float_truthy : F → bool.
Variable upper : string → string.

(** the truth value of a parsed value *)
Definition truthy (v : json F) : bool :=
  match v with
  | JNull => false
  | JBool b => b
  | JInt n => negb (n =? 0)
  | JFloat x => float_truthy x
  | JString s => match s with EmptyString => false | _ => true end
  | JArray l => nonempty l
  | JObject items => nonempty items
  end.

(** [data.get(key, dflt)]; [None] when it raises, [data] being no dict *)
Definition json_get (data : json F) (key : string) (dflt : json F) : option (json F) :=
  match data with
  | JObject items => Some (default dflt (item key items))
  | _ => None
  end.

(** [load_v2_config]: the loop over the two directories goes on after a file
    that is missing or that raises *)
Fixpoint load_v2_config_from (dirs : list (ConfigFile F)) : gmap string (json F) :=
  match dirs with
  | [] => v2_dict DEFAULT_V2_CONFIG
  | cfg :: dirs' =>
      match cfg with
      | Parsed data =>
          match json_get data "bulkReadV2" (JObject []) with
          | Some (JObject v2) => update (v2_dict DEFAULT_V2_CONFIG) v2
          | _ => load_v2_config_from dirs'
          end
      | _ => load_v2_config_from dirs'
      end
  end.

Definition load_v2_config (beside_db in_project : ConfigFile F) : gmap string (json F) :=
  load_v2_config_from [beside_db; in_project].

(** [load_prefix_labels]: the loop stops at the first file that exists *)
Fixpoint load_prefix_labels_from (dirs : list (ConfigFile F))
    (labels : gmap string (json F)) : gmap string (json F) :=
  match dirs with
  | [] => labels
  | cfg :: dirs' =>
      match cfg with
      | Missing => load_prefix_labels_from dirs' labels
      | Unreadable => labels
      | Parsed data =>
          match json_get data "prefixes" JNull with
          | Some prefixes =>
              match (if truthy prefixes then prefixes else JObject []) with
              | JObject items =>
                  foldl (λ labels kv, <[upper kv.1 := kv.2]> labels) labels items
              | _ => labels
              end
          | None => labels
          end
      end
  end.

Definition load_prefix_labels (beside_db in_project : ConfigFile F) : gmap string (json F) :=
  load_prefix_labels_from [beside_db; in_project] DEFAULT_PREFIX_LABELS.
End Config.

(** [str.upper] on a text of ASCII characters, for the examples *)
Definition upper_ascii (s : string) : string :=
  String.string_of_list_ascii
    ((λ c, let n := N_of_ascii c in
           if (97 <=? n)%N && (n <=? 122)%N then ascii_of_N (n - 32) else c)
       <$> String.list_ascii_of_string s).

(** ** The channels as the specification words them

    These two definitions follow the specification, not the code: the
    newest channel with ties broken by the higher sequence number, the
    accessed channel with ties broken by the higher access count, then by
    the ascending id.  They are here to be compared with [newest] and
    [most_accessed]. *)

Definition spec_newest_le (k1 k2 : string * Z) : bool :=
  if String.eqb k1.1 k2.1 then k1.2 <=? k2.2 else String.leb k1.1 k2.1.

Definition spec_newest_channel (cap : Z) (entries : list Entry.t) : list Entry.t :=
  slice_to cap
    (sorted_reverse spec_newest_le
       (λ e, (or_empty (Entry.created_at e), Entry.seq e)) entries).

Definition spec_accessed_le `{rt : Runtime} (k1 k2 : Float * Z * string) : bool :=
  let '(score1, ac1, id1) := k1 in
  let '(score2, ac2, id2) := k2 in
  if float_le score1 score2 && float_le score2 score1 then
    if ac1 =? ac2 then String.leb id2 id1 else ac1 <=? ac2
  else float_le score1 score2.

Definition spec_accessed_channel `{rt : Runtime} (cap : Z) (entries : list Entry.t)
    : Clocked (list Entry.t) :=
  do ranked <-
    sorted_reverseM spec_accessed_le
      (λ e, do score <- weighted_access_score e;
            ret (score, Entry.access_count e, Entry.id e))
      (filter (λ e, 0 < Entry.access_count e) entries);
  ret (slice_to cap ranked).

(** ** A reference runtime

    Scores are compared as real numbers: [(n, b)] stands for [n / log2 b]
    with [b >= 2], and [n1 / log2 b1 <= n2 / log2 b2] exactly when
    [b2 ^ n1 <= b1 ^ n2].  Timestamps are parsed in the form
    [YYYY-MM-DDTHH:MM:SS], naive, or aware with the suffix [+00:00] (what
    a stored [...Z] becomes). *)

Module Reference.

Definition q_le (x y : Z * Q) : bool :=
  Qle_bool (Qpower y.2 x.1) (Qpower x.2 y.1).

Lemma q_le_total x y : q_le x y = false → q_le y x = true.
Proof.
  unfold q_le. intros Hf. apply Qle_bool_iff, Qlt_le_weak, Qnot_le_lt.
  intros Hle. apply Qle_bool_iff in Hle. congruence.
Qed.

Definition us_per_day : Z := 86400 * 1000000.

Definition q_decay (ac age_us : Z) : Z * Q :=
  (ac, Qplus (Qmake (Z.max age_us 0) (Z.to_pos us_per_day)) (inject_Z 2)).

Definition digit (c : ascii) : option Z :=
  let n := Z.of_nat (nat_of_ascii c) in
  if (48 <=? n) && (n <=? 57) then Some (n - 48) else None.

Fixpoint number (acc : Z) (l : list ascii) : option Z :=
  match l with
  | [] => Some acc
  | c :: l' => d ← digit c; number (10 * acc + d) l'
  end.

(** days since 1970-01-01 of a date of the proleptic Gregorian calendar *)
Definition days_from_civil (y m d : Z) : Z :=
  let y := if m <=? 2 then y - 1 else y in
  let era := y `div` 400 in
  let yoe := y - era * 400 in
  let doy := (153 * (if 2 <? m then m - 3 else m + 9) + 2) `div` 5 + d - 1 in
  let doe := yoe * 365 + yoe `div` 4 - yoe `div` 100 + doy in
  era * 146097 + doe - 719468.

Definition is_leap (y : Z) : bool :=
  ((y `mod` 4 =? 0) && negb (y `mod` 100 =? 0)) || (y `mod` 400 =? 0).

Definition days_in_month (y m : Z) : Z :=
  if m =? 2 then (if is_leap y then 29 else 28)
  else if (m =? 4) || (m =? 6) || (m =? 9) || (m =? 11) then 30 else 31.

Definition parse_date (l : list ascii) : option Z :=
  match l with
  | [y1; y2; y3; y4; dash1; m1; m2; dash2; d1; d2] =>
      y ← number 0 [y1; y2; y3; y4];
      m ← number 0 [m1; m2];
      d ← number 0 [d1; d2];
      if Ascii.eqb dash1 "-" && Ascii.eqb dash2 "-" && (1 <=? y)
         && (1 <=? m) && (m <=? 12) && (1 <=? d) && (d <=? days_in_month y m)
      then Some (days_from_civil y m d) else None
  | _ => None
  end.

Definition parse_time (l : list ascii) : option Z :=
  match l with
  | [h1; h2; colon1; m1; m2; colon2; s1; s2] =>
      h ← number 0 [h1; h2];
      m ← number 0 [m1; m2];
      s ← number 0 [s1; s2];
      if Ascii.eqb colon1 ":" && Ascii.eqb colon2 ":"
         && (h <=? 23) && (m <=? 59) && (s <=? 59)
      then Some (h * 3600 + m * 60 + s) else None
  | _ => None
  end.

Definition parse_iso (s : string) : option datetime :=
  let l := String.list_ascii_of_string s in
  days ← parse_date (take 10 l);
  match drop 10 l with
  | [] => Some (Naive (days * us_per_day))
  | sep :: rest =>
      if Ascii.eqb sep "T" then
        secs ← parse_time (take 8 rest);
        let us := days * us_per_day + secs * 1000000 in
        match String.string_of_list_ascii (drop 8 rest) with
        | ""%string => Some (Naive us)
        | "+00:00"%string => Some (Aware us)
        | _ => None
        end
      else None
  end.

Definition runtime (clock : nat → Z) : Runtime :=
  {| Float := Z * Q;
     float_le := q_le;
     float_le_total := q_le_total;
     float_of_int n := (n, inject_Z 2);
     decay := q_decay;
     fromisoformat := parse_iso;
     clock := clock |}.

(** 2026-01-01T00:00:00 UTC, in microseconds *)
Definition t_2026 : Z := 1767225600 * 1000000.

(** a clock that starts on 2026-01-01 and advances one microsecond a reading *)
Definition ticking : nat → Z := λ n, t_2026 + Z.of_nat n.

(** a clock that always shows the same instant *)
Definition frozen : nat → Z := λ _, t_2026.

(** the clock of two sessions: two readings on 2026-01-01, the following ones
    a thousand days later *)
Definition two_sessions : nat → Z :=
  λ n, if (n <? 2)%nat then t_2026 + Z.of_nat n
       else t_2026 + 1000 * us_per_day + Z.of_nat n.

(** a clock that shows the same instant for twenty readings and the next day
    from then on *)
Definition stepping : nat → Z :=
  λ n, if (n <? 20)%nat then t_2026 else t_2026 + us_per_day.

End Reference.

(** ** Sample rows *)

Module Sample.
Definition entry (id prefix : string) (seq : Z) (created_at : option string)
    (access_count favorite obsolete : Z) (level_1 : string) : Entry.t :=
  Entry.mk id prefix seq None level_1 created_at "worker" favorite access_count
           obsolete None.

Definition node (id parent_id root_id : string) (depth seq : Z)
    (created_at : option string) (access_count : Z) (content : string) : Node.t :=
  Node.mk id parent_id root_id depth seq None content created_at access_count None.

Definition caps (newest accessed obsolete : Z) : V2Config :=
  {| topAccessCount := accessed; topNewestCount := newest; topObsoleteCount := obsolete |}.

Definition p1 := entry "P0001" "P" 1 (Some "2025-12-01T08:00:00Z") 0 0 0 "Deploy pipeline".
Definition p2 := entry "P0002" "P" 2 (Some "2025-12-02T08:00:00Z") 4 0 0 "Cache redesign".
Definition p3 := entry "P0003" "P" 3 (Some "2025-12-03T08:00:00Z") 0 1 0 "Sharding".
Definition l1 := entry "L0001" "L" 1 (Some "2025-11-01T08:00:00Z") 2 0 0 "Measure first".
Definition o1 := entry "E0001" "E" 1 (Some "2025-10-01T08:00:00Z") 1 0 1 "Old error".
Definition rows : list Entry.t := [o1; l1; p1; p2; p3].

Definition n1 := node "P0001.1" "P0001" "P0001" 2 1 (Some "2025-12-01T12:00:00Z") 0 "first child".
Definition n2 := node "P0001.2" "P0001" "P0001" 2 2 (Some "2025-12-01T10:00:00Z") 3 "second child".
Definition n3 := node "P0001.3" "P0001" "P0001" 2 3 (Some "2025-12-01T11:00:00Z") 0 "third child".
Definition n11 := node "P0001.1.1" "P0001.1" "P0001" 3 1 (Some "2025-12-01T12:30:00Z") 0 "grandchild one".
Definition n12 := node "P0001.1.2" "P0001.1" "P0001" 3 2 (Some "2025-12-01T12:40:00Z") 0 "grandchild two".
Definition all_nodes : list Node.t := [n1; n2; n3; n11; n12].
Definition children_map : list (string * list Node.t) := group_by Node.parent_id all_nodes.

(** a node under a record that does not exist *)
Definition lost := node "X0042.1" "X0042" "X0042" 2 1 (Some "2025-12-05T10:00:00Z") 7 "lost and found".
End Sample.

(** * Properties *)

(** ** Slices *)

Section Slices.
Context {A : Type}.
Implicit Types (l : list A) (n m : Z).

Lemma slice_to_nonneg n l : 0 ≤ n → slice_to n l = take (Z.to_nat n) l.
Proof. intros Hn. unfold slice_to. by rewrite (proj2 (Z.ltb_ge n 0) Hn). Qed.

Lemma slice_to_prefix n l : slice_to n l `prefix_of` l.
Proof. apply prefix_take. Qed.

Lemma slice_to_sublist n l : slice_to n l `sublist_of` l.
Proof. apply sublist_take. Qed.

Lemma slice_to_subseteq n l : slice_to n l ⊆ l.
Proof. apply subseteq_take. Qed.

Lemma slice_to_length n l :
  0 ≤ n → length (slice_to n l) = (length l `min` Z.to_nat n)%nat.
Proof. intros Hn. rewrite slice_to_nonneg, length_take by done. lia. Qed.

Lemma slice_to_zero l : slice_to 0 l = [].
Proof. done. Qed.

Lemma slice_to_all n l : Z.of_nat (length l) ≤ n → slice_to n l = l.
Proof.
  intros Hn. rewrite slice_to_nonneg by lia. apply take_ge. lia.
Qed.

Lemma slice_to_mono n m l : 0 ≤ n → n ≤ m → slice_to n l `prefix_of` slice_to m l.
Proof.
  intros Hn Hm. rewrite !slice_to_nonneg by lia.
  exists (drop (Z.to_nat n) (take (Z.to_nat m) l)).
  rewrite <- (take_drop (Z.to_nat n) (take (Z.to_nat m) l)) at 1.
  f_equal. rewrite take_take. f_equal. lia.
Qed.
End Slices.

(** ** Running clock-reading computations *)

Lemma mapC_length {A B} (f : A → Clocked B) l t :
  length (mapC f l t).1 = length l.
Proof.
  revert t. induction l as [|x l IH]; intros t; [done|].
  simpl. unfold bind. destruct (f x t) as [y t1].
  specialize (IH t1). destruct (mapC f l t1) as [ys t2]. simpl in *. by rewrite IH.
Qed.

Lemma bindE_run {A B} (m : Clocked (option A)) (k : A → Clocked (option B)) t :
  bindE m k t
  = match m t with
    | (Some a, t') => k a t'
    | (None, t') => (None, t')
    end.
Proof. done. Qed.

Lemma bind_run {A B} (m : Clocked A) (k : A → Clocked B) t :
  bind m k t = k (m t).1 (m t).2.
Proof. unfold bind. by destruct (m t). Qed.

Lemma foldlC_cons {A B} (f : B → A → Clocked B) b x l t :
  foldlC f b (x :: l) t = let '(b', t') := f b x t in foldlC f b' l t'.
Proof. done. Qed.

(** ** Stable descending sort *)

Section SortFacts.
Context {K A : Type} (le : K → K → bool).
Implicit Types (x y : K * A) (l : list (K * A)).

Lemma insert_desc_perm x l : insert_desc le x l ≡ₚ x :: l.
Proof.
  induction l as [|y l IH]; simpl; [done|].
  destruct (le y.1 x.1); [done|]. rewrite IH. apply Permutation_swap.
Qed.

Lemma sort_desc_perm l : sort_desc le l ≡ₚ l.
Proof.
  induction l as [|x l IH]; simpl; [done|].
  by rewrite insert_desc_perm, IH.
Qed.

Lemma sort_desc_length l : length (sort_desc le l) = length l.
Proof. by rewrite sort_desc_perm. Qed.

Lemma sort_desc_keys_perm (ks : list K) (l : list A) :
  length ks = length l → (sort_desc le (zip ks l)).*2 ≡ₚ l.
Proof. intros Hlen. rewrite sort_desc_perm. by rewrite snd_zip by lia. Qed.

Lemma sorted_reverse_perm (key : A → K) (l : list A) :
  sorted_reverse le key l ≡ₚ l.
Proof. apply sort_desc_keys_perm. by rewrite length_map. Qed.

Lemma sorted_reverseM_perm (key : A → Clocked K) (l : list A) t :
  (sorted_reverseM le key l t).1 ≡ₚ l.
Proof.
  unfold sorted_reverseM, bind, ret. pose proof (mapC_length key l t) as Hlen.
  destruct (mapC key l t) as [ks t1]. simpl in *. by apply sort_desc_keys_perm.
Qed.
End SortFacts.

(** ** Dictionaries *)

Section DictFacts.
Context {K V : Type} `{EqDecision K}.
Implicit Types (d : list (K * list V)) (f : V → K).

Lemma dict_get_append k k' v d :
  dict_get k (dict_append k' v d)
  = if decide (k = k') then dict_get k d ++ [v] else dict_get k d.
Proof.
  induction d as [|[k0 vs] d IH]; simpl.
  - by repeat case_decide.
  - destruct (decide (k' = k0)) as [->|Hne]; simpl.
    + by repeat case_decide.
    + rewrite IH. repeat case_decide; congruence.
Qed.

Lemma group_by_snoc f l x :
  group_by f (l ++ [x]) = dict_append (f x) x (group_by f l).
Proof. unfold group_by. by rewrite foldl_app. Qed.

(** [d.get(k, [])] on the grouping of [l]: the elements filed under [k],
    in the order of [l] *)
Lemma dict_get_group_by f l k :
  dict_get k (group_by f l) = filter (λ x, f x = k) l.
Proof.
  induction l as [|x l IH] using rev_ind; [done|].
  rewrite group_by_snoc, dict_get_append, filter_app, IH.
  rewrite filter_cons, filter_nil.
  repeat case_decide; try congruence. by rewrite app_nil_r.
Qed.

Lemma dict_append_values k v d :
  concat (dict_append k v d).*2 ≡ₚ v :: concat d.*2.
Proof.
  induction d as [|[k0 vs] d IH]; simpl; [done|].
  case_decide; simpl.
  - rewrite <- app_assoc. simpl. by rewrite <- Permutation_middle.
  - rewrite IH. by rewrite <- Permutation_middle.
Qed.

(** the values of the grouping of [l] hold every element of [l] once *)
Lemma group_by_values f l : concat (group_by f l).*2 ≡ₚ l.
Proof.
  induction l as [|x l IH] using rev_ind; [done|].
  rewrite group_by_snoc, dict_append_values, IH.
  by rewrite <- Permutation_cons_append.
Qed.
Lemma dict_get_in_group_by f l k x :
  x ∈ dict_get k (group_by f l) ↔ f x = k ∧ x ∈ l.
Proof. by rewrite dict_get_group_by, list_elem_of_filter. Qed.
End DictFacts.

(** ** The selection *)

Section Selection.
Context `{rt : Runtime}.
Implicit Types (e : Entry.t) (cfg : V2Config) (t : nat).

Lemma elem_of_add_ids x ids (l : list Entry.t) :
  x ∈ add_ids ids l ↔ x ∈ ids ∨ x ∈ Entry.id <$> l.
Proof.
  revert ids. induction l as [|e l IH]; intros ids; simpl.
  - rewrite elem_of_nil. tauto.
  - rewrite IH, elem_of_cons, elem_of_union, elem_of_singleton. tauto.
Qed.

Lemma add_ids_mono ids1 ids2 (l1 l2 : list Entry.t) :
  ids1 ⊆ ids2 → l1 ⊆ l2 → add_ids ids1 l1 ⊆ add_ids ids2 l2.
Proof.
  intros Hids Hl x. rewrite !elem_of_add_ids, !list_elem_of_fmap.
  intros [?|(e & -> & ?)]; [left; set_solver|right; exists e; split; auto].
Qed.

(** the accessed channel does not look at [topNewestCount] *)
Lemma most_accessed_ext cfg1 cfg2 entries :
  topAccessCount cfg1 = topAccessCount cfg2 →
  most_accessed cfg1 entries = most_accessed cfg2 entries.
Proof. unfold most_accessed. by intros ->. Qed.

Lemma select_in_prefix_mono cfg1 cfg2 exp1 exp2 prom group t :
  topAccessCount cfg1 = topAccessCount cfg2 →
  0 ≤ topNewestCount cfg1 ≤ topNewestCount cfg2 →
  exp1 ⊆ exp2 →
  ∃ exp1' exp2' prom' t',
    select_in_prefix cfg1 (exp1, prom) group t = ((exp1', prom'), t') ∧
    select_in_prefix cfg2 (exp2, prom) group t = ((exp2', prom'), t') ∧
    exp1' ⊆ exp2'.
Proof.
  intros Hacc Hnew Hexp. unfold select_in_prefix, bind, ret.
  rewrite (most_accessed_ext cfg1 cfg2) by done.
  destruct (most_accessed cfg2 group.2 t) as [acc t'].
  eexists _, _, _, _. split; [done|]. split; [done|].
  apply add_ids_mono; [|done]. apply add_ids_mono; [done|].
  intros x Hx. eapply elem_of_prefix; [exact Hx|].
  apply slice_to_mono; lia.
Qed.

Lemma foldlC_select_mono cfg1 cfg2 groups exp1 exp2 prom t :
  topAccessCount cfg1 = topAccessCount cfg2 →
  0 ≤ topNewestCount cfg1 ≤ topNewestCount cfg2 →
  exp1 ⊆ exp2 →
  ∃ exp1' exp2' prom' t',
    foldlC (select_in_prefix cfg1) (exp1, prom) groups t = ((exp1', prom'), t') ∧
    foldlC (select_in_prefix cfg2) (exp2, prom) groups t = ((exp2', prom'), t') ∧
    exp1' ⊆ exp2'.
Proof.
  intros Hacc Hnew. revert exp1 exp2 prom t.
  induction groups as [|g groups IH]; intros exp1 exp2 prom t Hexp.
  - by eexists _, _, _, _.
  - destruct (select_in_prefix_mono cfg1 cfg2 exp1 exp2 prom g t)
      as (e1 & e2 & p & t1 & H1 & H2 & Hsub); [done..|].
    rewrite !foldlC_cons, H1, H2. by apply IH.
Qed.
Lemma compute_v2_selection_obsolete active obsolete cfg t :
  visibleObsolete (result_of (compute_v2_selection active obsolete cfg) t) ⊆ obsolete.
Proof.
  unfold result_of, compute_v2_selection. rewrite !bind_run. simpl.
  destruct (foldlC _ _ _ t) as [[exp prom] t1]. simpl.
  rewrite bind_run. unfold visibleObsolete, ret. simpl.
  etrans; [apply slice_to_subseteq|].
  intros x. by rewrite sorted_reverseM_perm.
Qed.
End Selection.

(** ** Scoring *)

Section Scoring.
Context `{rt : Runtime} {A : Type} `{Scorable A}.
Implicit Types (entry : A) (t : nat).

Lemma str_truthy_Some created :
  created ≠ ""%string → str_truthy (Some created) = true.
Proof.
  intros Hne. simpl. destruct (String.eqb_spec created "") as [->|_]; [done|done].
Qed.

(** a parsed timestamp without offset is as bad as an unparseable one: the
    subtraction from the aware [now] raises, and the handler answers *)
Lemma weighted_access_score_naive entry t created us :
  get_access_count entry ≠ 0 →
  get_created_at entry = Some created → created ≠ ""%string →
  fromisoformat (replace_Z created) = Some (Naive us) →
  weighted_access_score entry t = (float_of_int (get_access_count entry), S t).
Proof.
  intros Hac Hc Hne Hparse. unfold weighted_access_score.
  rewrite Hc, str_truthy_Some by done.
  rewrite (proj2 (Z.eqb_neq _ _) Hac). simpl.
  unfold bind, datetime_now, try_age. simpl. by rewrite Hparse.
Qed.

End Scoring.

(** ** Ranking *)

Section Ranking.
Context {K A : Type} (le : K → K → bool).
Hypothesis le_total : ∀ a b, le a b = false → le b a = true.
Implicit Types (x y : K * A) (l : list (K * A)).

Lemma insert_desc_HdRel x y l :
  desc le y x → HdRel (desc le) y l → HdRel (desc le) y (insert_desc le x l).
Proof.
  unfold desc. intros Hyx Hhd. destruct l as [|z l]; simpl; [by constructor|].
  destruct (le z.1 x.1); constructor; [done|]. by inversion Hhd.
Qed.

Lemma insert_desc_sorted x l : Sorted (desc le) l → Sorted (desc le) (insert_desc le x l).
Proof.
  induction l as [|y l IH]; simpl; intros Hs.
  - by repeat constructor.
  - destruct (le y.1 x.1) eqn:Hle.
    + constructor; [done|]. by constructor.
    + inversion Hs; subst. constructor; [by apply IH|].
      apply insert_desc_HdRel; [|done]. by apply le_total.
Qed.

(** the result is in descending order of key *)
Lemma sort_desc_sorted l : Sorted (desc le) (sort_desc le l).
Proof. induction l; simpl; [constructor|by apply insert_desc_sorted]. Qed.

Lemma insert_desc_sublist x l : l `sublist_of` insert_desc le x l.
Proof.
  induction l as [|y l IH]; simpl; [apply sublist_nil_l|].
  destruct (le y.1 x.1); [by apply sublist_cons|by apply sublist_skip].
Qed.

Lemma insert_desc_before x y l :
  y ∈ l → le y.1 x.1 = true → [x; y] `sublist_of` insert_desc le x l.
Proof.
  induction l as [|z l IH]; simpl; intros Hin Hle; [by apply elem_of_nil in Hin|].
  destruct (le z.1 x.1) eqn:Hz.
  - apply sublist_skip. by apply singleton_sublist_l.
  - apply elem_of_cons in Hin as [->|Hin]; [congruence|].
    apply sublist_cons. by apply IH.
Qed.

(** the sort is stable: of two elements of which the first has no smaller
    key, the first stays in front *)
Lemma sort_desc_stable x y l :
  [x; y] `sublist_of` l → le y.1 x.1 = true → [x; y] `sublist_of` sort_desc le l.
Proof.
  induction l as [|a l IH]; simpl; intros Hsub Hle; [by inversion Hsub|].
  inversion Hsub as [| ? ? ? Hy | ? ? ? Hxy]; subst.
  - apply insert_desc_before; [|done].
    rewrite sort_desc_perm. by apply singleton_sublist_l.
  - etrans; [by apply IH|]. apply insert_desc_sublist.
Qed.
End Ranking.

Lemma sort_desc_ranking {K A} (le : K → K → bool) (keys : list K) (l : list A) :
  (∀ a b, le a b = false → le b a = true) →
  is_ranking le keys l (sort_desc le (zip keys l)).
Proof.
  intros Htotal. split; [apply sort_desc_perm|]. split.
  - by apply sort_desc_sorted.
  - intros x y. apply sort_desc_stable.
Qed.

Lemma take_min_length {A} (l : list A) n : take (length l `min` n) l = take n l.
Proof.
  destruct (decide (n ≤ length l)%nat) as [Hle|Hgt].
  - by rewrite Nat.min_r.
  - rewrite Nat.min_l by lia. rewrite !take_ge; [done|lia|lia].
Qed.

Lemma string_leb_total a b : String.leb a b = false → String.leb b a = true.
Proof. intros Hf. by destruct (String.leb_total a b) as [?|?]; [congruence|]. Qed.

(** ** Trees *)

Lemma uncapped_branch children_map p kids :
  uncapped children_map (Branch (LNode p) kids)
  ↔ root_label <$> kids = LNode <$> dict_get (Node.id p) children_map
    ∧ Forall (uncapped children_map) kids.
Proof.
  simpl. apply and_iff_compat_l.
  induction kids as [|kid kids IH]; [by split; [constructor|]|].
  rewrite Forall_cons, IH. done.
Qed.

Lemma nonempty_false {A} (l : list A) : nonempty l = false ↔ l = [].
Proof. by destruct l. Qed.

Lemma mapM_labels (f : Node.t → option Tree) children_map nodes kids :
  (∀ n t, f n = Some t → root_label t = LNode n ∧ uncapped children_map t) →
  mapM f nodes = Some kids →
  root_label <$> kids = LNode <$> nodes ∧ Forall (uncapped children_map) kids.
Proof.
  intros Hf Hkids. apply mapM_Some in Hkids.
  induction Hkids as [|child kid l kids' Hkid _ [IH1 IH2]]; [done|].
  apply Hf in Hkid as [Hlabel Hun]. split.
  - by rewrite !fmap_cons, Hlabel, IH1.
  - by constructor.
Qed.

Lemma add_node_to_tree_uncapped fuel node children_map tree :
  add_node_to_tree fuel node children_map = Some tree →
  root_label tree = LNode node ∧ uncapped children_map tree.
Proof.
  revert node tree. induction fuel as [|fuel IH]; intros node tree; [done|].
  simpl. destruct (nonempty _) eqn:Hne.
  - destruct (mapM _ _) as [kids|] eqn:Hkids; [|done]. simpl.
    intros [= <-]. split; [done|]. apply uncapped_branch.
    by apply (mapM_labels _ _ _ _ IH).
  - intros [= <-]. split; [done|]. simpl. by apply nonempty_false.
Qed.

Lemma add_node_to_tree_labels fuel children_map (nodes : list Node.t) kids :
  mapM (λ child, add_node_to_tree fuel child children_map) nodes = Some kids →
  root_label <$> kids = LNode <$> nodes ∧ Forall (uncapped children_map) kids.
Proof.
  apply mapM_labels. intros n t. apply add_node_to_tree_uncapped.
Qed.

Lemma NoDup_fmap_eq {A B} (f : A → B) (l : list A) x y :
  NoDup (f <$> l) → x ∈ l → y ∈ l → f x = f y → x = y.
Proof.
  induction l as [|a l IH]; simpl; intros Hnd Hx Hy Hf; [by apply elem_of_nil in Hx|].
  apply NoDup_cons in Hnd as [Ha Hnd].
  apply elem_of_cons in Hx as [->|Hx]; apply elem_of_cons in Hy as [->|Hy]; [done| | |by apply IH].
  - exfalso. apply Ha. rewrite Hf. by apply list_elem_of_fmap_2.
  - exfalso. apply Ha. rewrite <- Hf. by apply list_elem_of_fmap_2.
Qed.

Section Capping.
Context `{rt : Runtime}.
Implicit Types (cfg : V2Config) (children : list Node.t) (t : nat).

Lemma select_children_run cfg children t :
  select_children cfg children t
  = (filter (λ c, Node.id c ∈ (list_to_set (Node.id <$> top_newest cfg children) : gset string)
                            ∪ list_to_set (Node.id <$> (top_accessed cfg children t).1))
            children,
     (top_accessed cfg children t).2).
Proof.
  unfold select_children, top_accessed, top_newest, bind, ret.
  by destruct (sorted_reverseM _ _ _ t).
Qed.

Lemma top_newest_subseteq cfg children : top_newest cfg children ⊆ children.
Proof.
  unfold top_newest. etrans; [apply slice_to_subseteq|].
  intros x. by rewrite sorted_reverse_perm.
Qed.

Lemma top_accessed_subseteq cfg children t : (top_accessed cfg children t).1 ⊆ children.
Proof.
  unfold top_accessed, bind, ret.
  pose proof (sorted_reverseM_perm float_le weighted_access_score
                (filter (λ c, 0 < Node.access_count c) children) t) as Hperm.
  destruct (sorted_reverseM _ _ _ t) as [l t']. simpl in *.
  etrans; [apply slice_to_subseteq|]. intros x. rewrite Hperm.
  rewrite list_elem_of_filter. tauto.
Qed.

(** with unique ids among the children, the selection by id is the union
    of the two top lists *)
Lemma select_children_union cfg children t c :
  NoDup (Node.id <$> children) →
  c ∈ (select_children cfg children t).1
  ↔ c ∈ top_newest cfg children ∨ c ∈ (top_accessed cfg children t).1.
Proof.
  intros Hnd. rewrite select_children_run. simpl.
  rewrite list_elem_of_filter, elem_of_union, !elem_of_list_to_set, !list_elem_of_fmap.
  split.
  - intros [[(c' & Hid & Hc')|(c' & Hid & Hc')] Hc].
    + left. assert (c = c') as ->; [|done].
      eapply NoDup_fmap_eq; eauto. by apply top_newest_subseteq in Hc'.
    + right. assert (c = c') as ->; [|done].
      eapply NoDup_fmap_eq; eauto. by apply top_accessed_subseteq in Hc'.
  - intros [Hc|Hc].
    + split; [left; by exists c|]. by apply top_newest_subseteq in Hc.
    + split; [right; by exists c|]. by apply top_accessed_subseteq in Hc.
Qed.

Lemma visible_children_sublist v2_config children t :
  (visible_children v2_config children t).1 `sublist_of` children.
Proof.
  unfold visible_children. destruct (caps v2_config children) as [cfg|]; [|done].
  rewrite select_children_run. simpl. apply sublist_filter.
Qed.

Lemma add_entry_to_tree_run fuel entry children_map v2_mode v2_config t :
  let children := dict_get (Entry.id entry) children_map in
  let visible := (visible_children v2_config children t).1 in
  let hidden := Z.of_nat (length children) - Z.of_nat (length visible) in
  add_entry_to_tree fuel entry children_map v2_mode v2_config t
  = (if nonempty visible then
       kids ← mapM (λ child, add_node_to_tree fuel child children_map) visible;
       Some (Branch (LEntry entry v2_mode)
               (kids ++ if 0 <? hidden
                        then [Leaf (LMore hidden (Entry.id entry))] else []))
     else Some (Leaf (LEntry entry v2_mode)),
     (visible_children v2_config children t).2).
Proof.
  intros children visible hidden. unfold add_entry_to_tree, bind.
  fold children. subst visible hidden. unfold visible_children.
  destruct (caps v2_config children) as [cfg|].
  - unfold bind. destruct (select_children cfg children t) as [sel t']. simpl.
    unfold ret. by destruct (nonempty sel).
  - unfold ret. simpl. rewrite Z.sub_diag. by destruct (nonempty children).
Qed.
End Capping.

(** ** Congruences *)

Lemma mapM_ext_in {A B} (f g : A → option B) (l : list A) :
  (∀ x, x ∈ l → f x = g x) → mapM f l = mapM g l.
Proof.
  induction l as [|a l IH]; intros Hfg; [done|]. simpl.
  rewrite Hfg by left. destruct (g a); simpl; [|done].
  rewrite IH; [done|]. intros x Hx. apply Hfg. by right.
Qed.

Lemma foldl_ext_in {A B} (f g : B → A → B) (l : list A) b :
  (∀ b x, x ∈ l → f b x = g b x) → foldl f b l = foldl g b l.
Proof.
  revert b. induction l as [|a l IH]; intros b Hfg; [done|]. simpl.
  rewrite Hfg by left. apply IH. intros b' x Hx. apply Hfg. by right.
Qed.

Lemma mapE_ext_in {A B} (f g : A → Clocked (option B)) (l : list A) t :
  (∀ x t, x ∈ l → f x t = g x t) → mapE f l t = mapE g l t.
Proof.
  revert t. induction l as [|a l IH]; intros t Hfg; [done|]. simpl. unfold bindE.
  rewrite Hfg by left. destruct (g a t) as [[y|] t1]; [|done].
  rewrite IH; [done|]. intros x t' Hx. apply Hfg. by right.
Qed.

Lemma foldlC_ext_in {A B} (f g : B → A → Clocked B) (l : list A) b t :
  (∀ b x t, x ∈ l → f b x t = g b x t) → foldlC f b l t = foldlC g b l t.
Proof.
  revert b t. induction l as [|a l IH]; intros b t Hfg; [done|].
  rewrite !foldlC_cons, Hfg by left. destruct (g b a t) as [b' t'].
  apply IH. intros b'' x t'' Hx. apply Hfg. by right.
Qed.

(** ** Token sums *)

Lemma foldl_add_sum {A} (f : A → nat) (l : list A) (a : nat) :
  foldl (λ total x, total + f x)%nat a l = (a + sum_list_with f l)%nat.
Proof.
  revert a. induction l as [|x l IH]; intros a; simpl; [lia|]. rewrite IH. lia.
Qed.

Lemma count_all_tokens_sum active obsolete (children_map : list (string * list Node.t)) :
  count_all_tokens active obsolete children_map
  = (sum_list_with entry_tokens (active ++ obsolete)
     + sum_list_with node_tokens (concat children_map.*2))%nat.
Proof.
  unfold count_all_tokens. rewrite (foldl_add_sum entry_tokens). simpl.
  generalize (sum_list_with entry_tokens (active ++ obsolete)).
  induction (children_map.*2) as [|nodes l IH]; intros a; simpl; [lia|].
  rewrite (foldl_add_sum node_tokens), IH, sum_list_with_app. lia.
Qed.

(** [count_all_tokens] on what [load_all_data] returns: every record body
    and every node content, once *)
Lemma count_all_tokens_load rows all_nodes :
  count_all_tokens (load_all_data rows all_nodes).1.1 (load_all_data rows all_nodes).1.2
                   (load_all_data rows all_nodes).2
  = (sum_list_with entry_tokens rows + sum_list_with node_tokens all_nodes)%nat.
Proof.
  rewrite count_all_tokens_sum. simpl. f_equal.
  - rewrite sum_list_with_app.
    induction rows as [|r rows IH]; [done|].
    rewrite !filter_cons. simpl.
    destruct (decide (Entry.obsolete r = 0)); destruct (decide (Entry.obsolete r ≠ 0));
      simpl; try lia; congruence.
  - by rewrite group_by_values.
Qed.

(** ** Two children maps that agree away from one key *)

Lemma set_promoted_id b e : Entry.id (Entry.set_promoted b e) = Entry.id e.
Proof. done. Qed.

Lemma count_all_tokens_promoted (f : Entry.t → bool) active obsolete
    (children_map : list (string * list Node.t)) :
  count_all_tokens ((λ r, Entry.set_promoted (f r) r) <$> active) obsolete children_map
  = count_all_tokens active obsolete children_map.
Proof.
  rewrite !count_all_tokens_sum, !sum_list_with_app. do 2 f_equal.
  induction active as [|e active IH]; [done|]. rewrite fmap_cons. simpl. by rewrite IH.
Qed.

Section Agreement.
Context `{rt : Runtime}.
Variables (cm1 cm2 : list (string * list Node.t)) (bad : string).
Hypothesis agree : ∀ k, k ≠ bad → dict_get k cm1 = dict_get k cm2.
Hypothesis ids_ok : ∀ k n, n ∈ dict_get k cm2 → Node.id n ≠ bad.

Lemma add_node_to_tree_agree fuel node :
  Node.id node ≠ bad →
  add_node_to_tree fuel node cm1 = add_node_to_tree fuel node cm2.
Proof.
  revert node. induction fuel as [|fuel IH]; intros node Hnode; [done|]. simpl.
  rewrite agree by done. destruct (nonempty _); [|done].
  erewrite mapM_ext_in; [done|]. intros c Hc. apply IH. by eapply ids_ok.
Qed.

Lemma _count_subtree_tokens_agree fuel nodes :
  (∀ n, n ∈ nodes → Node.id n ≠ bad) →
  _count_subtree_tokens fuel nodes cm1 = _count_subtree_tokens fuel nodes cm2.
Proof.
  revert nodes. induction fuel as [|fuel IH]; intros nodes Hnodes; [done|]. simpl.
  apply foldl_ext_in. intros total n Hn. destruct total as [total|]; [|done]. simpl.
  rewrite agree by auto. destruct (nonempty _); [|done].
  rewrite IH; [done|]. intros c Hc. by eapply ids_ok.
Qed.

Lemma add_entry_to_tree_agree fuel entry v2_mode v2_config t :
  Entry.id entry ≠ bad →
  add_entry_to_tree fuel entry cm1 v2_mode v2_config t
  = add_entry_to_tree fuel entry cm2 v2_mode v2_config t.
Proof.
  intros Hentry. rewrite !add_entry_to_tree_run. simpl. rewrite agree by done.
  pose proof (visible_children_sublist v2_config
                (dict_get (Entry.id entry) cm2) t) as Hsub.
  destruct (nonempty _); [|done].
  erewrite mapM_ext_in; [done|]. intros c Hc. apply add_node_to_tree_agree.
  eapply ids_ok, sublist_subseteq; eauto.
Qed.

Lemma count_shown_tokens_agree fuel shown v2_config t :
  (∀ e, e ∈ shown → Entry.id e ≠ bad) →
  count_shown_tokens fuel shown cm1 v2_config t
  = count_shown_tokens fuel shown cm2 v2_config t.
Proof.
  intros Hshown. unfold count_shown_tokens. apply foldlC_ext_in.
  intros total e t' He. destruct total as [total|]; [|done].
  rewrite agree by auto.
  change (match caps v2_config ?c with
          | Some cfg => select_children cfg ?c
          | None => ret ?c
          end) with (visible_children v2_config c).
  pose proof (visible_children_sublist v2_config (dict_get (Entry.id e) cm2) t') as Hsub.
  unfold bind. destruct (visible_children _ _ t') as [vis t'']. simpl in Hsub.
  rewrite _count_subtree_tokens_agree; [done|].
  intros c Hc. eapply ids_ok, sublist_subseteq; eauto.
Qed.

Lemma add_groups_agree fuel groups group_label v2_mode v2_config t :
  (∀ k e, e ∈ dict_get k groups → Entry.id e ≠ bad) →
  add_groups fuel groups group_label cm1 v2_mode v2_config t
  = add_groups fuel groups group_label cm2 v2_mode v2_config t.
Proof.
  intros Hgroups. unfold add_groups. apply mapE_ext_in. intros k t' _.
  unfold bindE. erewrite mapE_ext_in; [done|].
  intros e t'' He. apply add_entry_to_tree_agree. by eapply Hgroups.
Qed.

Lemma group_by_prefix_ids (l : list Entry.t) k e :
  (∀ e, e ∈ l → Entry.id e ≠ bad) →
  e ∈ dict_get k (group_by Entry.prefix l) → Entry.id e ≠ bad.
Proof.
  intros Hl. rewrite dict_get_group_by, list_elem_of_filter. intros [_ He]. auto.
Qed.

Lemma _build_full_tree_agree fuel agent active obsolete prefix_labels t :
  (∀ e, e ∈ active ++ obsolete → Entry.id e ≠ bad) →
  _build_full_tree fuel agent active obsolete prefix_labels cm1 t
  = ((with_total_tok (count_all_tokens active obsolete cm1)
        <$> (_build_full_tree fuel agent active obsolete prefix_labels cm2 t).1),
     (_build_full_tree fuel agent active obsolete prefix_labels cm2 t).2).
Proof.
  intros Hids. unfold _build_full_tree, bind.
  destruct (sorted_reverseM _ _ _ t) as [by_access t1].
  rewrite !count_all_tokens_promoted.
  set (active' := _ <$> active).
  assert (Hactive' : ∀ e, e ∈ active' → Entry.id e ≠ bad).
  { intros e (e0 & -> & He0)%list_elem_of_fmap. rewrite set_promoted_id.
    apply Hids, elem_of_app. by left. }
  rewrite !bindE_run, add_groups_agree by (intros k e; by apply group_by_prefix_ids).
  destruct (add_groups _ _ _ cm2 _ _ t1) as [[group_nodes|] t2]; [|done].
  rewrite !bindE_run. destruct (nonempty obsolete); [|done].
  rewrite !bindE_run.
  rewrite (mapE_ext_in _ (λ entry, add_entry_to_tree fuel entry cm2 false None)).
  - by destruct (mapE _ obsolete t2) as [[kids|] t3].
  - intros e t' He. apply add_entry_to_tree_agree, Hids, elem_of_app. by right.
Qed.
Lemma _build_v2_tree_agree fuel agent active obsolete prefix_labels v2_config t :
  (∀ e, e ∈ active ++ obsolete → Entry.id e ≠ bad) →
  _build_v2_tree fuel agent active obsolete prefix_labels cm1 v2_config t
  = ((with_total_tok (count_all_tokens active obsolete cm1)
        <$> (_build_v2_tree fuel agent active obsolete prefix_labels cm2 v2_config t).1),
     (_build_v2_tree fuel agent active obsolete prefix_labels cm2 v2_config t).2).
Proof.
  intros Hids. unfold _build_v2_tree. rewrite !bind_run.
  pose proof (compute_v2_selection_obsolete active obsolete v2_config t) as Hobs.
  unfold visibleObsolete, result_of in Hobs.
  destruct (compute_v2_selection active obsolete v2_config t)
    as [[[expanded_ids promoted_ids] visible_obsolete] t1].
  simpl in Hobs. simpl.
  rewrite !count_all_tokens_promoted.
  set (active' := _ <$> active).
  assert (Hactive' : ∀ e, e ∈ active' → Entry.id e ≠ bad).
  { intros e (e0 & -> & He0)%list_elem_of_fmap. rewrite set_promoted_id.
    apply Hids, elem_of_app. by left. }
  set (v2_active := filter _ active').
  assert (Hv2 : ∀ e, e ∈ v2_active → Entry.id e ≠ bad).
  { intros e [_ He]%list_elem_of_filter. auto. }
  assert (Hvo : ∀ e, e ∈ visible_obsolete → Entry.id e ≠ bad).
  { intros e He. apply Hids, elem_of_app. right. by apply Hobs. }
  rewrite !bindE_run, count_shown_tokens_agree
    by (intros e [?|?]%elem_of_app; auto).
  destruct (count_shown_tokens _ _ cm2 _ t1) as [[shown_tok|] t2]; [|done].
  rewrite !bindE_run, add_groups_agree by (intros k e; by apply group_by_prefix_ids).
  destruct (add_groups _ _ _ cm2 _ _ t2) as [[group_nodes|] t3]; [|done].
  rewrite !bindE_run. destruct (nonempty visible_obsolete); [|done].
  rewrite !bindE_run.
  rewrite (mapE_ext_in _ (λ entry, add_entry_to_tree fuel entry cm2 true (Some v2_config))).
  - by destruct (mapE _ _ t3) as [[kids|] t4].
  - intros e t' (e0 & -> & He0)%list_elem_of_fmap.
    apply add_entry_to_tree_agree. rewrite set_promoted_id. auto.
Qed.
End Agreement.

(** ** Nodes that hang from nothing *)

Lemma dangling_agree rows l1 o l2 :
  dangling rows (l1 ++ l2) o →
  (∀ k, k ≠ Node.parent_id o →
        dict_get k (group_by Node.parent_id (l1 ++ o :: l2))
        = dict_get k (group_by Node.parent_id (l1 ++ l2)))
  ∧ (∀ k n, n ∈ dict_get k (group_by Node.parent_id (l1 ++ l2)) →
            Node.id n ≠ Node.parent_id o).
Proof.
  intros [_ Hnodes]. split.
  - intros k Hk. rewrite !dict_get_group_by, !filter_app, filter_cons.
    by rewrite decide_False by congruence.
  - intros k n. rewrite dict_get_group_by, list_elem_of_filter. intros [_ Hn] Heq.
    apply Hnodes. rewrite <- Heq. by apply list_elem_of_fmap_2.
Qed.

Lemma rebuild_tree_dangling `{rt : Runtime}
    fuel agent v2_mode prefix_labels cfg rows l1 o l2 t :
  dangling rows (l1 ++ l2) o →
  rebuild_tree fuel agent v2_mode prefix_labels cfg rows (l1 ++ o :: l2) t
  = ((with_total_tok
        (sum_list_with entry_tokens rows + sum_list_with node_tokens (l1 ++ o :: l2))
        <$> (rebuild_tree fuel agent v2_mode prefix_labels cfg rows (l1 ++ l2) t).1),
     (rebuild_tree fuel agent v2_mode prefix_labels cfg rows (l1 ++ l2) t).2).
Proof.
  intros Hd. destruct (dangling_agree rows l1 o l2 Hd) as [Hagree Hids].
  rewrite <- (count_all_tokens_load rows (l1 ++ o :: l2)).
  unfold rebuild_tree, load_all_data. simpl.
  assert (Hrows : ∀ e, e ∈ filter (λ r, Entry.obsolete r = 0) rows
                        ++ filter (λ r, Entry.obsolete r ≠ 0) rows →
                       Entry.id e ≠ Node.parent_id o).
  { intros e He Heq. apply (proj1 Hd). rewrite <- Heq. apply list_elem_of_fmap_2.
    apply elem_of_app in He as [[_ ?]%list_elem_of_filter|[_ ?]%list_elem_of_filter]; done. }
  destruct (negb _ && negb _); [done|]. destruct v2_mode.
  - by apply _build_v2_tree_agree with (bad := Node.parent_id o).
  - by apply _build_full_tree_agree with (bad := Node.parent_id o).
Qed.

(** ** What a tree displays *)

Lemma mapE_Some_Forall {A B} (f : A → Clocked (option B)) (P : B → Prop) l t ys t' :
  (∀ x t y t', x ∈ l → f x t = (Some y, t') → P y) →
  mapE f l t = (Some ys, t') → Forall P ys.
Proof.
  revert t ys. induction l as [|a l IH]; intros t ys Hf; simpl.
  - by intros [= <- _].
  - rewrite bindE_run. destruct (f a t) as [[y|] t1] eqn:Hfa; [|done].
    rewrite bindE_run. destruct (mapE f l t1) as [[ys'|] t2] eqn:Hrest; [|done].
    intros [= <- <-]. constructor.
    + eapply Hf; [|done]. by left.
    + eapply IH; [|done]. intros x t0 y0 t0' Hx. apply Hf. by right.
Qed.

Section Displayed.
Context `{rt : Runtime}.
Variables (children_map : list (string * list Node.t)) (bad : string).
Hypothesis ids_ok : ∀ k n, n ∈ dict_get k children_map → Node.id n ≠ bad.
Hypothesis parents_ok : ∀ k n, n ∈ dict_get k children_map → Node.parent_id n = k.

Lemma add_node_to_tree_label_ok fuel node tree :
  Node.id node ≠ bad → Node.parent_id node ≠ bad →
  add_node_to_tree fuel node children_map = Some tree →
  Forall (label_ok bad) (tree_labels tree).
Proof.
  revert node tree. induction fuel as [|fuel IH]; intros node tree Hid Hpar; [done|].
  simpl. destruct (nonempty _).
  - destruct (mapM _ _) as [kids|] eqn:Hkids; [|done]. simpl. intros [= <-].
    simpl. constructor; [exact Hpar|]. apply Forall_flat_map.
    apply mapM_Some in Hkids.
    assert (Hch : Forall (λ c, Node.id c ≠ bad ∧ Node.parent_id c ≠ bad)
                    (dict_get (Node.id node) children_map)).
    { apply Forall_forall. intros c Hc. split; [by eapply ids_ok|].
      by rewrite (parents_ok _ _ Hc). }
    revert Hch. induction Hkids as [|c kid l kids' Hkid _ IHk]; [done|].
    intros [[? ?] ?]%Forall_cons. constructor; [by eapply IH|by apply IHk].
  - intros [= <-]. simpl. constructor; [exact Hpar|constructor].
Qed.

Lemma add_entry_to_tree_label_ok fuel entry v2_mode v2_config t tree t' :
  Entry.id entry ≠ bad →
  add_entry_to_tree fuel entry children_map v2_mode v2_config t = (Some tree, t') →
  Forall (label_ok bad) (tree_labels tree).
Proof.
  intros Hid. rewrite add_entry_to_tree_run. simpl.
  pose proof (visible_children_sublist v2_config
                (dict_get (Entry.id entry) children_map) t) as Hsub.
  destruct (nonempty _); [|by intros [= <- _]; repeat constructor].
  destruct (mapM _ _) as [kids|] eqn:Hkids; [|done]. simpl. intros [= <- _].
  simpl. constructor; [done|]. rewrite flat_map_app. apply Forall_app. split.
  - apply Forall_flat_map. apply mapM_Some in Hkids.
    assert (Hch : Forall (λ c, Node.id c ≠ bad ∧ Node.parent_id c ≠ bad)
                    (visible_children v2_config
                       (dict_get (Entry.id entry) children_map) t).1).
    { apply Forall_forall. intros c Hc. eapply sublist_subseteq in Hc; [|done].
      split; [by eapply ids_ok|]. by rewrite (parents_ok _ _ Hc). }
    clear Hsub. revert Hch. induction Hkids as [|c kid l kids' Hkid _ IHk]; [done|].
    intros [[? ?] ?]%Forall_cons.
    constructor; [by eapply add_node_to_tree_label_ok|by apply IHk].
  - destruct (0 <? _); simpl; by repeat constructor.
Qed.

Lemma add_entries_label_ok fuel (entries : list Entry.t) v2_mode v2_config t kids t' :
  (∀ e, e ∈ entries → Entry.id e ≠ bad) →
  mapE (λ entry, add_entry_to_tree fuel entry children_map v2_mode v2_config) entries t
  = (Some kids, t') →
  Forall (label_ok bad) (flat_map tree_labels kids).
Proof.
  intros Hids Hrun. apply Forall_flat_map.
  eapply mapE_Some_Forall; [|exact Hrun]. simpl.
  intros e t0 tree t0' He. apply add_entry_to_tree_label_ok. auto.
Qed.

Lemma add_groups_label_ok fuel groups group_label v2_mode v2_config t trees t' :
  (∀ k e, e ∈ dict_get k groups → Entry.id e ≠ bad) →
  (∀ k es, (label_ok bad) (group_label k es)) →
  add_groups fuel groups group_label children_map v2_mode v2_config t = (Some trees, t') →
  Forall (label_ok bad) (flat_map tree_labels trees).
Proof.
  intros Hgroups Hlabel Hrun. apply Forall_flat_map.
  eapply mapE_Some_Forall; [|exact Hrun]. simpl.
  intros k t0 tree t0' _. rewrite bindE_run.
  destruct (mapE _ _ t0) as [[kids|] t1] eqn:Hkids; [|done].
  intros [= <- _]. simpl. constructor; [apply Hlabel|].
  eapply add_entries_label_ok; [|exact Hkids]. intros e. apply Hgroups.
Qed.
Lemma _build_full_tree_label_ok fuel agent active obsolete prefix_labels t tree t' :
  (∀ e, e ∈ active ++ obsolete → Entry.id e ≠ bad) →
  _build_full_tree fuel agent active obsolete prefix_labels children_map t
  = (Some tree, t') →
  Forall (label_ok bad) (tree_labels tree).
Proof.
  intros Hids. unfold _build_full_tree. rewrite bind_run.
  set (active' := _ <$> active).
  assert (Hactive' : ∀ e, e ∈ active' → Entry.id e ≠ bad).
  { intros e (e0 & -> & He0)%list_elem_of_fmap. rewrite set_promoted_id.
    apply Hids, elem_of_app. by left. }
  rewrite bindE_run.
  destruct (add_groups _ _ _ _ _ _ _) as [[group_nodes|] t2] eqn:Hgroups; [|done].
  apply add_groups_label_ok in Hgroups;
    [|intros k e [_ ?]%(proj1 (dict_get_in_group_by _ _ _ _)); auto|done].
  rewrite bindE_run. destruct (nonempty obsolete).
  - rewrite bindE_run. destruct (mapE _ obsolete t2) as [[kids|] t3] eqn:Hkids; [|done].
    apply add_entries_label_ok in Hkids;
      [|intros e He; apply Hids, elem_of_app; by right].
    intros [= <- _]. simpl. constructor; [done|].
    rewrite flat_map_app. apply Forall_app. split; [done|]. simpl.
    rewrite app_nil_r. by constructor.
  - intros [= <- _]. simpl. constructor; [done|]. by rewrite app_nil_r.
Qed.

Lemma _build_v2_tree_label_ok fuel agent active obsolete prefix_labels v2_config t tree t' :
  (∀ e, e ∈ active ++ obsolete → Entry.id e ≠ bad) →
  _build_v2_tree fuel agent active obsolete prefix_labels children_map v2_config t
  = (Some tree, t') →
  Forall (label_ok bad) (tree_labels tree).
Proof.
  intros Hids. unfold _build_v2_tree. rewrite bind_run.
  pose proof (compute_v2_selection_obsolete active obsolete v2_config t) as Hobs.
  unfold visibleObsolete, result_of in Hobs.
  destruct (compute_v2_selection active obsolete v2_config t)
    as [[[expanded_ids promoted_ids] visible_obsolete] t1].
  simpl in Hobs. simpl.
  set (active' := _ <$> active).
  assert (Hactive' : ∀ e, e ∈ active' → Entry.id e ≠ bad).
  { intros e (e0 & -> & He0)%list_elem_of_fmap. rewrite set_promoted_id.
    apply Hids, elem_of_app. by left. }
  rewrite bindE_run. destruct (count_shown_tokens _ _ _ _ t1) as [[shown_tok|] t2]; [|done].
  rewrite bindE_run.
  destruct (add_groups _ _ _ _ _ _ _) as [[group_nodes|] t3] eqn:Hgroups; [|done].
  apply add_groups_label_ok in Hgroups; [| |done].
  2:{ intros k e [_ [_ ?]%list_elem_of_filter]%(proj1 (dict_get_in_group_by _ _ _ _)).
      auto. }
  rewrite bindE_run. destruct (nonempty visible_obsolete).
  - rewrite bindE_run. destruct (mapE _ _ t3) as [[kids|] t4] eqn:Hkids; [|done].
    apply add_entries_label_ok in Hkids.
    2:{ intros e (e0 & -> & He0)%list_elem_of_fmap. rewrite set_promoted_id.
        apply Hids, elem_of_app. right. by apply Hobs. }
    intros [= <- _]. simpl. constructor; [done|].
    rewrite flat_map_app. apply Forall_app. split; [done|]. simpl.
    rewrite app_nil_r. by constructor.
  - intros [= <- _]. simpl. constructor; [done|]. by rewrite app_nil_r.
Qed.
End Displayed.

Lemma rebuild_tree_label_ok `{rt : Runtime}
    fuel agent v2_mode prefix_labels cfg rows nodes bad t tree t' :
  bad ∉ Entry.id <$> rows → bad ∉ Node.id <$> nodes →
  rebuild_tree fuel agent v2_mode prefix_labels cfg rows nodes t = (Some tree, t') →
  Forall (label_ok bad) (tree_labels tree).
Proof.
  intros Hrows Hnodes. unfold rebuild_tree, load_all_data. simpl.
  assert (Hids : ∀ k n, n ∈ dict_get k (group_by Node.parent_id nodes) → Node.id n ≠ bad).
  { intros k n [_ Hn]%dict_get_in_group_by Heq. apply Hnodes. rewrite <- Heq.
    by apply list_elem_of_fmap_2. }
  assert (Hpar : ∀ k n, n ∈ dict_get k (group_by Node.parent_id nodes) →
                        Node.parent_id n = k).
  { by intros k n [? _]%dict_get_in_group_by. }
  assert (Hents : ∀ e, e ∈ filter (λ r, Entry.obsolete r = 0) rows
                        ++ filter (λ r, Entry.obsolete r ≠ 0) rows →
                       Entry.id e ≠ bad).
  { intros e He Heq. apply Hrows. rewrite <- Heq. apply list_elem_of_fmap_2.
    apply elem_of_app in He as [[_ ?]%list_elem_of_filter|[_ ?]%list_elem_of_filter]; done. }
  destruct (negb _ && negb _).
  - intros [= <- _]. simpl. by repeat constructor.
  - destruct v2_mode.
    + by apply _build_v2_tree_label_ok.
    + by apply _build_full_tree_label_ok.
Qed.

Lemma tree_labels_with_total_tok (P : Label → Prop) total tree :
  Forall P (tree_labels tree) →
  (∀ agent a b c d, P (LRootFull agent a b c) → P (LRootFull agent a b d)) →
  (∀ agent a b c d e, P (LRootV2 agent a b c d) → P (LRootV2 agent a b c e)) →
  Forall P (tree_labels (with_total_tok total tree)).
Proof.
  intros Hall Hfull Hv2. destruct tree as [l|l kids]; [done|].
  destruct l; try done; simpl in *; apply Forall_cons in Hall as [Hl Hkids];
    constructor; eauto.
Qed.

(** ** Forests *)

Lemma sum_list_with_submseteq {A} (f : A → nat) (l k : list A) :
  l ⊆+ k → (sum_list_with f l ≤ sum_list_with f k)%nat.
Proof. induction 1; simpl; lia. Qed.

Lemma subtree_nodes_app fuel l1 l2 children_map :
  subtree_nodes fuel (l1 ++ l2) children_map
  = subtree_nodes fuel l1 children_map ++ subtree_nodes fuel l2 children_map.
Proof. destruct fuel; [done|]. simpl. apply bind_app. Qed.

Lemma subtree_nodes_cons fuel n l children_map :
  subtree_nodes (S fuel) (n :: l) children_map
  = n :: subtree_nodes fuel (dict_get (Node.id n) children_map) children_map
      ++ subtree_nodes (S fuel) l children_map.
Proof. done. Qed.

Lemma _count_subtree_tokens_S fuel nodes children_map :
  _count_subtree_tokens (S fuel) nodes children_map
  = foldl (count_step fuel children_map) (Some 0%nat) nodes.
Proof. done. Qed.

Lemma subtree_nodes_nil fuel children_map : subtree_nodes fuel [] children_map = [].
Proof. by destruct fuel. Qed.

Lemma foldl_count_step fuel children_map nodes acc :
  (∀ n, n ∈ nodes →
        dict_get (Node.id n) children_map = []
        ∨ _count_subtree_tokens fuel (dict_get (Node.id n) children_map) children_map
          = Some (sum_list_with node_tokens
                    (subtree_nodes fuel (dict_get (Node.id n) children_map)
                       children_map))) →
  foldl (count_step fuel children_map) (Some acc) nodes
  = Some (acc + sum_list_with node_tokens (subtree_nodes (S fuel) nodes children_map))%nat.
Proof.
  revert acc. induction nodes as [|n nodes IH]; intros acc Hnodes.
  - simpl. f_equal. lia.
  - rewrite subtree_nodes_cons. cbn [foldl sum_list_with]. rewrite sum_list_with_app.
    assert (count_step fuel children_map (Some acc) n
            = Some (acc + node_tokens n
                    + sum_list_with node_tokens
                        (subtree_nodes fuel (dict_get (Node.id n) children_map)
                           children_map))%nat) as ->.
    { unfold count_step. cbn [mbind option_bind].
      destruct (Hnodes n) as [Hnil|Hsome]; [by left| |].
      - rewrite Hnil, subtree_nodes_nil. simpl. unfold node_tokens. f_equal. lia.
      - destruct (dict_get (Node.id n) children_map) as [|c cs] eqn:Hch.
        + rewrite subtree_nodes_nil. simpl. unfold node_tokens. f_equal. lia.
        + cbn [nonempty]. rewrite Hsome. done. }
    rewrite IH by (intros n' Hn'; apply Hnodes; by right).
    f_equal. lia.
Qed.

Section Forest.
Variables (rows : list Entry.t) (all_nodes : list Node.t).
Hypothesis wf : forest rows all_nodes.
Let cm := group_by Node.parent_id all_nodes.

Lemma children_in k n : n ∈ dict_get k cm → Node.parent_id n = k ∧ n ∈ all_nodes.
Proof. apply dict_get_in_group_by. Qed.

Lemma node_eq a b : a ∈ all_nodes → b ∈ all_nodes → Node.id a = Node.id b → a = b.
Proof. apply NoDup_fmap_eq, (forest_node_ids _ _ wf). Qed.

(** enough fuel: the count is the sum over the visited nodes *)
Lemma _count_subtree_tokens_Some fuel bound nodes :
  (0 < fuel)%nat →
  (∀ n, n ∈ all_nodes → Node.depth n ≤ bound) →
  (∀ n, n ∈ nodes → n ∈ all_nodes ∧ bound < Node.depth n + Z.of_nat fuel) →
  _count_subtree_tokens fuel nodes cm
  = Some (sum_list_with node_tokens (subtree_nodes fuel nodes cm)).
Proof.
  intros Hfuel Hbound. revert nodes Hfuel.
  induction fuel as [|fuel IH]; intros nodes Hfuel Hnodes; [lia|].
  rewrite _count_subtree_tokens_S.
  rewrite (foldl_count_step fuel cm nodes 0%nat); [done|].
  intros n Hn. destruct (Hnodes n Hn) as [Hin Hdepth].
  destruct (dict_get (Node.id n) cm) as [|c cs] eqn:Hch; [by left|right].
  rewrite <- Hch. apply IH.
  - assert (Hc : c ∈ dict_get (Node.id n) cm) by (rewrite Hch; by left).
    apply children_in in Hc as [Hpar Hc]. pose proof (Hbound c Hc).
    rewrite (forest_node_depth _ _ wf c n) in * by done. lia.
  - intros c' Hc'. apply children_in in Hc' as [Hpar Hc'].
    split; [done|]. rewrite (forest_node_depth _ _ wf c' n) by done. lia.
Qed.
Lemma subtree_nodes_level fuel ns :
  subtree_nodes (S fuel) ns cm
  ≡ₚ ns ++ subtree_nodes fuel (ns ≫= λ n, dict_get (Node.id n) cm) cm.
Proof.
  induction ns as [|n ns IH]; [simpl; by rewrite subtree_nodes_nil|].
  rewrite subtree_nodes_cons, IH, bind_cons, subtree_nodes_app. simpl. f_equiv.
  rewrite !app_assoc. f_equiv. apply Permutation_app_comm.
Qed.

Lemma subtree_nodes_in fuel d ns n :
  (∀ n, n ∈ ns → n ∈ all_nodes ∧ d ≤ Node.depth n) →
  n ∈ subtree_nodes fuel ns cm → n ∈ all_nodes ∧ d ≤ Node.depth n.
Proof.
  revert d ns n. induction fuel as [|fuel IH]; intros d ns n Hns; simpl.
  - by intros ?%elem_of_nil.
  - intros (p & Hn & Hp)%list_elem_of_bind. destruct (Hns p Hp) as [Hin Hd].
    apply elem_of_cons in Hn as [->|Hn]; [done|].
    apply (IH (d + 1)) in Hn as [? ?]; [split; [done|lia]|].
    intros c [Hpar Hc]%children_in. split; [done|].
    rewrite (forest_node_depth _ _ wf c p) by done. lia.
Qed.

Lemma children_NoDup (ks : list string) :
  NoDup ks → NoDup (Node.id <$> (ks ≫= λ k, dict_get k cm)).
Proof.
  induction 1 as [|k ks Hk Hks IH]; [constructor|].
  rewrite bind_cons, fmap_app. apply NoDup_app. split; [|split; [|done]].
  - eapply sublist_NoDup; [apply (forest_node_ids _ _ wf)|].
    unfold cm. rewrite dict_get_group_by.
    apply fmap_sublist, sublist_filter.
  - intros x (c & -> & [Hpar Hc]%children_in)%list_elem_of_fmap
             (c' & Heq & (k' & [Hpar' Hc']%children_in & Hk')%list_elem_of_bind)%list_elem_of_fmap.
    apply node_eq in Heq; [|done..]. subst c'. congruence.
Qed.

Lemma subtree_nodes_NoDup fuel d ns :
  (∀ n, n ∈ ns → n ∈ all_nodes ∧ Node.depth n = d) →
  NoDup (Node.id <$> ns) →
  NoDup (Node.id <$> subtree_nodes fuel ns cm).
Proof.
  revert d ns. induction fuel as [|fuel IH]; intros d ns Hns Hnd; [constructor|].
  rewrite subtree_nodes_level, fmap_app.
  assert (Hnext : ∀ c, c ∈ ns ≫= (λ n, dict_get (Node.id n) cm) →
                       c ∈ all_nodes ∧ Node.depth c = d + 1).
  { intros c (p & [Hpar Hc]%children_in & Hp)%list_elem_of_bind.
    destruct (Hns p Hp) as [Hin <-]. split; [done|].
    by apply (forest_node_depth _ _ wf). }
  apply NoDup_app. split; [done|]. split.
  - intros x (a & -> & Ha)%list_elem_of_fmap (b & Heq & Hb)%list_elem_of_fmap.
    apply (subtree_nodes_in _ (d + 1)) in Hb as [Hb Hdepth].
    + destruct (Hns a Ha) as [Hin Hda]. apply node_eq in Heq; [|done..]. subst b. lia.
    + intros c Hc. destruct (Hnext c Hc). split; [done|lia].
  - apply (IH (d + 1)); [done|].
    replace (ns ≫= λ n, dict_get (Node.id n) cm)
      with ((Node.id <$> ns) ≫= λ k, dict_get k cm) by apply list_fmap_bind.
    by apply children_NoDup.
Qed.
End Forest.

(** ** Shown tokens on a forest *)

Lemma count_shown_tokens_fold `{rt : Runtime} fuel shown children_map v2_config :
  count_shown_tokens fuel shown children_map v2_config
  = foldlC (shown_step fuel children_map v2_config) (Some 0%nat) shown.
Proof. done. Qed.

Lemma counted_nodes_cons `{rt : Runtime} fuel e shown children_map v2_config t :
  counted_nodes fuel (e :: shown) children_map v2_config t
  = let v := visible_children v2_config (dict_get (Entry.id e) children_map) t in
    let r := counted_nodes fuel shown children_map v2_config v.2 in
    (subtree_nodes fuel v.1 children_map ++ r.1, r.2).
Proof.
  unfold counted_nodes. rewrite !bind_run. simpl mapC. rewrite !bind_run.
  unfold ret. simpl. by rewrite subtree_nodes_app.
Qed.

Lemma counted_nodes_top `{rt : Runtime} fuel shown children_map v2_config t :
  ∃ top, (counted_nodes fuel shown children_map v2_config t).1
         = subtree_nodes fuel top children_map
         ∧ top `sublist_of` (shown ≫= λ e, dict_get (Entry.id e) children_map).
Proof.
  unfold counted_nodes. rewrite bind_run. unfold ret. simpl.
  eexists. split; [done|]. revert t.
  induction shown as [|e shown IH]; intros t; [done|].
  simpl mapC. rewrite !bind_run. unfold ret. cbn [fst snd concat]. rewrite bind_cons.
  apply sublist_app; [apply visible_children_sublist|apply IH].
Qed.

Section ShownTokens.
Context `{rt : Runtime}.
Variables (rows : list Entry.t) (all_nodes : list Node.t) (fuel : nat).
Hypothesis wf : forest rows all_nodes.
Hypothesis deep : deep_enough fuel all_nodes.
Let cm := group_by Node.parent_id all_nodes.

Lemma root_children e n :
  Entry.id e ∈ Entry.id <$> rows → n ∈ dict_get (Entry.id e) cm →
  n ∈ all_nodes ∧ Node.depth n = 2.
Proof.
  intros (e' & Heq & He')%list_elem_of_fmap [Hpar Hn]%dict_get_in_group_by.
  split; [done|]. apply (forest_root_depth _ _ wf n e'); [done..|congruence].
Qed.

Lemma count_shown_tokens_forest v2_config shown acc t :
  (∀ e, e ∈ shown → Entry.id e ∈ Entry.id <$> rows) →
  foldlC (shown_step fuel cm v2_config) (Some acc) shown t
  = (Some (acc + sum_list_with entry_tokens shown
           + sum_list_with node_tokens (counted_nodes fuel shown cm v2_config t).1)%nat,
     (counted_nodes fuel shown cm v2_config t).2).
Proof.
  revert acc t. induction shown as [|e shown IH]; intros acc t Hshown.
  - unfold counted_nodes. rewrite bind_run. cbn [foldlC mapC ret fst snd concat].
    rewrite subtree_nodes_nil. simpl. do 2 f_equal. lia.
  - rewrite foldlC_cons, counted_nodes_cons. unfold shown_step at 1.
    rewrite bind_run. unfold ret at 1.
    pose proof (visible_children_sublist v2_config (dict_get (Entry.id e) cm) t) as Hsub.
    destruct (visible_children v2_config (dict_get (Entry.id e) cm) t) as [vis t1].
    simpl in Hsub. cbn [fst snd].
    rewrite (_count_subtree_tokens_Some rows all_nodes wf fuel (Z.of_nat fuel)).
    + cbn [mbind option_bind]. rewrite IH by (intros; apply Hshown; by right).
      cbn [fst snd sum_list_with]. rewrite sum_list_with_app.
      unfold entry_tokens at 2. subst cm. do 2 f_equal. lia.
    + apply deep.
    + apply deep.
    + intros n Hn. eapply sublist_subseteq in Hn; [|done].
      apply root_children in Hn as [Hin Hdepth]; [|apply Hshown; by left].
      split; [done|]. destruct deep. lia.
Qed.

Lemma counted_nodes_forest v2_config shown t :
  (∀ e, e ∈ shown → Entry.id e ∈ Entry.id <$> rows) →
  NoDup (Entry.id <$> shown) →
  NoDup (counted_nodes fuel shown cm v2_config t).1
  ∧ (counted_nodes fuel shown cm v2_config t).1 ⊆ all_nodes.
Proof.
  intros Hshown Hnd.
  destruct (counted_nodes_top fuel shown cm v2_config t) as (top & -> & Hsub).
  assert (Htop : ∀ n, n ∈ top → n ∈ all_nodes ∧ Node.depth n = 2).
  { intros n Hn. eapply sublist_subseteq in Hn; [|done].
    apply list_elem_of_bind in Hn as (e & Hn & He). eapply root_children; eauto. }
  split.
  - eapply NoDup_fmap_1, (subtree_nodes_NoDup rows all_nodes wf _ 2); [done|].
    eapply sublist_NoDup; [|by apply fmap_sublist].
    replace (shown ≫= λ e, dict_get (Entry.id e) cm)
      with ((Entry.id <$> shown) ≫= λ k, dict_get k cm) by apply list_fmap_bind.
    by apply (children_NoDup rows all_nodes wf).
  - intros n Hn. eapply (subtree_nodes_in rows all_nodes wf _ 2) in Hn; [apply Hn|].
    intros c Hc. destruct (Htop c Hc). split; [done|lia].
Qed.
End ShownTokens.

(** ** Accounting *)

Lemma sum_bounded {A} (f : A → nat) (l k : list A) :
  NoDup l → l ⊆ k →
  (sum_list_with f l ≤ sum_list_with f k)%nat
  ∧ ∀ x, x ∈ k → x ∉ l → (sum_list_with f l + f x ≤ sum_list_with f k)%nat.
Proof.
  intros Hnd Hsub. split.
  - by apply sum_list_with_submseteq, NoDup_submseteq.
  - intros x Hx Hnot.
    assert (x :: l ⊆+ k) as Hle.
    { apply NoDup_submseteq; [by constructor|].
      intros y [->|Hy]%elem_of_cons; auto. }
    apply (sum_list_with_submseteq f) in Hle. simpl in Hle. lia.
Qed.

Lemma filter_marked (b : Entry.t → bool) (X : gset string) (l : list Entry.t) :
  filter (λ e, Entry.id e ∈ X) ((λ r, Entry.set_promoted (b r) r) <$> l)
  = (λ r, Entry.set_promoted (b r) r) <$> filter (λ e, Entry.id e ∈ X) l.
Proof.
  induction l as [|r l IH]; [done|].
  rewrite fmap_cons, !filter_cons, set_promoted_id.
  case_decide; [rewrite fmap_cons|]; by rewrite IH.
Qed.

Lemma marked_tokens (b : Entry.t → bool) (l : list Entry.t) :
  sum_list_with entry_tokens ((λ r, Entry.set_promoted (b r) r) <$> l)
  = sum_list_with entry_tokens l.
Proof. induction l as [|r l IH]; [done|]. rewrite fmap_cons. simpl. by rewrite IH. Qed.

Lemma marked_ids (b : Entry.t → bool) (l : list Entry.t) :
  Entry.id <$> ((λ r, Entry.set_promoted (b r) r) <$> l) = Entry.id <$> l.
Proof. rewrite <- list_fmap_compose. by apply list_fmap_ext. Qed.

Lemma compute_v2_selection_obsolete_NoDup `{rt : Runtime} active obsolete cfg t :
  NoDup obsolete →
  NoDup (visibleObsolete (result_of (compute_v2_selection active obsolete cfg) t)).
Proof.
  intros Hnd. unfold result_of, compute_v2_selection. rewrite !bind_run. simpl.
  destruct (foldlC _ _ _ t) as [[exp prom] t1]. simpl.
  rewrite bind_run. unfold visibleObsolete, ret. simpl.
  eapply sublist_NoDup; [|apply slice_to_sublist].
  by rewrite sorted_reverseM_perm.
Qed.

Section Accounting.
Context `{rt : Runtime}.

(** the two token figures of the budgeted view, as [_build_v2_tree]
    computes them *)
Lemma shown_tokens_accounting fuel rows all_nodes cfg t :
  forest rows all_nodes → deep_enough fuel all_nodes →
  let data := load_all_data rows all_nodes in
  let sel := compute_v2_selection data.1.1 data.1.2 cfg t in
  let marked :=
    (λ r, Entry.set_promoted (bool_decide (Entry.id r ∈ promotedIds sel.1)) r)
      <$> data.1.1 in
  let shown :=
    filter (λ e, Entry.id e ∈ visibleIds sel.1) marked ++ visibleObsolete sel.1 in
  let counted := result_of (counted_nodes fuel shown data.2 (Some cfg)) sel.2 in
  let total_tok := count_all_tokens marked data.1.2 data.2 in
  ∃ shown_tok,
    result_of (count_shown_tokens fuel shown data.2 (Some cfg)) sel.2 = Some shown_tok
    ∧ (shown_tok ≤ total_tok)%nat
    ∧ (∀ e, e ∈ rows → Entry.id e ∉ Entry.id <$> shown →
            (shown_tok + entry_tokens e ≤ total_tok)%nat)
    ∧ (∀ n, n ∈ all_nodes → n ∉ counted →
            (shown_tok + node_tokens n ≤ total_tok)%nat).
Proof.
  intros wf deep data sel marked shown counted total_tok.
  assert (Hrows : NoDup rows) by (eapply NoDup_fmap_1, wf).
  set (active := filter (λ r, Entry.obsolete r = 0) rows) in *.
  set (obsolete := filter (λ r, Entry.obsolete r ≠ 0) rows) in *.
  assert (Hvo_sub : visibleObsolete sel.1 ⊆ obsolete)
    by apply compute_v2_selection_obsolete.
  assert (Hvo_nd : NoDup (visibleObsolete sel.1)).
  { apply compute_v2_selection_obsolete_NoDup. by apply NoDup_filter. }
  set (shown0 := filter (λ e, Entry.id e ∈ visibleIds sel.1) active
                 ++ visibleObsolete sel.1).
  assert (Hshown0_sub : shown0 ⊆ rows).
  { intros e [[_ [_ ?]%list_elem_of_filter]%list_elem_of_filter
             |[_ ?]%Hvo_sub%list_elem_of_filter]%elem_of_app; done. }
  assert (Hshown0_nd : NoDup shown0).
  { apply NoDup_app. split; [by do 2 apply NoDup_filter|]. split; [|done].
    intros e [_ [Hact _]%list_elem_of_filter]%list_elem_of_filter
             [Hobs _]%Hvo_sub%list_elem_of_filter. done. }
  assert (Hids : Entry.id <$> shown = Entry.id <$> shown0).
  { subst shown shown0 marked. simpl.
    by rewrite !fmap_app, filter_marked, marked_ids. }
  assert (Htok : sum_list_with entry_tokens shown = sum_list_with entry_tokens shown0).
  { subst shown shown0 marked. simpl.
    by rewrite !sum_list_with_app, filter_marked, marked_tokens. }
  assert (Hshown_rows : ∀ e, e ∈ shown → Entry.id e ∈ Entry.id <$> rows).
  { intros e He. apply (list_elem_of_fmap_2 Entry.id) in He. rewrite Hids in He.
    apply list_elem_of_fmap in He as (e0 & -> & He0).
    by apply list_elem_of_fmap_2, Hshown0_sub. }
  assert (Hshown_nd : NoDup (Entry.id <$> shown)).
  { rewrite Hids. apply NoDup_fmap_2_strong; [|done].
    intros x y Hx Hy. apply (NoDup_fmap_eq Entry.id rows); [apply wf|auto..]. }
  destruct (counted_nodes_forest rows all_nodes fuel wf (Some cfg) shown sel.2
              Hshown_rows Hshown_nd) as [Hcounted_nd Hcounted_sub].
  assert (Htotal : total_tok
                   = (sum_list_with entry_tokens rows
                      + sum_list_with node_tokens all_nodes)%nat).
  { subst total_tok marked. rewrite count_all_tokens_promoted.
    apply count_all_tokens_load. }
  destruct (sum_bounded entry_tokens shown0 rows Hshown0_nd Hshown0_sub)
    as [Hentries Hhidden_entry].
  destruct (sum_bounded node_tokens counted all_nodes Hcounted_nd Hcounted_sub)
    as [Hnodes Hhidden_node].
  unfold counted, result_of, data in *. cbn [load_all_data snd] in *.
  eexists. split; [|split; [|split]].
  - rewrite count_shown_tokens_fold.
    by rewrite (count_shown_tokens_forest rows all_nodes fuel wf deep).
  - rewrite Htotal, Htok. lia.
  - intros e He Hnot. rewrite Htotal, Htok.
    assert (e ∉ shown0) as Hnot0.
    { intros Hin. apply Hnot. rewrite Hids. by apply list_elem_of_fmap_2. }
    specialize (Hhidden_entry e He Hnot0). lia.
  - intros n Hn Hnot. rewrite Htotal, Htok.
    specialize (Hhidden_node n Hn Hnot). lia.
Qed.
End Accounting.

(** ** The views of a forest are built without error *)

Lemma mapE_is_Some {A B} (f : A → Clocked (option B)) (l : list A) t :
  (∀ x t, x ∈ l → is_Some (f x t).1) → is_Some (mapE f l t).1.
Proof.
  revert t. induction l as [|a l IH]; intros t Hf; [by eexists|].
  simpl. rewrite bindE_run. destruct (Hf a t) as [y Hy]; [by left|].
  destruct (f a t) as [r t1]. simpl in Hy. subst r.
  rewrite bindE_run. destruct (IH t1) as [ys Hys]; [intros; apply Hf; by right|].
  destruct (mapE f l t1) as [r t2]. simpl in Hys. subst r. by eexists.
Qed.

Section Returns.
Context `{rt : Runtime}.
Variables (rows : list Entry.t) (all_nodes : list Node.t) (fuel : nat).
Hypothesis wf : forest rows all_nodes.
Hypothesis deep : deep_enough fuel all_nodes.
Let cm := group_by Node.parent_id all_nodes.

Lemma add_node_to_tree_is_Some fuel' n :
  n ∈ all_nodes → Z.of_nat fuel < Node.depth n + Z.of_nat fuel' →
  is_Some (add_node_to_tree fuel' n cm).
Proof.
  revert n. induction fuel' as [|fuel' IH]; intros n Hn Hdepth.
  - destruct deep as [_ Hdeep]. specialize (Hdeep n Hn). lia.
  - simpl. destruct (nonempty _); [|by eexists].
    destruct (mapM_is_Some_2 (λ child, add_node_to_tree fuel' child cm)
                (dict_get (Node.id n) cm)) as [kids ->]; [|by eexists].
    apply Forall_forall. intros c [Hpar Hc]%dict_get_in_group_by. apply IH; [done|].
    rewrite (forest_node_depth _ _ wf c n) by done. lia.
Qed.

Lemma add_entry_to_tree_is_Some e v2_mode v2_config t :
  Entry.id e ∈ Entry.id <$> rows →
  is_Some (add_entry_to_tree fuel e cm v2_mode v2_config t).1.
Proof.
  intros He. rewrite add_entry_to_tree_run. simpl.
  pose proof (visible_children_sublist v2_config (dict_get (Entry.id e) cm) t) as Hsub.
  destruct (nonempty _); [|by eexists].
  destruct (mapM_is_Some_2 (λ child, add_node_to_tree fuel child cm)
              (visible_children v2_config (dict_get (Entry.id e) cm) t).1)
    as [kids ->]; [|by eexists].
  apply Forall_forall. intros c Hc. eapply sublist_subseteq in Hc; [|done].
  apply (root_children rows all_nodes wf) in Hc as [Hin Hdepth]; [|done].
  apply add_node_to_tree_is_Some; [done|lia].
Qed.

Lemma add_entries_is_Some (entries : list Entry.t) v2_mode v2_config t :
  (∀ e, e ∈ entries → Entry.id e ∈ Entry.id <$> rows) →
  is_Some (mapE (λ entry, add_entry_to_tree fuel entry cm v2_mode v2_config)
                entries t).1.
Proof.
  intros Hents. apply mapE_is_Some. intros e t' He.
  by apply add_entry_to_tree_is_Some, Hents.
Qed.

Lemma add_groups_is_Some groups group_label v2_mode v2_config t :
  (∀ k e, e ∈ dict_get k groups → Entry.id e ∈ Entry.id <$> rows) →
  is_Some (add_groups fuel groups group_label cm v2_mode v2_config t).1.
Proof.
  intros Hgroups. apply mapE_is_Some. intros k t' _. rewrite bindE_run.
  destruct (add_entries_is_Some (dict_get k groups) v2_mode v2_config t')
    as [kids Hkids]; [apply Hgroups|].
  destruct (mapE _ _ t') as [r t1]. simpl in Hkids. subst r. by eexists.
Qed.
Lemma _build_full_tree_is_Some agent active obsolete prefix_labels t :
  (∀ e, e ∈ active ++ obsolete → Entry.id e ∈ Entry.id <$> rows) →
  is_Some (_build_full_tree fuel agent active obsolete prefix_labels cm t).1.
Proof.
  intros Hids. unfold _build_full_tree. rewrite bind_run.
  set (active' := _ <$> active).
  assert (Hactive' : ∀ e, e ∈ active' → Entry.id e ∈ Entry.id <$> rows).
  { intros e (e0 & -> & He0)%list_elem_of_fmap. rewrite set_promoted_id.
    apply Hids, elem_of_app. by left. }
  rewrite bindE_run.
  match goal with
  | |- context [add_groups ?f ?g ?l ?c ?m ?v ?t] =>
      destruct (add_groups_is_Some g l m v t) as [group_nodes Hgroups];
        [|destruct (add_groups f g l c m v t) as [r t2]; simpl in Hgroups; subst r]
  end.
  { intros k e [_ ?]%dict_get_in_group_by. auto. }
  rewrite bindE_run. destruct (nonempty obsolete); [|by eexists].
  rewrite bindE_run.
  destruct (add_entries_is_Some obsolete false None t2) as [kids Hkids].
  { intros e He. apply Hids, elem_of_app. by right. }
  destruct (mapE _ obsolete t2) as [r t3]. simpl in Hkids. subst r. by eexists.
Qed.

Lemma _build_v2_tree_root agent active obsolete prefix_labels cfg t :
  (∀ e, e ∈ active ++ obsolete → Entry.id e ∈ Entry.id <$> rows) →
  let sel := compute_v2_selection active obsolete cfg t in
  let marked :=
    (λ r, Entry.set_promoted (bool_decide (Entry.id r ∈ promotedIds sel.1)) r)
      <$> active in
  let v2_active := filter (λ e, Entry.id e ∈ visibleIds sel.1) marked in
  ∀ shown_tok,
    (count_shown_tokens fuel (v2_active ++ visibleObsolete sel.1) cm (Some cfg) sel.2).1
    = Some shown_tok →
    ∃ kids,
      (_build_v2_tree fuel agent active obsolete prefix_labels cm cfg t).1
      = Some (Branch
                (LRootV2 agent
                   (length v2_active + length (visibleObsolete sel.1))
                   (length marked + length obsolete)
                   shown_tok (count_all_tokens marked obsolete cm))
                kids).
Proof.
  intros Hids sel marked v2_active shown_tok.
  unfold _build_v2_tree. rewrite bind_run.
  pose proof (compute_v2_selection_obsolete active obsolete cfg t) as Hobs.
  unfold visibleObsolete, visibleIds, promotedIds, result_of in *.
  subst v2_active marked sel.
  destruct (compute_v2_selection active obsolete cfg t)
    as [[[expanded_ids promoted_ids] visible_obsolete] t1].
  cbn [fst snd] in *.
  set (marked := _ <$> active).
  assert (Hmarked : ∀ e, e ∈ marked → Entry.id e ∈ Entry.id <$> rows).
  { intros e (e0 & -> & He0)%list_elem_of_fmap. rewrite set_promoted_id.
    apply Hids, elem_of_app. by left. }
  intros Hcount. rewrite bindE_run.
  destruct (count_shown_tokens _ _ _ _ t1) as [r t2]. simpl in Hcount. subst r.
  rewrite bindE_run.
  match goal with
  | |- context [add_groups ?f ?g ?l ?c ?m ?v ?t] =>
      destruct (add_groups_is_Some g l m v t) as [group_nodes Hgroups];
        [|destruct (add_groups f g l c m v t) as [r t3]; simpl in Hgroups; subst r]
  end.
  { intros k e [_ [_ ?]%list_elem_of_filter]%dict_get_in_group_by. auto. }
  rewrite bindE_run. destruct (nonempty visible_obsolete); [|by eexists].
  rewrite bindE_run.
  destruct (add_entries_is_Some (Entry.set_promoted false <$> visible_obsolete)
              true (Some cfg) t3) as [kids Hkids].
  { intros e (e0 & -> & He0)%list_elem_of_fmap. rewrite set_promoted_id.
    apply Hids, elem_of_app. right. by apply Hobs. }
  destruct (mapE _ _ t3) as [r t4]. simpl in Hkids. subst r. by eexists.
Qed.
End Returns.

Lemma rows_nonempty (rows : list Entry.t) :
  rows ≠ [] →
  negb (nonempty (filter (λ r, Entry.obsolete r = 0) rows))
  && negb (nonempty (filter (λ r, Entry.obsolete r ≠ 0) rows)) = false.
Proof.
  destruct rows as [|r rows]; [done|]. intros _. rewrite !filter_cons.
  destruct (decide (Entry.obsolete r = 0)) as [Heq|Hne].
  - done.
  - rewrite decide_True by done. simpl. apply andb_false_r.
Qed.

Lemma rows_ids_in (rows : list Entry.t) e :
  e ∈ filter (λ r, Entry.obsolete r = 0) rows ++ filter (λ r, Entry.obsolete r ≠ 0) rows →
  Entry.id e ∈ Entry.id <$> rows.
Proof.
  intros [[_ ?]%list_elem_of_filter|[_ ?]%list_elem_of_filter]%elem_of_app;
    by apply list_elem_of_fmap_2.
Qed.

(** on a forest, with a stack deep enough, both views are built *)
Lemma rebuild_tree_is_Some `{rt : Runtime}
    fuel agent v2_mode prefix_labels cfg rows all_nodes t :
  forest rows all_nodes → deep_enough fuel all_nodes →
  is_Some (result_of (rebuild_tree fuel agent v2_mode prefix_labels cfg rows all_nodes) t).
Proof.
  intros wf deep. unfold result_of, rebuild_tree, load_all_data. simpl.
  destruct (negb _ && negb _); [by eexists|]. destruct v2_mode.
  - destruct (shown_tokens_accounting fuel rows all_nodes cfg t wf deep)
      as (shown_tok & Hcount & _).
    destruct (_build_v2_tree_root rows all_nodes fuel wf deep agent
                _ _ prefix_labels cfg t (rows_ids_in rows) shown_tok Hcount)
      as [kids ->].
    by eexists.
  - apply (_build_full_tree_is_Some rows all_nodes fuel wf deep). apply rows_ids_in.
Qed.

Lemma forest_intro rows all_nodes :
  NoDup (Entry.id <$> rows) →
  NoDup (Node.id <$> all_nodes) →
  Forall (λ n, Forall (λ e, Node.parent_id n = Entry.id e → Node.depth n = 2) rows)
         all_nodes →
  Forall (λ n, Forall (λ p, Node.parent_id n = Node.id p →
                            Node.depth n = Node.depth p + 1) all_nodes)
         all_nodes →
  forest rows all_nodes.
Proof.
  intros Hrows Hnodes Hroot Hdepth. split; [done..| |].
  - intros n e Hn He. eapply Forall_forall in Hroot; [|exact Hn].
    eapply Forall_forall in Hroot; [|exact He]. done.
  - intros n p Hn Hp. eapply Forall_forall in Hdepth; [|exact Hn].
    eapply Forall_forall in Hdepth; [|exact Hp]. done.
Qed.

Lemma deep_enough_intro fuel all_nodes :
  (0 < fuel)%nat → Forall (λ n, Node.depth n ≤ Z.of_nat fuel) all_nodes →
  deep_enough fuel all_nodes.
Proof. intros Hfuel Hall. split; [done|]. by apply Forall_forall. Qed.

(** ** The clock *)

Section Clock.
Context `{rt : Runtime}.

Lemma same_readings_shift t1 t2 k :
  same_readings t1 t2 → same_readings (t1 + k) (t2 + k).
Proof. intros Hsame i. rewrite <- !Nat.add_assoc. apply Hsame. Qed.

Lemma steady_ret {A} (a : A) : steady (ret a).
Proof. intros t1 t2 _. split; [done|]. exists 0%nat. simpl. lia. Qed.

Lemma steady_bind {A B} (m : Clocked A) (k : A → Clocked B) :
  steady m → (∀ a, steady (k a)) → steady (bind m k).
Proof.
  intros Hm Hk t1 t2 Hsame. rewrite !bind_run.
  destruct (Hm t1 t2 Hsame) as (Heq & n & H1 & H2). rewrite Heq, H1, H2.
  destruct (Hk (m t2).1 (t1 + n)%nat (t2 + n)%nat) as (Heq' & n' & H1' & H2');
    [by apply same_readings_shift|].
  split; [done|]. exists (n + n')%nat. rewrite H1', H2'. lia.
Qed.




Lemma steady_foldlC {A B} (f : B → A → Clocked B) (l : list A) b :
  (∀ b x, steady (f b x)) → steady (foldlC f b l).
Proof.
  intros Hf. revert b. induction l as [|x l IH]; intros b; simpl; [apply steady_ret|].
  apply steady_bind; [done|]. intros b'. apply IH.
Qed.


End Clock.

(** ** Two runs that read the same times *)

Section Local.
Context `{rt : Runtime}.

Lemma local_ret {A} (a : A) : local (ret a).
Proof.
  intros t1 t2. unfold readings. simpl. split; [done|]. intros _. split; [done|lia].
Qed.

Lemma local_bind {A B} (m : Clocked A) (k : A → Clocked B) :
  local m → (∀ a, local (k a)) → local (bind m k).
Proof.
  intros Hm Hk t1 t2. unfold readings. rewrite !bind_run.
  destruct (Hm t1 t2) as [Hle1 Hrun1]. unfold readings in Hrun1.
  destruct (Hk (m t1).1 (m t1).2 (t2 + ((m t1).2 - t1))%nat) as [Hle2 Hrun2].
  unfold readings in Hrun2.
  split; [lia|]. intros Hsame.
  destruct Hrun1 as [Heq1 Hend1].
  { intros i Hi. apply Hsame. lia. }
  destruct Hrun2 as [Heq2 Hend2].
  { intros i Hi.
    replace ((m t1).2 + i)%nat with (t1 + ((m t1).2 - t1 + i))%nat by lia.
    rewrite <- Nat.add_assoc. apply Hsame. lia. }
  rewrite <- Heq1, Hend1. split; [done|]. rewrite Hend2. lia.
Qed.

Lemma local_datetime_now : local datetime_now.
Proof.
  intros t1 t2. unfold readings, datetime_now. simpl. split; [lia|]. intros Hsame.
  specialize (Hsame 0%nat). rewrite !Nat.add_0_r in Hsame.
  split; [apply Hsame; lia|lia].
Qed.

Lemma local_weighted_access_score {A} `{Scorable A} (entry : A) :
  local (weighted_access_score entry).
Proof.
  unfold weighted_access_score. destruct (_ || _); [apply local_ret|].
  apply local_bind; [apply local_datetime_now|].
  intros now. destruct (try_age _ _); apply local_ret.
Qed.

Lemma local_mapC {A B} (f : A → Clocked B) (l : list A) :
  (∀ x, local (f x)) → local (mapC f l).
Proof.
  intros Hf. induction l as [|x l IH]; simpl; [apply local_ret|].
  apply local_bind; [done|]. intros y.
  apply local_bind; [done|]. intros ys. apply local_ret.
Qed.

Lemma local_foldlC {A B} (f : B → A → Clocked B) (l : list A) b :
  (∀ b x, local (f b x)) → local (foldlC f b l).
Proof.
  intros Hf. revert b. induction l as [|x l IH]; intros b; simpl; [apply local_ret|].
  apply local_bind; [done|]. intros b'. apply IH.
Qed.

Lemma local_sorted_reverseM {K A} (le : K → K → bool) (key : A → Clocked K) l :
  (∀ x, local (key x)) → local (sorted_reverseM le key l).
Proof.
  intros Hkey. unfold sorted_reverseM.
  apply local_bind; [by apply local_mapC|]. intros keys. apply local_ret.
Qed.

Lemma local_most_accessed cfg entries : local (most_accessed cfg entries).
Proof.
  unfold most_accessed. apply local_bind; [|intros; apply local_ret].
  apply local_sorted_reverseM. intros e. apply local_weighted_access_score.
Qed.

Lemma local_select_in_prefix cfg ids group : local (select_in_prefix cfg ids group).
Proof.
  unfold select_in_prefix. destruct ids as [expanded_ids promoted_ids].
  apply local_bind; [apply local_most_accessed|]. intros; apply local_ret.
Qed.

Lemma local_compute_v2_selection active obsolete cfg :
  local (compute_v2_selection active obsolete cfg).
Proof.
  unfold compute_v2_selection. apply local_bind.
  - apply local_foldlC. intros; apply local_select_in_prefix.
  - intros [expanded_ids promoted_ids]. apply local_bind; [|intros; apply local_ret].
    apply local_sorted_reverseM. intros e. apply local_weighted_access_score.
Qed.
End Local.

(** ** Scoring a dictionary as it comes *)

Section RawScoreFacts.
Context `{rt : Runtime} (float_of_str : string → option Float).


End RawScoreFacts.

(** ** Further lemmas *)

(** ** Dictionaries, continued *)

Section DictKeys.
Context {K V : Type} `{EqDecision K}.
Implicit Types (d : list (K * list V)) (f : V → K).

Lemma dict_append_keys k v d :
  (dict_append k v d).*1 = if decide (k ∈ d.*1) then d.*1 else d.*1 ++ [k].
Proof.
  induction d as [|[k' vs] d IH]; [done|].
  cbn [dict_append]. destruct (decide (k = k')) as [->|Hne]; rewrite !fmap_cons; cbn [fst].
  - rewrite decide_True; [done|]. apply elem_of_cons. by left.
  - rewrite IH. destruct (decide (k ∈ d.*1)) as [Hin|Hnin].
    + rewrite decide_True; [done|]. apply elem_of_cons. by right.
    + rewrite decide_False; [done|]. by intros [?|?]%elem_of_cons.
Qed.

Lemma group_by_keys_NoDup f l : NoDup (group_by f l).*1.
Proof.
  induction l as [|x l IH] using rev_ind; [constructor|].
  rewrite group_by_snoc, dict_append_keys.
  destruct (decide _) as [Hin|Hnin]; [done|].
  apply NoDup_app. split; [done|]. split; [|apply NoDup_singleton].
  intros y Hy ->%list_elem_of_singleton. done.
Qed.

Lemma group_by_keys f l k : k ∈ (group_by f l).*1 ↔ k ∈ f <$> l.
Proof.
  induction l as [|x l IH] using rev_ind; [done|].
  rewrite group_by_snoc, dict_append_keys, fmap_app, elem_of_app. simpl.
  rewrite list_elem_of_singleton.
  destruct (decide _) as [Hin|Hnin].
  - rewrite IH. split; [by left|]. intros [?| ->]; [done|]. by apply IH.
  - by rewrite elem_of_app, IH, list_elem_of_singleton.
Qed.

Lemma dict_get_elem k vs d : NoDup d.*1 → (k, vs) ∈ d → dict_get k d = vs.
Proof.
  induction d as [|[k' vs'] d IH]; simpl; [by intros _ ?%elem_of_nil|].
  intros [Hnin Hnd]%NoDup_cons [[= -> ->]|Hin]%elem_of_cons.
  - by rewrite decide_True.
  - rewrite decide_False; [by apply IH|]. intros ->. apply Hnin.
    apply list_elem_of_fmap. by exists (k', vs).
Qed.

Lemma dict_elem_get k d : k ∈ d.*1 → (k, dict_get k d) ∈ d.
Proof.
  induction d as [|[k' vs'] d IH]; simpl; [by intros ?%elem_of_nil|].
  intros [->|Hin]%elem_of_cons.
  - rewrite decide_True by done. by left.
  - destruct (decide (k = k')) as [->|Hne]; [by left|]. right. by apply IH.
Qed.

Lemma group_by_elem f l k vs :
  (k, vs) ∈ group_by f l → vs = filter (λ x, f x = k) l ∧ vs ≠ [].
Proof.
  intros Hin.
  pose proof (dict_get_elem k vs _ (group_by_keys_NoDup f l) Hin) as Hget.
  rewrite dict_get_group_by in Hget. split; [done|].
  assert (Hk : k ∈ f <$> l).
  { apply group_by_keys, list_elem_of_fmap. by exists (k, vs). }
  apply list_elem_of_fmap in Hk as (x & -> & Hx). subst vs.
  intros Hnil. assert (Hx' : x ∈ filter (λ y, f y = f x) l) by by apply list_elem_of_filter.
  rewrite Hnil in Hx'. by apply elem_of_nil in Hx'.
Qed.
End DictKeys.

Lemma foldlC_invariant {A B} (P : B → Prop) (f : B → A → Clocked B) l b t :
  P b → (∀ b x t, x ∈ l → P b → P (f b x t).1) → P (foldlC f b l t).1.
Proof.
  revert b t. induction l as [|x l IH]; intros b t Hb Hstep; [done|].
  rewrite foldlC_cons. destruct (f b x t) as [b' t'] eqn:Hf.
  apply IH.
  - specialize (Hstep b x t). rewrite Hf in Hstep. apply Hstep; [by left|done].
  - intros b0 y t0 Hy. apply Hstep. by right.
Qed.

Section SelectionFacts.
Context `{rt : Runtime}.
Implicit Types (e : Entry.t) (cfg : V2Config) (t : nat).

Lemma select_in_prefix_run cfg exp prom group t :
  select_in_prefix cfg (exp, prom) group t
  = ((add_ids (add_ids exp (slice_to (topNewestCount cfg) (newest group.2)))
              (most_accessed cfg group.2 t).1,
      add_ids prom (most_accessed cfg group.2 t).1),
     (most_accessed cfg group.2 t).2).
Proof. unfold select_in_prefix, bind, ret. by destruct (most_accessed cfg group.2 t). Qed.

Lemma most_accessed_submseteq cfg entries t :
  (most_accessed cfg entries t).1 ⊆+ filter (λ e, 0 < Entry.access_count e) entries.
Proof.
  unfold most_accessed. rewrite bind_run. simpl.
  etrans; [apply sublist_submseteq, slice_to_sublist|].
  by rewrite sorted_reverseM_perm.
Qed.

Lemma most_accessed_length cfg entries t :
  0 ≤ topAccessCount cfg →
  (length (most_accessed cfg entries t).1 ≤ Z.to_nat (topAccessCount cfg))%nat.
Proof.
  intros Hcap. unfold most_accessed. rewrite bind_run. simpl.
  rewrite slice_to_length by done. lia.
Qed.

(** what the loop over the categories adds: for each category its newest
    and the most accessed of the moment *)
Lemma foldlC_select_run cfg groups exp prom t :
  ∃ accessed,
    Forall2 (λ g acc, ∃ t0, acc = (most_accessed cfg g.2 t0).1) groups accessed
    ∧ (∀ i, i ∈ (foldlC (select_in_prefix cfg) (exp, prom) groups t).1.1
            ↔ i ∈ exp
              ∨ i ∈ Entry.id <$> (groups ≫= λ g, slice_to (topNewestCount cfg) (newest g.2))
              ∨ i ∈ Entry.id <$> concat accessed)
    ∧ (∀ i, i ∈ (foldlC (select_in_prefix cfg) (exp, prom) groups t).1.2
            ↔ i ∈ prom ∨ i ∈ Entry.id <$> concat accessed).
Proof.
  revert exp prom t. induction groups as [|g groups IH]; intros exp prom t.
  - exists []. split; [constructor|]. simpl. split; intros i.
    + rewrite !elem_of_nil. tauto.
    + rewrite !elem_of_nil. tauto.
  - rewrite foldlC_cons, select_in_prefix_run.
    destruct (IH (add_ids (add_ids exp (slice_to (topNewestCount cfg) (newest g.2)))
                    (most_accessed cfg g.2 t).1)
                 (add_ids prom (most_accessed cfg g.2 t).1)
                 (most_accessed cfg g.2 t).2) as (accessed & Hall & Hexp & Hprom).
    exists ((most_accessed cfg g.2 t).1 :: accessed).
    split; [constructor; [by exists t|done]|].
    split; intros i.
    + rewrite Hexp, !elem_of_add_ids, bind_cons. simpl.
      rewrite !fmap_app, !elem_of_app. tauto.
    + rewrite Hprom, !elem_of_add_ids. simpl. rewrite fmap_app, elem_of_app. tauto.
Qed.

Lemma compute_v2_selection_run active obsolete cfg t :
  ∃ accessed,
    Forall2 (λ g acc, ∃ t0, acc = (most_accessed cfg g.2 t0).1)
            (group_by Entry.prefix active) accessed
    ∧ (∀ i, i ∈ visibleIds (result_of (compute_v2_selection active obsolete cfg) t)
            ↔ i ∈ Entry.id <$> (group_by Entry.prefix active
                                  ≫= λ g, slice_to (topNewestCount cfg) (newest g.2))
              ∨ i ∈ Entry.id <$> concat accessed
              ∨ i ∈ Entry.id <$> filter (λ e, Entry.favorite e ≠ 0) active)
    ∧ (∀ i, i ∈ promotedIds (result_of (compute_v2_selection active obsolete cfg) t)
            ↔ i ∈ Entry.id <$> concat accessed).
Proof.
  destruct (foldlC_select_run cfg (group_by Entry.prefix active) ∅ ∅ t)
    as (accessed & Hall & Hexp & Hprom).
  exists accessed. split; [done|].
  unfold result_of, compute_v2_selection. rewrite !bind_run.
  destruct (foldlC _ _ _ t) as [[exp prom] t1]. simpl in *.
  rewrite bind_run. unfold visibleIds, promotedIds, ret. simpl.
  split; intros i.
  - rewrite elem_of_add_ids, Hexp, elem_of_empty. tauto.
  - rewrite Hprom, elem_of_empty. tauto.
Qed.

Lemma group_subseteq (active : list Entry.t) g :
  g ∈ group_by Entry.prefix active → g.2 ⊆ active.
Proof.
  destruct g as [k vs]. intros [-> _]%group_by_elem. simpl.
  intros x. rewrite list_elem_of_filter. tauto.
Qed.

Lemma accessed_in_active cfg (active : list Entry.t) accessed e :
  Forall2 (λ g acc, ∃ t0, acc = (most_accessed cfg g.2 t0).1)
          (group_by Entry.prefix active) accessed →
  e ∈ concat accessed → e ∈ active ∧ 0 < Entry.access_count e.
Proof.
  intros Hall. generalize (group_subseteq active).
  induction Hall as [|g acc groups accessed [t0 ->] _ IH]; intros Hsub; simpl.
  - by intros ?%elem_of_nil.
  - rewrite elem_of_app. intros [He|He].
    + pose proof (most_accessed_submseteq cfg g.2 t0) as Hm.
      apply (elem_of_submseteq _ _ _ He), list_elem_of_filter in Hm as [Hac Hin].
      split; [|done]. apply (Hsub g); [by left|done].
    + apply IH; [|done]. intros g' Hg'. apply Hsub. by right.
Qed.
End SelectionFacts.

Lemma size_list_to_set_le (l : list string) :
  (size (list_to_set l : gset string) ≤ length l)%nat.
Proof.
  induction l as [|x l IH]; [by rewrite list_to_set_nil, size_empty|].
  rewrite list_to_set_cons, size_union_alt, size_singleton. simpl.
  assert (Hle : (size (list_to_set l ∖ {[x]} : gset string)
                 ≤ size (list_to_set l : gset string))%nat).
  { apply subseteq_size. intros i. rewrite elem_of_difference. tauto. }
  lia.
Qed.

Lemma size_ids_le (X : gset string) (l : list Entry.t) :
  (∀ i, i ∈ X → i ∈ Entry.id <$> l) → (size X ≤ length l)%nat.
Proof.
  intros Hsub. etrans; [apply (subseteq_size X (list_to_set (Entry.id <$> l)))|].
  - intros i Hi. apply elem_of_list_to_set. by apply Hsub.
  - etrans; [apply size_list_to_set_le|]. by rewrite length_fmap.
Qed.

Section SelectionTheorems.
Context `{rt : Runtime}.
Implicit Types (e : Entry.t) (cfg : V2Config) (t : nat).

Lemma accessed_length cfg (groups : list (string * list Entry.t)) accessed :
  0 ≤ topAccessCount cfg →
  Forall2 (λ g acc, ∃ t0, acc = (most_accessed cfg g.2 t0).1) groups accessed →
  (length (concat accessed) ≤ length groups * Z.to_nat (topAccessCount cfg))%nat.
Proof.
  intros Hcap Hall. induction Hall as [|g acc groups accessed [t0 ->] _ IH]; simpl; [done|].
  rewrite length_app. pose proof (most_accessed_length cfg g.2 t0 Hcap). lia.
Qed.

Lemma newest_slices_length cfg (groups : list (string * list Entry.t)) :
  0 ≤ topNewestCount cfg →
  (length (groups ≫= λ g, slice_to (topNewestCount cfg) (newest g.2))
   ≤ length groups * Z.to_nat (topNewestCount cfg))%nat.
Proof.
  intros Hcap. induction groups as [|g groups IH]; [done|].
  rewrite bind_cons, length_app, slice_to_length by done. simpl. lia.
Qed.

Lemma newest_slices_in_active cfg (active : list Entry.t) e :
  e ∈ (group_by Entry.prefix active ≫= λ g, slice_to (topNewestCount cfg) (newest g.2)) →
  e ∈ active.
Proof.
  intros (g & He & Hg)%list_elem_of_bind.
  apply (group_subseteq active g Hg).
  apply slice_to_subseteq in He. unfold newest in He.
  by rewrite sorted_reverse_perm in He.
Qed.

End SelectionTheorems.

Section SelectionMono.
Context `{rt : Runtime}.
Implicit Types (e : Entry.t) (cfg : V2Config) (t : nat).

Lemma most_accessed_mono cfg1 cfg2 entries t :
  0 ≤ topAccessCount cfg1 ≤ topAccessCount cfg2 →
  (most_accessed cfg1 entries t).1 `prefix_of` (most_accessed cfg2 entries t).1
  ∧ (most_accessed cfg1 entries t).2 = (most_accessed cfg2 entries t).2.
Proof.
  intros Hacc. unfold most_accessed. rewrite !bind_run. simpl. split; [|done].
  apply slice_to_mono; lia.
Qed.

Lemma foldlC_select_mono_acc cfg1 cfg2 groups exp1 exp2 prom1 prom2 t :
  topNewestCount cfg1 = topNewestCount cfg2 →
  0 ≤ topAccessCount cfg1 ≤ topAccessCount cfg2 →
  exp1 ⊆ exp2 → prom1 ⊆ prom2 →
  ∃ exp1' exp2' prom1' prom2' t',
    foldlC (select_in_prefix cfg1) (exp1, prom1) groups t = ((exp1', prom1'), t') ∧
    foldlC (select_in_prefix cfg2) (exp2, prom2) groups t = ((exp2', prom2'), t') ∧
    exp1' ⊆ exp2' ∧ prom1' ⊆ prom2'.
Proof.
  intros Hnew Hacc. revert exp1 exp2 prom1 prom2 t.
  induction groups as [|g groups IH]; intros exp1 exp2 prom1 prom2 t Hexp Hprom.
  - by eexists _, _, _, _, _.
  - rewrite !foldlC_cons, !select_in_prefix_run.
    destruct (most_accessed_mono cfg1 cfg2 g.2 t Hacc) as [Hpre Ht].
    rewrite Ht, Hnew. apply IH.
    + apply add_ids_mono; [by apply add_ids_mono|].
      intros x Hx. by eapply elem_of_prefix.
    + apply add_ids_mono; [done|]. intros x Hx. by eapply elem_of_prefix.
Qed.

End SelectionMono.

Lemma flat_labels_nodes fuel cm nodes kids :
  (∀ n tree, add_node_to_tree fuel n cm = Some tree →
             tree_labels tree = LNode <$> subtree_nodes fuel [n] cm) →
  mapM (λ c, add_node_to_tree fuel c cm) nodes = Some kids →
  flat_map tree_labels kids = LNode <$> subtree_nodes fuel nodes cm.
Proof.
  intros IH Hm. apply mapM_Some in Hm.
  induction Hm as [|n kid nodes kids Hkid _ IHm]; simpl.
  - by rewrite subtree_nodes_nil.
  - change (n :: nodes) with ([n] ++ nodes). rewrite subtree_nodes_app, fmap_app.
    f_equal; auto.
Qed.

Lemma add_node_to_tree_tree_labels fuel n cm tree :
  add_node_to_tree fuel n cm = Some tree →
  tree_labels tree = LNode <$> subtree_nodes fuel [n] cm.
Proof.
  revert n tree. induction fuel as [|fuel IH]; intros n tree; [done|].
  cbn [add_node_to_tree]. rewrite subtree_nodes_cons, subtree_nodes_nil, app_nil_r.
  destruct (nonempty _) eqn:Hne.
  - destruct (mapM _ _) as [kids|] eqn:Hkids; [|done]. simpl. intros [= <-].
    cbn [tree_labels]. f_equal. by apply flat_labels_nodes.
  - apply nonempty_false in Hne. rewrite Hne, subtree_nodes_nil. by intros [= <-].
Qed.

Lemma foldl_count_step_None fuel cm nodes : foldl (count_step fuel cm) None nodes = None.
Proof. by induction nodes. Qed.

Lemma foldl_count_step_Some fuel cm nodes acc k :
  foldl (count_step fuel cm) (Some acc) nodes = Some k →
  ∀ n, n ∈ nodes →
    dict_get (Node.id n) cm = []
    ∨ is_Some (_count_subtree_tokens fuel (dict_get (Node.id n) cm) cm).
Proof.
  revert acc. induction nodes as [|n nodes IH]; intros acc; cbn [foldl].
  - by intros _ ? ?%elem_of_nil.
  - destruct (count_step fuel cm (Some acc) n) as [acc'|] eqn:Hstep;
      [|by rewrite foldl_count_step_None].
    intros Hk m [->|Hm]%elem_of_cons; [|by eapply IH].
    unfold count_step in Hstep. simpl in Hstep.
    destruct (nonempty _) eqn:Hne; [|left; by apply nonempty_false].
    right. by destruct (_count_subtree_tokens _ _ _).
Qed.

Lemma _count_subtree_tokens_sum fuel nodes cm k :
  _count_subtree_tokens fuel nodes cm = Some k →
  k = sum_list_with node_tokens (subtree_nodes fuel nodes cm).
Proof.
  revert nodes k. induction fuel as [|fuel IH]; intros nodes k; [done|].
  rewrite _count_subtree_tokens_S. intros Hk.
  rewrite foldl_count_step in Hk; [by injection Hk as <-|].
  intros n Hn. destruct (foldl_count_step_Some _ _ _ _ _ Hk n Hn) as [?|[s Hs]];
    [by left|right].
  rewrite Hs. f_equal. by apply IH.
Qed.

Lemma add_node_to_tree_descent fuel n cm tree l :
  add_node_to_tree fuel n cm = Some tree → descent cm n l → (length l < fuel)%nat.
Proof.
  revert n tree l. induction fuel as [|fuel IH]; intros n tree l; [done|].
  cbn [add_node_to_tree]. intros Ht Hl.
  destruct l as [|m l]; [simpl; lia|]. destruct Hl as [Hm Hl].
  destruct (nonempty _) eqn:Hne.
  2:{ apply nonempty_false in Hne. rewrite Hne in Hm. by apply elem_of_nil in Hm. }
  destruct (mapM _ _) as [kids|] eqn:Hkids; [|done].
  apply mapM_Some in Hkids.
  apply list_elem_of_lookup in Hm as [i Hi].
  destruct (Forall2_lookup_l _ _ _ _ _ Hkids Hi) as (kid & _ & Hkid).
  apply (IH _ _ l) in Hkid; [simpl; lia|done].
Qed.

Lemma _count_subtree_tokens_descent fuel nodes cm k n l :
  _count_subtree_tokens fuel nodes cm = Some k → n ∈ nodes → descent cm n l →
  (length l < fuel)%nat.
Proof.
  revert nodes k n l. induction fuel as [|fuel IH]; intros nodes k n l; [done|].
  rewrite _count_subtree_tokens_S. intros Hk Hn Hl.
  destruct l as [|m l]; [simpl; lia|]. destruct Hl as [Hm Hl].
  destruct (foldl_count_step_Some _ _ _ _ _ Hk n Hn) as [Hnil|[s Hs]].
  - rewrite Hnil in Hm. by apply elem_of_nil in Hm.
  - apply (IH _ _ m l) in Hs; [simpl; lia|done..].
Qed.

Lemma descent_self cm n k : n ∈ dict_get (Node.id n) cm → descent cm n (replicate k n).
Proof. intros Hn. induction k; simpl; auto. Qed.

Lemma sum_list_with_fmap {A B} (f : B → nat) (g : A → B) (l : list A) :
  sum_list_with f (g <$> l) = sum_list_with (f ∘ g) l.
Proof. induction l as [|x l IH]; [done|]. rewrite fmap_cons. simpl. by rewrite IH. Qed.

Lemma mapE_Some_Forall2 {A B} (f : A → Clocked (option B)) l t ys t' :
  mapE f l t = (Some ys, t') →
  Forall2 (λ x y, ∃ t0 t1, f x t0 = (Some y, t1)) l ys.
Proof.
  revert t ys t'. induction l as [|x l IH]; intros t ys t'; simpl.
  - intros [= <- <-]. constructor.
  - rewrite bindE_run. destruct (f x t) as [[y|] t1] eqn:Hf; [|done].
    rewrite bindE_run. destruct (mapE f l t1) as [[ys'|] t2] eqn:Hm; [|done].
    intros [= <- <-]. constructor; [by exists t, t1|by eapply IH].
Qed.

Section TreeText.
Context `{rt : Runtime}.
Variables (fuel : nat) (cm : list (string * list Node.t))
          (v2_mode : bool) (v2_config : option V2Config).

Lemma add_entry_to_tree_tree_labels e t tree t' :
  add_entry_to_tree fuel e cm v2_mode v2_config t = (Some tree, t') →
  tree_labels tree = entry_tree_labels fuel cm v2_mode v2_config e t.
Proof.
  rewrite add_entry_to_tree_run. unfold entry_tree_labels. simpl.
  destruct (nonempty _) eqn:Hne.
  - destruct (mapM _ _) as [kids|] eqn:Hkids; [|done]. simpl. intros [= <- <-].
    cbn [tree_labels]. f_equal. rewrite flat_map_app. f_equal.
    + apply flat_labels_nodes; [|done]. intros n tree. apply add_node_to_tree_tree_labels.
    + by destruct (0 <? _).
  - intros [= <- <-]. apply nonempty_false in Hne. rewrite Hne, subtree_nodes_nil. done.
Qed.

Lemma add_entries_tree_labels entries t kids t' :
  mapE (λ entry, add_entry_to_tree fuel entry cm v2_mode v2_config) entries t
  = (Some kids, t') →
  entries_shape fuel cm v2_mode v2_config entries kids.
Proof.
  intros Hm%mapE_Some_Forall2. eapply Forall2_impl; [exact Hm|].
  intros e kid (t0 & t1 & Hrun). exists t0. by eapply add_entry_to_tree_tree_labels.
Qed.

Lemma entry_lines_entries entries kids :
  entries_shape fuel cm v2_mode v2_config entries kids →
  omap entry_of (flat_map tree_labels kids) = entries.
Proof.
  induction 1 as [|e kid entries kids [t0 Hkid] _ IH]; [done|].
  simpl. rewrite omap_app, IH, Hkid. unfold entry_tree_labels. simpl.
  rewrite omap_app. f_equal.
  replace (omap entry_of (LNode <$> _)) with (@nil Entry.t).
  - by destruct (_ && _).
  - generalize (subtree_nodes fuel
      (visible_children v2_config (dict_get (Entry.id e) cm) t0).1 cm).
    intros l. by induction l.
Qed.
End TreeText.

Section Shapes.
Context `{rt : Runtime}.
Variables (fuel : nat) (cm : list (string * list Node.t)).

Lemma add_groups_shape groups group_label v2_mode v2_config t trees t' :
  add_groups fuel groups group_label cm v2_mode v2_config t = (Some trees, t') →
  groups_shape fuel cm v2_mode v2_config groups group_label trees.
Proof.
  intros Hm%mapE_Some_Forall2. eapply Forall2_impl; [exact Hm|].
  intros p tree (t0 & t1 & Hrun). simpl in Hrun. rewrite bindE_run in Hrun.
  destruct (mapE _ _ t0) as [[kids|] t2] eqn:Hkids; [|done].
  injection Hrun as <- _. exists kids. split; [done|].
  by eapply add_entries_tree_labels.
Qed.

Lemma _build_v2_tree_shape agent active obsolete prefix_labels v2_config t tree t' :
  _build_v2_tree fuel agent active obsolete prefix_labels cm v2_config t = (Some tree, t') →
  let sel := compute_v2_selection active obsolete v2_config t in
  let marked :=
    (λ r, Entry.set_promoted (bool_decide (Entry.id r ∈ promotedIds sel.1)) r)
      <$> active in
  let v2_active := filter (λ e, Entry.id e ∈ visibleIds sel.1) marked in
  let visible_obsolete := visibleObsolete sel.1 in
  ∃ shown_tok t2 group_nodes obs_nodes,
    count_shown_tokens fuel (v2_active ++ visible_obsolete) cm (Some v2_config) sel.2
    = (Some shown_tok, t2)
    ∧ tree = Branch (LRootV2 agent (length v2_active + length visible_obsolete)
                       (length marked + length obsolete) shown_tok
                       (count_all_tokens marked obsolete cm))
                    (group_nodes ++ obs_nodes)
    ∧ groups_shape fuel cm true (Some v2_config) (group_by Entry.prefix v2_active)
        (λ prefix entries,
           LGroup prefix (default prefix (prefix_labels !! prefix)) (length entries)
                  (Some (length (dict_get prefix (group_by Entry.prefix marked)))))
        group_nodes
    ∧ ((visible_obsolete = [] ∧ obs_nodes = [])
       ∨ (visible_obsolete ≠ []
          ∧ ∃ kids,
              obs_nodes = [Branch (LObsolete (length visible_obsolete)
                                             (Some (length obsolete))) kids]
              ∧ entries_shape fuel cm true (Some v2_config)
                  (Entry.set_promoted false <$> visible_obsolete) kids)).
Proof.
  intros Hrun. cbv zeta. unfold _build_v2_tree in Hrun. rewrite bind_run in Hrun.
  unfold visibleIds, promotedIds, visibleObsolete.
  destruct (compute_v2_selection active obsolete v2_config t)
    as [[[expanded_ids promoted_ids] visible_obsolete] t1].
  simpl in *.
  rewrite bindE_run in Hrun.
  destruct (count_shown_tokens _ _ _ _ t1) as [[shown_tok|] t2] eqn:Hcount; [|done].
  rewrite bindE_run in Hrun.
  destruct (add_groups _ _ _ _ _ _ _) as [[group_nodes|] t3] eqn:Hgroups; [|done].
  apply add_groups_shape in Hgroups.
  rewrite bindE_run in Hrun. destruct (nonempty visible_obsolete) eqn:Hne.
  - rewrite bindE_run in Hrun.
    destruct (mapE _ _ t3) as [[kids|] t4] eqn:Hkids; [|done].
    apply add_entries_tree_labels in Hkids. injection Hrun as <- _.
    eexists shown_tok, t2, group_nodes, _. split; [done|]. split; [|split; [done|]].
    + rewrite length_fmap. reflexivity.
    + right. split; [by destruct visible_obsolete|]. rewrite length_fmap in *.
      by exists kids.
  - injection Hrun as <- _. apply nonempty_false in Hne.
    exists shown_tok, t2, group_nodes, []. split; [done|]. split; [done|].
    split; [done|]. by left.
Qed.

Lemma _build_full_tree_shape agent active obsolete prefix_labels t tree t' :
  _build_full_tree fuel agent active obsolete prefix_labels cm t = (Some tree, t') →
  let sorted_by_access :=
    (sorted_reverseM float_le weighted_access_score
       (filter (λ r, 0 < Entry.access_count r) active) t).1 in
  let promoted_ids : gset string :=
    list_to_set (Entry.id <$> slice_to 5 sorted_by_access) in
  let marked :=
    (λ r, Entry.set_promoted (bool_decide (Entry.id r ∈ promoted_ids)) r) <$> active in
  ∃ group_nodes obs_nodes,
    tree = Branch (LRootFull agent (length marked) (length obsolete)
                     (count_all_tokens marked obsolete cm))
                  (group_nodes ++ obs_nodes)
    ∧ groups_shape fuel cm false None (group_by Entry.prefix marked)
        (λ prefix entries,
           LGroup prefix (default prefix (prefix_labels !! prefix)) (length entries) None)
        group_nodes
    ∧ ((obsolete = [] ∧ obs_nodes = [])
       ∨ (obsolete ≠ []
          ∧ ∃ kids,
              obs_nodes = [Branch (LObsolete (length obsolete) None) kids]
              ∧ entries_shape fuel cm false None obsolete kids)).
Proof.
  intros Hrun. cbv zeta. unfold _build_full_tree in Hrun. rewrite bind_run in Hrun.
  rewrite bindE_run in Hrun.
  destruct (add_groups _ _ _ _ _ _ _) as [[group_nodes|] t2] eqn:Hgroups; [|done].
  apply add_groups_shape in Hgroups.
  rewrite bindE_run in Hrun. destruct (nonempty obsolete) eqn:Hne.
  - rewrite bindE_run in Hrun.
    destruct (mapE _ _ t2) as [[kids|] t3] eqn:Hkids; [|done].
    apply add_entries_tree_labels in Hkids. injection Hrun as <- _.
    eexists group_nodes, _. split; [done|]. split; [done|].
    right. split; [by destruct obsolete|]. by exists kids.
  - injection Hrun as <- _. apply nonempty_false in Hne.
    exists group_nodes, []. split; [done|]. split; [done|]. by left.
Qed.
End Shapes.

Section DictValues.
Context {K V : Type} `{EqDecision K}.

Lemma bind_ext_in {A B} (f g : A → list B) (l : list A) :
  (∀ x, x ∈ l → f x = g x) → l ≫= f = l ≫= g.
Proof. intros Hfg. apply Forall_bind_ext, Forall_forall. auto. Qed.

Lemma dict_values_get (d : list (K * list V)) :
  NoDup d.*1 → d.*1 ≫= (λ k, dict_get k d) = concat d.*2.
Proof.
  induction d as [|[k vs] d IH]; [done|]. rewrite !fmap_cons. cbn [fst snd].
  intros [Hk Hnd]%NoDup_cons. rewrite bind_cons. cbn [dict_get concat].
  rewrite decide_True by done. f_equal. rewrite <- IH by done.
  apply bind_ext_in. intros k' Hk'. rewrite decide_False; [done|]. by intros ->.
Qed.

Lemma display_order_perm (f : V → K) (l : list V) (order : list K) :
  order ≡ₚ (group_by f l).*1 →
  order ≫= (λ p, dict_get p (group_by f l)) ≡ₚ l.
Proof.
  intros ->. rewrite dict_values_get by apply group_by_keys_NoDup.
  apply group_by_values.
Qed.
End DictValues.

Lemma flat_map_cons {A B} (f : A → list B) x l :
  flat_map f (x :: l) = f x ++ flat_map f l.
Proof. done. Qed.

Section ViewLines.
Context `{rt : Runtime}.
Variables (fuel : nat) (cm : list (string * list Node.t)).

Lemma groups_shape_entry_lines v2_mode v2_config groups group_label trees :
  groups_shape fuel cm v2_mode v2_config groups group_label trees →
  (∀ p es, entry_of (group_label p es) = None) →
  omap entry_of (flat_map tree_labels trees)
  = sorted_strings groups.*1 ≫= λ p, dict_get p groups.
Proof.
  intros Hshape Hlabel. unfold groups_shape in Hshape.
  remember (sorted_strings groups.*1) as order eqn:Horder. clear Horder.
  induction Hshape as [|p tree ps trees (kids & -> & Hkids) _ IH]; [done|].
  rewrite (flat_map_cons tree_labels), omap_app, IH.
  rewrite (bind_cons (λ p, dict_get p groups)). f_equal.
  cbn [tree_labels]. cbn [omap list_omap]. rewrite Hlabel.
  by eapply entry_lines_entries.
Qed.

Lemma sorted_strings_perm (l : list string) : sorted_strings l ≡ₚ l.
Proof. apply sorted_reverse_perm. Qed.
End ViewLines.

Lemma length_filter_marked (b : Entry.t → bool) (p : string) (l : list Entry.t) :
  length (filter (λ e, Entry.prefix e = p) ((λ r, Entry.set_promoted (b r) r) <$> l))
  = length (filter (λ e, Entry.prefix e = p) l).
Proof.
  induction l as [|e l IH]; [done|]. rewrite fmap_cons, !filter_cons. simpl.
  destruct (decide (Entry.prefix e = p)); simpl; by rewrite IH.
Qed.

Lemma rows_split (rows : list Entry.t) :
  filter (λ r, Entry.obsolete r = 0) rows ++ filter (λ r, Entry.obsolete r ≠ 0) rows
  ≡ₚ rows.
Proof. apply filter_app_complement. Qed.

Section Views.
Context `{rt : Runtime}.
Variables (fuel : nat) (cm : list (string * list Node.t)).

Lemma obs_nodes_entry_lines v2_mode v2_config (entries : list Entry.t) label obs_nodes :
  (entries = [] ∧ obs_nodes = [])
  ∨ (entries ≠ []
     ∧ ∃ kids, obs_nodes = [Branch label kids]
               ∧ entries_shape fuel cm v2_mode v2_config entries kids) →
  entry_of label = None →
  omap entry_of (flat_map tree_labels obs_nodes) = entries.
Proof.
  intros [[-> ->]|(_ & kids & -> & Hkids)] Hlabel; [done|].
  rewrite (flat_map_cons tree_labels). cbn [flat_map]. rewrite app_nil_r.
  cbn [tree_labels]. cbn [omap list_omap]. rewrite Hlabel.
  by eapply entry_lines_entries.
Qed.

Lemma _build_v2_tree_entry_lines agent active obsolete prefix_labels v2_config t tree t' :
  _build_v2_tree fuel agent active obsolete prefix_labels cm v2_config t = (Some tree, t') →
  let sel := compute_v2_selection active obsolete v2_config t in
  let marked :=
    (λ r, Entry.set_promoted (bool_decide (Entry.id r ∈ promotedIds sel.1)) r)
      <$> active in
  let v2_active := filter (λ e, Entry.id e ∈ visibleIds sel.1) marked in
  entry_lines tree
  = (sorted_strings (group_by Entry.prefix v2_active).*1
       ≫= λ p, dict_get p (group_by Entry.prefix v2_active))
    ++ (Entry.set_promoted false <$> visibleObsolete sel.1).
Proof.
  intros Hrun. cbv zeta.
  pose proof (_build_v2_tree_shape _ _ _ _ _ _ _ _ _ _ Hrun) as Hshape.
  cbv zeta in Hshape.
  destruct Hshape as (shown_tok & t2 & group_nodes & obs_nodes & _ & -> & Hgroups & Hobs).
  unfold entry_lines. cbn [tree_labels]. cbn [omap list_omap entry_of].
  rewrite flat_map_app, omap_app. f_equal.
  - by apply groups_shape_entry_lines in Hgroups.
  - destruct Hobs as [[-> ->]|(Hne & kids & -> & Hkids)]; [done|].
    eapply (obs_nodes_entry_lines true (Some v2_config) _ (LObsolete _ _)); [|done].
    right. split; [|by exists kids]. by destruct (visibleObsolete _).
Qed.

Lemma _build_full_tree_entry_lines agent active obsolete prefix_labels t tree t' :
  _build_full_tree fuel agent active obsolete prefix_labels cm t = (Some tree, t') →
  ∃ b : Entry.t → bool,
    let marked := (λ r, Entry.set_promoted (b r) r) <$> active in
    entry_lines tree
    = (sorted_strings (group_by Entry.prefix marked).*1
         ≫= λ p, dict_get p (group_by Entry.prefix marked))
      ++ obsolete.
Proof.
  intros Hrun.
  destruct (_build_full_tree_shape _ _ _ _ _ _ _ _ _ Hrun)
    as (group_nodes & obs_nodes & -> & Hgroups & Hobs).
  eexists (λ r, bool_decide (Entry.id r ∈ _)). cbv zeta.
  unfold entry_lines. cbn [tree_labels]. cbn [omap list_omap entry_of].
  rewrite flat_map_app, omap_app. f_equal.
  - by apply groups_shape_entry_lines in Hgroups.
  - destruct Hobs as [[-> ->]|(Hne & kids & -> & Hkids)]; [done|].
    eapply (obs_nodes_entry_lines false None _ (LObsolete _ _)); [|done].
    right. split; [done|by exists kids].
Qed.
End Views.

Lemma rebuild_tree_nonempty `{rt : Runtime}
    fuel agent v2_mode prefix_labels cfg rows all_nodes t :
  rows ≠ [] →
  let data := load_all_data rows all_nodes in
  rebuild_tree fuel agent v2_mode prefix_labels cfg rows all_nodes t
  = if v2_mode
    then _build_v2_tree fuel agent data.1.1 data.1.2 prefix_labels data.2 cfg t
    else _build_full_tree fuel agent data.1.1 data.1.2 prefix_labels data.2 t.
Proof.
  intros Hrows data. subst data. unfold rebuild_tree, load_all_data. simpl.
  rewrite rows_nonempty by done. by destruct v2_mode.
Qed.

Lemma visible_obsolete_submseteq `{rt : Runtime} active obsolete cfg t :
  visibleObsolete (result_of (compute_v2_selection active obsolete cfg) t) ⊆+ obsolete.
Proof.
  unfold result_of, compute_v2_selection. rewrite !bind_run.
  destruct (foldlC _ _ _ t) as [[exp prom] t1]. simpl.
  rewrite bind_run. unfold visibleObsolete. simpl.
  etrans; [apply sublist_submseteq, slice_to_sublist|].
  by rewrite sorted_reverseM_perm.
Qed.

Lemma length_rows_split (rows : list Entry.t) :
  (length (filter (λ r, Entry.obsolete r = 0%Z) rows)
   + length (filter (λ r, Entry.obsolete r ≠ 0%Z) rows))%nat = length rows.
Proof. by rewrite <- length_app, rows_split. Qed.

Lemma string_length_app (a b : string) :
  String.length (a ++ b) = (String.length a + String.length b)%nat.
Proof. induction a as [|c a IH]; simpl; [done|]. by rewrite IH. Qed.

Lemma descent_app cm n l m l' :
  descent cm n l → last (n :: l) = Some m → descent cm m l' → descent cm n (l ++ l').
Proof.
  revert n. induction l as [|x l IH]; intros n; simpl.
  - by intros _ [= ->].
  - intros [Hx Hl] Hlast Hl'. split; [done|]. apply IH; try done.
Qed.

Lemma descent_cycle cm n l k :
  descent cm n l → last (n :: l) = Some n →
  descent cm n (concat (replicate k l)).
Proof.
  intros Hl Hlast. induction k as [|k IH]; simpl; [done|].
  by eapply descent_app.
Qed.

Lemma mapM_None_elem {A B} (f : A → option B) (l : list A) x :
  x ∈ l → f x = None → mapM f l = None.
Proof.
  intros Hx Hf. destruct (mapM f l) as [ys|] eqn:Hm; [|done].
  apply mapM_Some in Hm. apply list_elem_of_lookup in Hx as [i Hi].
  destruct (Forall2_lookup_l _ _ _ _ _ Hm Hi) as (y & _ & Hy). congruence.
Qed.


Lemma foldl_count_step_is_Some fuel cm nodes acc :
  (∀ n, n ∈ nodes →
        dict_get (Node.id n) cm = []
        ∨ is_Some (_count_subtree_tokens fuel (dict_get (Node.id n) cm) cm)) →
  is_Some (foldl (count_step fuel cm) (Some acc) nodes).
Proof.
  revert acc. induction nodes as [|n nodes IH]; intros acc Hall; cbn [foldl]; [by eexists|].
  assert (Hstep : is_Some (count_step fuel cm (Some acc) n)).
  { destruct (Hall n ltac:(by left)) as [Hnil|[s Hs]]; unfold count_step; simpl.
    - rewrite Hnil. simpl. by eexists.
    - destruct (nonempty _); [rewrite Hs; simpl|]; by eexists. }
  destruct Hstep as [acc' ->]. apply IH. intros m Hm. apply Hall. by right.
Qed.

Lemma count_build_iff fuel nodes cm :
  nodes ≠ [] →
  is_Some (_count_subtree_tokens fuel nodes cm)
  ↔ is_Some (mapM (λ c, add_node_to_tree fuel c cm) nodes).
Proof.
  revert nodes. induction fuel as [|fuel IH]; intros nodes Hne.
  - destruct nodes as [|n nodes]; [done|]. simpl. split; by intros [? ?].
  - rewrite _count_subtree_tokens_S, mapM_is_Some, Forall_forall.
    assert (Hnode : ∀ n,
              (dict_get (Node.id n) cm = []
               ∨ is_Some (_count_subtree_tokens fuel (dict_get (Node.id n) cm) cm))
              ↔ is_Some (add_node_to_tree (S fuel) n cm)).
    { intros n. cbn [add_node_to_tree]. destruct (nonempty _) eqn:Hnon.
      - assert (Hne' : dict_get (Node.id n) cm ≠ []).
        { intros Heq. by rewrite Heq in Hnon. }
        rewrite (IH _ Hne'). split.
        + intros [?|[kids ->]]; [done|]. by eexists.
        + intros [tree Htree]. right. destruct (mapM _ _); [by eexists|done].
      - apply nonempty_false in Hnon. split; [by eexists|by left]. }
    split.
    + intros [k Hk] n Hn. simpl. apply Hnode. by eapply foldl_count_step_Some.
    + intros Hall. apply foldl_count_step_is_Some. intros n Hn. apply Hnode.
      by apply Hall.
Qed.

Lemma sum_label_tokens_nodes (l : list Node.t) :
  sum_list_with label_tokens (LNode <$> l) = sum_list_with node_tokens l.
Proof. by rewrite sum_list_with_fmap. Qed.

Lemma omap_node_of_nodes (l : list Node.t) : omap node_of (LNode <$> l) = l.
Proof.
  induction l as [|n l IH]; [done|]. rewrite fmap_cons. cbn [omap list_omap node_of].
  by rewrite IH.
Qed.

(** ** A clock that stands still *)







Section Frozen.
Context `{rt : Runtime}.
Hypothesis frozen : ∀ i j, clock i = clock j.
Variables (fuel : nat) (cm : list (string * list Node.t)).





End Frozen.

(** ** Reaching every node *)

Lemma depth_lower_bound (all_nodes : list Node.t) :
  ∃ m, ∀ n, n ∈ all_nodes → m ≤ Node.depth n.
Proof.
  induction all_nodes as [|x l [m Hm]]; [exists 0; by intros ? ?%elem_of_nil|].
  exists (Z.min m (Node.depth x)). intros n [->|Hn]%elem_of_cons; [lia|].
  specialize (Hm n Hn). lia.
Qed.

Lemma subtree_nodes_bind {A} fuel (g : A → list Node.t) (l : list A) cm :
  subtree_nodes fuel (l ≫= g) cm = l ≫= λ x, subtree_nodes fuel (g x) cm.
Proof.
  induction l as [|x l IH]; [apply subtree_nodes_nil|].
  by rewrite !bind_cons, subtree_nodes_app, IH.
Qed.

Section Reach.
Variables (rows : list Entry.t) (all_nodes : list Node.t).
Hypothesis wf : forest rows all_nodes.
Hypothesis attached :
  ∀ n, n ∈ all_nodes →
       Node.parent_id n ∈ Entry.id <$> rows ∨ Node.parent_id n ∈ Node.id <$> all_nodes.
Let cm := group_by Node.parent_id all_nodes.
Let roots := rows ≫= λ e, dict_get (Entry.id e) cm.

Lemma subtree_nodes_top fuel ns n : n ∈ ns → n ∈ subtree_nodes (S fuel) ns cm.
Proof.
  intros Hn. unfold cm. rewrite subtree_nodes_level. apply elem_of_app. by left.
Qed.

Lemma subtree_nodes_child fuel ns p c :
  p ∈ subtree_nodes fuel ns cm → c ∈ dict_get (Node.id p) cm →
  c ∈ subtree_nodes (S fuel) ns cm.
Proof.
  revert ns. induction fuel as [|fuel IH]; intros ns; [by intros ?%elem_of_nil|].
  unfold cm.
  rewrite (subtree_nodes_level all_nodes fuel ns),
          (subtree_nodes_level all_nodes (S fuel) ns). fold cm.
  intros [Hp|Hp]%elem_of_app Hc; apply elem_of_app; right.
  - apply subtree_nodes_top, list_elem_of_bind. by exists p.
  - by apply IH.
Qed.

Lemma subtree_nodes_mono fuel fuel' ns :
  (fuel ≤ fuel')%nat → subtree_nodes fuel ns cm ⊆ subtree_nodes fuel' ns cm.
Proof.
  revert fuel' ns. induction fuel as [|fuel IH]; intros fuel' ns Hle;
    [by intros ? ?%elem_of_nil|].
  destruct fuel' as [|fuel']; [lia|]. unfold cm.
  intros n.
  rewrite (subtree_nodes_level all_nodes fuel ns),
          (subtree_nodes_level all_nodes fuel' ns), !elem_of_app. fold cm.
  intros [?|Hn]; [by left|right]. apply (IH fuel'); [lia|done].
Qed.

Lemma reach m k n :
  (∀ n, n ∈ all_nodes → m ≤ Node.depth n) →
  n ∈ all_nodes → Node.depth n - m ≤ Z.of_nat k →
  ∃ level, Z.of_nat level + 1 = Node.depth n ∧ n ∈ subtree_nodes level roots cm.
Proof.
  intros Hm. revert n. induction k as [|k IH]; intros n Hn Hk.
  - destruct (attached n Hn) as [(e & Heq & He)%list_elem_of_fmap
                                |(p & Heq & Hp)%list_elem_of_fmap].
    + exists 1%nat. split.
      * by rewrite (forest_root_depth _ _ wf n e).
      * apply subtree_nodes_top, list_elem_of_bind. exists e. split; [|done].
        by apply dict_get_in_group_by.
    + pose proof (forest_node_depth _ _ wf n p Hn Hp Heq).
      pose proof (Hm p Hp). pose proof (Hm n Hn). lia.
  - destruct (attached n Hn) as [(e & Heq & He)%list_elem_of_fmap
                                |(p & Heq & Hp)%list_elem_of_fmap].
    + exists 1%nat. split.
      * by rewrite (forest_root_depth _ _ wf n e).
      * apply subtree_nodes_top, list_elem_of_bind. exists e. split; [|done].
        by apply dict_get_in_group_by.
    + pose proof (forest_node_depth _ _ wf n p Hn Hp Heq) as Hd.
      destruct (IH p Hp) as (level & Hlevel & Hreach); [lia|].
      exists (S level). split; [lia|].
      eapply subtree_nodes_child; [done|]. by apply dict_get_in_group_by.
Qed.

(** on a forest without dangling nodes, with a stack deep enough, the
    descendants of the records are all the nodes, each once *)
Lemma every_node_reached fuel :
  deep_enough fuel all_nodes →
  subtree_nodes fuel roots cm ≡ₚ all_nodes.
Proof.
  intros [Hfuel Hdeep].
  assert (Hroots : ∀ n, n ∈ roots → n ∈ all_nodes ∧ Node.depth n = 2).
  { intros n (e & Hn & He)%list_elem_of_bind.
    apply (root_children rows all_nodes wf e); [|done]. by apply list_elem_of_fmap_2. }
  apply NoDup_Permutation.
  - eapply NoDup_fmap_1, (subtree_nodes_NoDup rows all_nodes wf _ 2); [done|].
    unfold roots.
    replace (rows ≫= λ e, dict_get (Entry.id e) cm)
      with ((Entry.id <$> rows) ≫= λ k, dict_get k cm) by apply list_fmap_bind.
    apply (children_NoDup rows all_nodes wf), (forest_entry_ids _ _ wf).
  - eapply NoDup_fmap_1, (forest_node_ids _ _ wf).
  - intros n. split.
    + intros Hn. eapply (subtree_nodes_in rows all_nodes wf _ 2) in Hn; [apply Hn|].
      intros c Hc. destruct (Hroots c Hc). split; [done|lia].
    + intros Hn. destruct (depth_lower_bound all_nodes) as [m Hm].
      destruct (reach m (Z.to_nat (Node.depth n - m)) n Hm Hn) as (level & Hlevel & Hreach);
        [lia|].
      eapply subtree_nodes_mono; [|done]. specialize (Hdeep n Hn). lia.
Qed.
End Reach.

(** ** The node lines of a view *)

Section NodeLines.
Context `{rt : Runtime}.
Variables (fuel : nat) (cm : list (string * list Node.t)).
Variables (v2_mode : bool) (v2_config : option V2Config).

Lemma uncapped_visible_children e t :
  uncapped_at cm v2_config e →
  visible_children v2_config (dict_get (Entry.id e) cm) t = (dict_get (Entry.id e) cm, t).
Proof. unfold uncapped_at, visible_children. by intros ->. Qed.

Lemma entry_tree_node_lines e t :
  omap node_of (entry_tree_labels fuel cm v2_mode v2_config e t)
  = subtree_nodes fuel (visible_children v2_config (dict_get (Entry.id e) cm) t).1 cm.
Proof.
  unfold entry_tree_labels. cbn [omap list_omap node_of].
  rewrite omap_app, omap_node_of_nodes. destruct (_ && _); simpl; by rewrite app_nil_r.
Qed.

Lemma entries_shape_node_lines entries kids :
  entries_shape fuel cm v2_mode v2_config entries kids →
  (∀ e, e ∈ entries → uncapped_at cm v2_config e) →
  omap node_of (flat_map tree_labels kids)
  = (Entry.id <$> entries) ≫= λ i, subtree_nodes fuel (dict_get i cm) cm.
Proof.
  induction 1 as [|e kid entries kids [t0 Hkid] _ IH]; intros Hun; [done|].
  rewrite (flat_map_cons tree_labels), omap_app, fmap_cons, bind_cons.
  rewrite IH by (intros; apply Hun; by right). f_equal.
  rewrite Hkid, entry_tree_node_lines, uncapped_visible_children; [done|].
  apply Hun. by left.
Qed.

Lemma groups_shape_node_lines groups group_label trees :
  groups_shape fuel cm v2_mode v2_config groups group_label trees →
  (∀ p es, node_of (group_label p es) = None) →
  (∀ p e, e ∈ dict_get p groups → uncapped_at cm v2_config e) →
  omap node_of (flat_map tree_labels trees)
  = (Entry.id <$> (sorted_strings groups.*1 ≫= λ p, dict_get p groups))
      ≫= λ i, subtree_nodes fuel (dict_get i cm) cm.
Proof.
  intros Hshape Hlabel Hun. unfold groups_shape in Hshape.
  remember (sorted_strings groups.*1) as order eqn:Horder. clear Horder.
  induction Hshape as [|p tree ps trees (kids & -> & Hkids) _ IH]; [done|].
  rewrite (flat_map_cons tree_labels), omap_app, IH.
  rewrite (bind_cons (λ p, dict_get p groups)), fmap_app, bind_app. f_equal.
  cbn [tree_labels]. cbn [omap list_omap]. rewrite Hlabel.
  apply entries_shape_node_lines; [done|]. intros e. apply Hun.
Qed.

Lemma counted_nodes_uncapped shown t :
  (∀ e, e ∈ shown → uncapped_at cm v2_config e) →
  (counted_nodes fuel shown cm v2_config t).1
  = (Entry.id <$> shown) ≫= λ i, subtree_nodes fuel (dict_get i cm) cm.
Proof.
  revert t. induction shown as [|e shown IH]; intros t Hun.
  - unfold counted_nodes. rewrite bind_run. simpl. apply subtree_nodes_nil.
  - rewrite counted_nodes_cons. cbv zeta. cbn [fst].
    rewrite uncapped_visible_children by (apply Hun; by left). cbn [fst snd].
    rewrite IH by (intros; apply Hun; by right). by rewrite fmap_cons, bind_cons.
Qed.
End NodeLines.

Lemma bind_ids_perm (l k : list Entry.t) (g : string → list Node.t) :
  Entry.id <$> l ≡ₚ Entry.id <$> k →
  (Entry.id <$> l) ≫= g ≡ₚ (Entry.id <$> k) ≫= g.
Proof. by intros ->. Qed.

Lemma roots_bind fuel (rows : list Entry.t) cm :
  (Entry.id <$> rows) ≫= (λ i, subtree_nodes fuel (dict_get i cm) cm)
  = subtree_nodes fuel (rows ≫= λ e, dict_get (Entry.id e) cm) cm.
Proof. by rewrite subtree_nodes_bind, list_fmap_bind. Qed.

Lemma uncapped_at_None cm e : uncapped_at cm None e.
Proof. done. Qed.

Lemma uncapped_at_wide (all_nodes : list Node.t) cfg e :
  Z.of_nat (length all_nodes) ≤ topNewestCount cfg →
  uncapped_at (group_by Node.parent_id all_nodes) (Some cfg) e.
Proof.
  intros Hwide. unfold uncapped_at, caps.
  rewrite dict_get_group_by.
  pose proof (length_filter (λ n, Node.parent_id n = Entry.id e) all_nodes) as Hlen.
  rewrite (proj2 (Z.ltb_ge _ _)) by lia. by rewrite andb_false_r.
Qed.

Lemma visible_obsolete_length `{rt : Runtime} active obsolete cfg t :
  0 ≤ topObsoleteCount cfg →
  length (visibleObsolete (result_of (compute_v2_selection active obsolete cfg) t))
  = (length obsolete `min` Z.to_nat (topObsoleteCount cfg))%nat.
Proof.
  intros Hcap.
  unfold result_of, compute_v2_selection. rewrite !bind_run.
  destruct (foldlC _ _ _ t) as [[exp prom] t1]. simpl.
  rewrite bind_run. unfold visibleObsolete. simpl.
  rewrite slice_to_length by done.
  by rewrite (sorted_reverseM_perm float_le weighted_access_score obsolete t1).
Qed.

Lemma small_category_visible `{rt : Runtime} active obsolete cfg t e :
  e ∈ active →
  Z.of_nat (length (filter (λ x, Entry.prefix x = Entry.prefix e) active))
    ≤ topNewestCount cfg →
  Entry.id e ∈ visibleIds (result_of (compute_v2_selection active obsolete cfg) t).
Proof.
  intros He Hlen.
  destruct (compute_v2_selection_run active obsolete cfg t)
    as (accessed & _ & Hvis & _).
  apply Hvis. left. apply list_elem_of_fmap. exists e. split; [done|].
  apply list_elem_of_bind.
  exists (Entry.prefix e, dict_get (Entry.prefix e) (group_by Entry.prefix active)).
  split.
  - simpl. rewrite dict_get_group_by, slice_to_all.
    + unfold newest. rewrite sorted_reverse_perm. by apply list_elem_of_filter.
    + unfold newest. by rewrite sorted_reverse_perm.
  - apply dict_elem_get, group_by_keys, list_elem_of_fmap. by exists e.
Qed.

Lemma filter_all {A} (P : A → Prop) `{∀ x, Decision (P x)} (l : list A) :
  (∀ x, x ∈ l → P x) → filter P l = l.
Proof.
  intros HP. induction l as [|x l IH]; [done|].
  rewrite filter_cons_True by (apply HP; by left).
  f_equal. apply IH. intros y Hy. apply HP. by right.
Qed.

(** ** The group lines *)

Lemma sorted_strings_sorted (l : list string) :
  Sorted (λ a b, String.leb a b = true) (sorted_strings l).
Proof.
  unfold sorted_strings, sorted_reverse.
  set (ps := sort_desc _ _).
  assert (Hsorted : Sorted (desc (λ a b : string, String.leb b a)) ps).
  { apply sort_desc_sorted. intros a b. apply string_leb_total. }
  assert (Hdiag : Forall (λ p : string * string, p.1 = p.2) ps).
  { apply Forall_forall. intros p Hp. unfold ps in Hp.
    rewrite sort_desc_perm in Hp. clear -Hp.
    induction l as [|x l IH]; simpl in Hp.
    - by apply elem_of_nil in Hp.
    - apply elem_of_cons in Hp as [->|Hp]; [done|]. by apply IH. }
  replace (ps.*2) with (ps.*1).
  - eapply (Sorted_fmap fst); [|exact Hsorted]. by intros [a x] [b y].
  - clear Hsorted. induction Hdiag as [|[a b] ps' Hab _ IH]; [done|].
    rewrite !fmap_cons, IH. simpl in *. by subst.
Qed.

Lemma length_filter_filter {A} (P Q : A → Prop)
    `{∀ x, Decision (P x)} `{∀ x, Decision (Q x)} (l : list A) :
  (length (filter P (filter Q l)) ≤ length (filter P l))%nat.
Proof.
  induction l as [|x l IH]; [done|]. rewrite !filter_cons.
  destruct (decide (Q x)), (decide (P x)); rewrite ?filter_cons; simpl;
    try destruct (decide (P x)); simpl; try done; lia.
Qed.

Lemma groups_shape_root_labels `{rt : Runtime} fuel cm v2_mode v2_config
    groups group_label trees :
  groups_shape fuel cm v2_mode v2_config groups group_label trees →
  root_label <$> trees
  = (λ p, group_label p (dict_get p groups)) <$> sorted_strings groups.*1.
Proof.
  unfold groups_shape.
  remember (sorted_strings groups.*1) as order eqn:Horder. clear Horder.
  induction 1 as [|p tree ps trees (kids & -> & Hkids) _ IH]; [done|].
  by rewrite !fmap_cons, IH.
Qed.

Lemma prefix_marked (b : Entry.t → bool) (l : list Entry.t) :
  Entry.prefix <$> ((λ r, Entry.set_promoted (b r) r) <$> l) = Entry.prefix <$> l.
Proof. rewrite <- list_fmap_compose. by apply list_fmap_ext. Qed.

(** ** The promotion marks *)

Lemma length_filter_ids (S : gset string) (l : list Entry.t) :
  NoDup (Entry.id <$> l) →
  (length (filter (λ e, Entry.id e ∈ S) l) ≤ size S)%nat.
Proof.
  intros Hnd.
  assert (Hnd' : NoDup (Entry.id <$> filter (λ e, Entry.id e ∈ S) l)).
  { eapply sublist_NoDup; [exact Hnd|]. apply fmap_sublist, sublist_filter. }
  rewrite <- (length_fmap Entry.id), <- (size_list_to_set (C := gset string)) by done.
  apply subseteq_size. intros i (e & -> & [He _]%list_elem_of_filter)%elem_of_list_to_set%list_elem_of_fmap.
  done.
Qed.

Lemma filter_promoted_marked (S : gset string) (l : list Entry.t) :
  length (filter (λ e, Entry._promoted e = Some true)
            ((λ r, Entry.set_promoted (bool_decide (Entry.id r ∈ S)) r) <$> l))
  = length (filter (λ e, Entry.id e ∈ S) l).
Proof.
  induction l as [|e l IH]; [done|]. rewrite fmap_cons, !filter_cons. simpl.
  destruct (decide (Entry.id e ∈ S)) as [Hin|Hnin].
  - rewrite bool_decide_eq_true_2 by done. rewrite decide_True by done. simpl.
    by rewrite IH.
  - rewrite bool_decide_eq_false_2 by done. rewrite decide_False by done. done.
Qed.

Lemma filter_none {A} (P : A → Prop) `{∀ x, Decision (P x)} (l : list A) :
  (∀ x, x ∈ l → ¬ P x) → filter P l = [].
Proof.
  intros HP. induction l as [|x l IH]; [done|].
  rewrite filter_cons_False by (apply HP; by left).
  apply IH. intros y Hy. apply HP. by right.
Qed.

Lemma _build_full_tree_lines `{rt : Runtime}
    fuel cm agent active obsolete prefix_labels t tree t' :
  _build_full_tree fuel agent active obsolete prefix_labels cm t = (Some tree, t') →
  let sorted_by_access :=
    (sorted_reverseM float_le weighted_access_score
       (filter (λ r, 0 < Entry.access_count r) active) t).1 in
  let promoted_ids : gset string :=
    list_to_set (Entry.id <$> slice_to 5 sorted_by_access) in
  let marked :=
    (λ r, Entry.set_promoted (bool_decide (Entry.id r ∈ promoted_ids)) r) <$> active in
  entry_lines tree
  = (sorted_strings (group_by Entry.prefix marked).*1
       ≫= λ p, dict_get p (group_by Entry.prefix marked))
    ++ obsolete.
Proof.
  intros Hrun. cbv zeta.
  pose proof (_build_full_tree_shape _ _ _ _ _ _ _ _ _ Hrun) as Hshape.
  cbv zeta in Hshape.
  destruct Hshape as (group_nodes & obs_nodes & -> & Hgroups & Hobs).
  unfold entry_lines. cbn [tree_labels]. cbn [omap list_omap entry_of].
  rewrite flat_map_app, omap_app. f_equal.
  - by apply groups_shape_entry_lines in Hgroups.
  - destruct Hobs as [[-> ->]|(Hne & kids & -> & Hkids)]; [done|].
    eapply (obs_nodes_entry_lines _ _ false None _ (LObsolete _ _)); [|done].
    right. split; [done|by exists kids].
Qed.

(** ** Searching a text *)

Section Find.
Context {A : Type} `{EqDecision A}.
Implicit Types (sub s : list A).

Lemma starts_with_prefix sub s : starts_with sub s = true ↔ sub `prefix_of` s.
Proof.
  revert s. induction sub as [|a sub IH]; intros s; simpl.
  - split; [intros _; apply prefix_nil|done].
  - destruct s as [|b s].
    + split; [done|]. intros [k Hk]. discriminate.
    + rewrite andb_true_iff, bool_decide_eq_true, IH. split.
      * intros [-> Hpre]. by apply prefix_cons.
      * intros [k Hk]. injection Hk as -> ->. split; [done|]. by exists k.
Qed.

Lemma starts_with_false sub s : starts_with sub s = false ↔ ¬ sub `prefix_of` s.
Proof. rewrite <- starts_with_prefix. by destruct (starts_with sub s). Qed.

Lemma find_range sub s : -1 ≤ find sub s ≤ Z.of_nat (length s).
Proof.
  induction s as [|b s IH]; simpl.
  - destruct (starts_with sub []); lia.
  - destruct (starts_with sub (b :: s)); [lia|].
    destruct (find sub s <? 0) eqn:Hlt; [lia|]. apply Z.ltb_ge in Hlt. lia.
Qed.

(** a result that is not negative is the first index of an occurrence *)
Lemma find_nonneg sub s :
  0 ≤ find sub s →
  sub `prefix_of` drop (Z.to_nat (find sub s)) s
  ∧ ∀ j, (j < Z.to_nat (find sub s))%nat → ¬ sub `prefix_of` drop j s.
Proof.
  induction s as [|b s IH]; simpl.
  - destruct (starts_with sub []) eqn:Hs; [|lia]. intros _.
    split; [by apply starts_with_prefix|]. intros j Hj. simpl in Hj. lia.
  - destruct (starts_with sub (b :: s)) eqn:Hs.
    + intros _. split; [by apply starts_with_prefix|]. intros j Hj. simpl in Hj. lia.
    + destruct (find sub s <? 0) eqn:Hlt; [lia|]. apply Z.ltb_ge in Hlt. intros _.
      destruct (IH Hlt) as [Hpre Hmin].
      replace (Z.to_nat (find sub s + 1)) with (S (Z.to_nat (find sub s))) by lia.
      split; [done|]. intros [|j] Hj.
      * simpl. by apply starts_with_false.
      * simpl. apply Hmin. lia.
Qed.

(** a negative result is [-1] and tells that there is no occurrence *)
Lemma find_neg sub s :
  find sub s < 0 → find sub s = -1 ∧ ∀ j, ¬ sub `prefix_of` drop j s ∨ sub = [].
Proof.
  intros Hneg. split; [pose proof (find_range sub s); lia|]. revert Hneg.
  induction s as [|b s IH]; simpl.
  - destruct (starts_with sub []) eqn:Hs; [lia|]. intros _ j. left.
    rewrite drop_nil. by apply starts_with_false.
  - destruct (starts_with sub (b :: s)) eqn:Hs; [lia|].
    destruct (find sub s <? 0) eqn:Hlt.
    + apply Z.ltb_lt in Hlt. intros _ [|j]; [left; by apply starts_with_false|].
      simpl. by apply IH.
    + apply Z.ltb_ge in Hlt. lia.
Qed.

(** an occurrence bounds the result *)
Lemma find_le sub s j :
  sub ≠ [] → sub `prefix_of` drop j s → 0 ≤ find sub s ≤ Z.of_nat j.
Proof.
  intros Hne Hpre. destruct (Z.lt_ge_cases (find sub s) 0) as [Hneg|Hpos].
  - destruct (find_neg sub s Hneg) as [_ Hnone].
    destruct (Hnone j) as [?|?]; done.
  - split; [done|]. destruct (find_nonneg sub s Hpos) as [_ Hmin].
    destruct (decide (Z.to_nat (find sub s) ≤ j)%nat) as [?|Hgt]; [lia|].
    exfalso. apply (Hmin j); [lia|done].
Qed.

Lemma prefix_drop_take sub s j n :
  sub `prefix_of` drop j (take n s) → sub `prefix_of` drop j s.
Proof.
  intros [k Hk].
  destruct (decide (j ≤ length (take n s))%nat) as [Hle|Hgt].
  - exists (k ++ drop n s).
    rewrite <- (take_drop n s) at 1. rewrite drop_app.
    replace (j - length (take n s))%nat with 0%nat by lia. simpl.
    rewrite Hk. by rewrite <- app_assoc.
  - rewrite drop_ge in Hk by lia. destruct sub; [|done]. apply prefix_nil.
Qed.
End Find.

(** ** Titles *)

Lemma auto_extract_title_nil max_len : auto_extract_title [] max_len = [].
Proof. done. Qed.

(** the three ways out of [auto_extract_title] on a text that is not empty *)
Lemma auto_extract_title_cases txt max_len :
  txt ≠ [] →
  let d := find SEPARATOR txt in
  (0 < d ≤ max_len ∧ auto_extract_title txt max_len = take (Z.to_nat d) txt)
  ∨ (¬ 0 < d ≤ max_len ∧ Z.of_nat (length txt) ≤ max_len
     ∧ auto_extract_title txt max_len = txt)
  ∨ (¬ 0 < d ≤ max_len ∧ max_len < Z.of_nat (length txt)
     ∧ auto_extract_title txt max_len = slice_to max_len txt).
Proof.
  intros Hne d. unfold auto_extract_title. fold d.
  destruct txt as [|c txt]; [done|]. cbn [nonempty negb].
  destruct (0 <? d) eqn:H0; cbn [andb].
  - apply Z.ltb_lt in H0. destruct (d <=? max_len) eqn:H1.
    + apply Z.leb_le in H1. left. split; [lia|]. apply slice_to_nonneg. lia.
    + apply Z.leb_gt in H1. right.
      destruct (Z.of_nat (length (c :: txt)) <=? max_len) eqn:H2.
      * apply Z.leb_le in H2. left. split; [lia|done].
      * apply Z.leb_gt in H2. right. split; [lia|done].
  - apply Z.ltb_ge in H0. right.
    destruct (Z.of_nat (length (c :: txt)) <=? max_len) eqn:H2.
    + apply Z.leb_le in H2. left. split; [lia|done].
    + apply Z.leb_gt in H2. right. split; [lia|done].
Qed.

Lemma find_take_first {A} `{EqDecision A} (sub s : list A) :
  sub ≠ [] → 0 ≤ find sub s → find sub (take (Z.to_nat (find sub s)) s) = -1.
Proof.
  intros Hne Hpos. destruct (find_nonneg sub s Hpos) as [_ Hmin].
  set (t := take (Z.to_nat (find sub s)) s).
  destruct (Z.lt_ge_cases (find sub t) 0) as [Hneg|Hpos'].
  { by destruct (find_neg sub t Hneg). }
  exfalso. destruct (find_nonneg sub t Hpos') as [Hpre _].
  pose proof (find_range sub t) as Hrange.
  assert (length t ≤ Z.to_nat (find sub s))%nat as Hlen.
  { unfold t. rewrite length_take. lia. }
  destruct (decide (Z.to_nat (find sub t) < Z.to_nat (find sub s))%nat) as [Hlt|Hge].
  - apply (Hmin _ Hlt). by apply (prefix_drop_take _ _ _ (Z.to_nat (find sub s))).
  - rewrite drop_ge in Hpre by lia. destruct Hpre as [k Hk]. by destruct sub.
Qed.

Lemma SEPARATOR_nonempty : SEPARATOR ≠ [].
Proof. done. Qed.

Lemma find_short {A} `{EqDecision A} (sub s : list A) :
  (length s < length sub)%nat → find sub s = -1.
Proof.
  intros Hlen. destruct (Z.lt_ge_cases (find sub s) 0) as [Hneg|Hpos].
  { by destruct (find_neg sub s Hneg). }
  destruct (find_nonneg sub s Hpos) as [Hpre _].
  apply prefix_length in Hpre. rewrite length_drop in Hpre. lia.
Qed.

Lemma decode_nil codepoint s : decode codepoint s = [] ↔ s = ""%string.
Proof. destruct s; [done|]. split; discriminate. Qed.

(** what [title or auto_extract_title(text)] shows *)
Lemma title_or_auto codepoint (title : option string) (txt : string) :
  let shown :=
    title_or (decode codepoint <$> title)
             (auto_extract_title (decode codepoint txt) 30) in
  let d := find SEPARATOR (decode codepoint txt) in
  (∀ s, title = Some s → s ≠ ""%string → shown = decode codepoint s)
  ∧ (title = None ∨ title = Some ""%string →
       shown `prefix_of` decode codepoint txt
       ∧ (length shown ≤ 30)%nat
       ∧ (0 < d ≤ 30 → shown = take (Z.to_nat d) (decode codepoint txt))
       ∧ (¬ 0 < d ≤ 30 → shown = take 30 (decode codepoint txt)))
  ∧ (shown = [] ↔ (title = None ∨ title = Some ""%string) ∧ txt = ""%string).
Proof.
  intros shown d.
  set (body := decode codepoint txt) in *.
  assert (auto_extract_title body 30 `prefix_of` body
          ∧ (length (auto_extract_title body 30) ≤ 30)%nat
          ∧ (0 < d ≤ 30 → auto_extract_title body 30 = take (Z.to_nat d) body)
          ∧ (¬ 0 < d ≤ 30 → auto_extract_title body 30 = take 30 body)
          ∧ (auto_extract_title body 30 = [] ↔ txt = ""%string)) as Hauto.
  { destruct (decide (body = [])) as [Hnil|Hne].
    { assert (txt = ""%string) as Htxt by by apply (decode_nil codepoint).
      rewrite Hnil, auto_extract_title_nil. simpl.
      split; [done|]. split; [lia|]. split; [by rewrite take_nil|].
      split; [done|]. by split. }
    rewrite <- (decode_nil codepoint txt). fold body.
    destruct (auto_extract_title_cases body 30 Hne)
      as [[Hd ->]|[[Hd [Hlen ->]]|[Hd [Hlen ->]]]]; fold d in Hd.
    - split; [apply prefix_take|]. split; [rewrite length_take; lia|].
      split; [done|]. split; [done|].
      split; [|done]. intros Hnil. exfalso.
      subst d. destruct body as [|c l]; [done|].
      destruct (Z.to_nat (find SEPARATOR (c :: l))) eqn:E; [lia|done].
    - split; [done|]. split; [lia|]. split; [done|].
      split; [intros _; rewrite take_ge; [done|lia]|done].
    - split; [apply slice_to_prefix|]. split; [rewrite slice_to_length by lia; lia|].
      split; [done|]. split; [intros _; by apply slice_to_nonneg|].
      split; [|done]. rewrite slice_to_nonneg by lia. intros Hnil. exfalso.
      destruct body; done. }
  destruct Hauto as (Hpre & Hlen & Hcut & Hrest & Hnil).
  unfold shown. destruct title as [[|c s]|]; simpl.
  - split; [by intros s [= <-]|]. split; [done|]. rewrite Hnil.
    split; [intros ->; split; [by right|done]|by intros [_ ->]].
  - split; [by intros s' [= <-]|]. split; [intros [?|?]; done|].
    split; [done|]. intros [[?|?] _]; done.
  - split; [done|]. split; [done|]. rewrite Hnil.
    split; [intros ->; split; [by left|done]|by intros [_ ->]].
Qed.

(** ** Token figures *)

Lemma truediv_1000_positive n : 0 < n → 0 ≤ mantissa (truediv n 1000).
Proof.
  intros Hn. unfold truediv. cbn [mantissa]. unfold round_half_even. cbv zeta.
  set (num := n * _). set (den := 1000 * _).
  assert (0 < den) as Hden.
  { unfold den. apply Z.mul_pos_pos; [lia|]. apply Z.pow_pos_nonneg; lia. }
  assert (0 ≤ num) as Hnum.
  { unfold num. apply Z.mul_nonneg_nonneg; [lia|]. apply Z.pow_nonneg. lia. }
  assert (0 ≤ num / den) by (apply Z.div_pos; lia).
  repeat case_match; lia.
Qed.

Lemma string_app_assoc (a b c : string) : (a +:+ b) +:+ c = a +:+ b +:+ c.
Proof.
  induction a as [|x a IH]; [done|].
  change (String x ((a +:+ b) +:+ c) = String x (a +:+ b +:+ c)). by rewrite IH.
Qed.

(** rounding to the nearest integer moves by at most one half *)
Lemma round_half_even_near num den :
  0 < den → Z.abs (2 * (round_half_even num den * den - num)) ≤ den.
Proof.
  intros Hden. unfold round_half_even. cbv zeta.
  pose proof (Z.div_mod num den) as Hdiv.
  pose proof (Z.mod_pos_bound num den Hden) as Hmod.
  set (q := num / den) in *. set (r := num mod den) in *.
  assert (q * den - num = - r) as Hq by lia.
  assert ((q + 1) * den - num = den - r) as Hq1 by lia.
  destruct (2 * r <? den) eqn:H1; [apply Z.ltb_lt in H1; rewrite Hq; lia|].
  apply Z.ltb_ge in H1.
  destruct (den <? 2 * r) eqn:H2; [apply Z.ltb_lt in H2; rewrite Hq1; lia|].
  apply Z.ltb_ge in H2.
  destruct (Z.even q); [rewrite Hq|rewrite Hq1]; lia.
Qed.

(** in the middle range the two roundings together stay within 50 tokens *)
Lemma tenths_1000_near n :
  1000 ≤ n < 10000 →
  10 ≤ tenths (truediv n 1000) ≤ 100
  ∧ Z.abs (n - 100 * tenths (truediv n 1000)) ≤ 50.
Proof.
  intros Hn. unfold tenths, truediv. cbv zeta. cbn [mantissa exponent].
  change (Z.log2 1000) with 9.
  assert (9 ≤ Z.log2 n ≤ 13) as Hlog.
  { split.
    - apply (Z.log2_le_mono 512 n). lia.
    - assert (Z.log2 n < 14); [|lia]. apply Z.log2_lt_pow2; lia. }
  set (e0 := Z.log2 n - 9).
  set (e := if _ <? _ then e0 - 1 else e0).
  assert (-1 ≤ e ≤ 4) as He by (unfold e, e0; case_match; lia).
  set (shift := 52 - e).
  rewrite (Z.max_r 0 shift), (Z.max_l 0 (- shift)), (Z.max_r 0 (- - shift)) by lia.
  replace (- - shift) with shift by lia.
  change (2 ^ 0) with 1. rewrite !Z.mul_1_r.
  set (P := 2 ^ shift).
  assert (2 ^ 48 ≤ P) as HP by (apply Z.pow_le_mono_r; lia).
  change (2 ^ 48) with 281474976710656 in HP.
  set (m := round_half_even (n * P) 1000).
  set (t := round_half_even (m * 10) P).
  pose proof (round_half_even_near (n * P) 1000) as H1. fold m in H1.
  pose proof (round_half_even_near (m * 10) P) as H2. fold t in H2.
  assert ((100 * t - n) * P = 100 * (t * P - m * 10) + (m * 1000 - n * P)) as Hkey by ring.
  assert (Z.abs ((100 * t - n) * P) ≤ 50 * P + 500) as Hbound by lia.
  assert (Z.abs (n - 100 * t) ≤ 50) as Hnear.
  { destruct (Z.le_gt_cases (Z.abs (100 * t - n)) 50) as [?|Hfar]; [lia|].
    exfalso. rewrite Z.abs_mul, (Z.abs_eq P) in Hbound by lia.
    assert (51 * P ≤ Z.abs (100 * t - n) * P); [|lia].
    apply Z.mul_le_mono_nonneg_r; lia. }
  split; [lia|done].
Qed.

(** ** Configuration files *)

Lemma update_lookup {V} (d : gmap string V) items key :
  update d items !! key
  = match item key items with Some v => Some v | None => d !! key end.
Proof.
  revert d. induction items as [|[k v] items IH]; intros d; [done|].
  unfold update in *. cbn [foldl item fst snd]. rewrite IH.
  destruct (item key items) as [v'|]; [done|].
  destruct (decide (k = key)) as [->|Hne].
  - by rewrite lookup_insert_eq.
  - by rewrite lookup_insert_ne.
Qed.

Lemma update_keeps {V} (d : gmap string V) items key :
  is_Some (d !! key) → is_Some (update d items !! key).
Proof. intros Hd. rewrite update_lookup. by destruct (item key items). Qed.

Lemma foldl_upper {V} (upper : string → string) (d : gmap string V) items :
  foldl (λ labels kv, <[upper kv.1 := kv.2]> labels) d items
  = update d (prod_map upper id <$> items).
Proof.
  revert d. induction items as [|[k v] items IH]; intros d; [done|].
  cbn [foldl]. rewrite IH. done.
Qed.

Section ConfigFacts.
Context {F : Type} (float_truthy : F → bool) (upper : string → string).

Lemma load_v2_config_from_keeps (dirs : list (ConfigFile F)) key :
  is_Some (v2_dict (F := F) DEFAULT_V2_CONFIG !! key) →
  is_Some (load_v2_config_from dirs !! key).
Proof.
  intros Hd. induction dirs as [|cfg dirs IH]; [done|].
  cbn [load_v2_config_from]. destruct cfg as [| |data]; [done..|].
  destruct (json_get data "bulkReadV2" (JObject [])) as [[]|]; try done.
  by apply update_keeps.
Qed.

Lemma load_prefix_labels_from_keeps dirs (labels : gmap string (json F)) key :
  is_Some (labels !! key) →
  is_Some (load_prefix_labels_from float_truthy upper dirs labels !! key).
Proof.
  intros Hd. induction dirs as [|cfg dirs IH]; [done|].
  cbn [load_prefix_labels_from]. destruct cfg as [| |data]; [done..|].
  destruct (json_get data "prefixes" JNull) as [p|]; [|done].
  destruct (if truthy float_truthy p then p else JObject []); try done.
  rewrite foldl_upper. by apply update_keeps.
Qed.
End ConfigFacts.

(** ** Negative caps *)

Lemma slice_to_negative_length {A} (n : Z) (l : list A) :
  n < 0 → length (slice_to n l) = Z.to_nat (Z.of_nat (length l) + n).
Proof.
  intros Hn. unfold slice_to. rewrite (proj2 (Z.ltb_lt n 0) Hn).
  rewrite length_take. lia.
Qed.

(** * The specification, statement by statement *)

(** picks the value a closed computation returns *)
Ltac exists_computed :=
  lazymatch goal with
  | |- ∃ x, ?lhs = Some x ∧ _ =>
      let r := eval vm_compute in lhs in
      lazymatch r with Some ?v => exists v end
  end.

(** ** C1: shown and total tokens *)

(** C1 (amended). On a snapshot that is a forest, with a stack deep enough
    for it, the budgeted view is built and its header shows shownTokens,
    the sum over the shown records and the nodes counted under them, and
    totalTokens, the sum over every record body and every node content,
    with [shownTokens <= totalTokens].  Every record that is not shown and
    every node that is not counted fits in the difference with its own
    estimate: the two figures are equal only when whatever was capped or
    hidden has an estimate of zero tokens. *)
Theorem C1_shown_tokens_le_total `{rt : Runtime}
    fuel agent prefix_labels rows all_nodes cfg t :
  forest rows all_nodes → deep_enough fuel all_nodes →
  let data := load_all_data rows all_nodes in
  let sel := compute_v2_selection data.1.1 data.1.2 cfg t in
  let marked :=
    (λ r, Entry.set_promoted (bool_decide (Entry.id r ∈ promotedIds sel.1)) r)
      <$> data.1.1 in
  let shown :=
    filter (λ e, Entry.id e ∈ visibleIds sel.1) marked ++ visibleObsolete sel.1 in
  let counted := result_of (counted_nodes fuel shown data.2 (Some cfg)) sel.2 in
  let total_tok := count_all_tokens marked data.1.2 data.2 in
  ∃ shown_tok,
    result_of (count_shown_tokens fuel shown data.2 (Some cfg)) sel.2 = Some shown_tok
    ∧ (rows ≠ [] →
       ∃ n_shown n_total kids,
         result_of (rebuild_tree fuel agent true prefix_labels cfg rows all_nodes) t
         = Some (Branch (LRootV2 agent n_shown n_total shown_tok total_tok) kids))
    ∧ (shown_tok ≤ total_tok)%nat
    ∧ (∀ e, e ∈ rows → Entry.id e ∉ Entry.id <$> shown →
            (shown_tok + entry_tokens e ≤ total_tok)%nat)
    ∧ (∀ n, n ∈ all_nodes → n ∉ counted →
            (shown_tok + node_tokens n ≤ total_tok)%nat).
Proof.
  intros wf deep data sel marked shown counted total_tok.
  destruct (shown_tokens_accounting fuel rows all_nodes cfg t wf deep)
    as (shown_tok & Hcount & Hle & Hentries & Hnodes).
  exists shown_tok. split; [done|]. split; [|done].
  intros Hrows.
  destruct (_build_v2_tree_root rows all_nodes fuel wf deep agent
              _ _ prefix_labels cfg t (rows_ids_in rows) shown_tok Hcount)
    as [kids Hroot].
  eexists _, _, kids. unfold result_of, rebuild_tree, load_all_data. simpl.
  rewrite rows_nonempty by done. exact Hroot.
Qed.

(** C1, as stated, fails in its second half.  Of two records the older one,
    whose body "abc" is under four characters, is capped away by
    [topNewestCount = 1]; the header reads 1/2 shown and 3/3 tokens: the two
    figures are equal although a record is hidden. *)
Lemma C1_counterexample :
  let rt := Reference.runtime Reference.ticking in
  let a := Sample.entry "P0001" "P" 1 (Some "2025-12-02T08:00:00Z") 0 0 0 "Deploy pipeline" in
  let b := Sample.entry "P0002" "P" 2 (Some "2025-12-01T08:00:00Z") 0 0 0 "abc" in
  ("P0002"%string ∉
     visibleIds (result_of (compute_v2_selection [a; b] [] (Sample.caps 1 0 0)) 0%nat))
  ∧ result_of (rebuild_tree 8 "THOR" true ∅ (Sample.caps 1 0 0) [a; b] []) 0%nat
    = Some (Branch (LRootV2 "THOR" 1 2 3 3)
              [Branch (LGroup "P" "P" 1 (Some 2%nat))
                 [Leaf (LEntry (Entry.set_promoted false a) true)]]).
Proof.
  intros rt a b. split.
  - apply (bool_decide_unpack _). vm_compute. exact I.
  - vm_compute. reflexivity.
Qed.

Lemma C1_shown_tokens_le_total_witness :
  let rt := Reference.runtime Reference.ticking in
  let cfg := Sample.caps 1 1 1 in
  let data := load_all_data Sample.rows Sample.all_nodes in
  let sel := compute_v2_selection data.1.1 data.1.2 cfg 0%nat in
  let marked :=
    (λ r, Entry.set_promoted (bool_decide (Entry.id r ∈ promotedIds sel.1)) r)
      <$> data.1.1 in
  let shown :=
    filter (λ e, Entry.id e ∈ visibleIds sel.1) marked ++ visibleObsolete sel.1 in
  let counted := result_of (counted_nodes 8 shown data.2 (Some cfg)) sel.2 in
  let total_tok := count_all_tokens marked data.1.2 data.2 in
  ∃ shown_tok,
    result_of (count_shown_tokens 8 shown data.2 (Some cfg)) sel.2 = Some shown_tok
    ∧ (Sample.rows ≠ [] →
       ∃ n_shown n_total kids,
         result_of (rebuild_tree 8 "THOR" true ∅ cfg Sample.rows Sample.all_nodes) 0%nat
         = Some (Branch (LRootV2 "THOR" n_shown n_total shown_tok total_tok) kids))
    ∧ (shown_tok ≤ total_tok)%nat
    ∧ (∀ e, e ∈ Sample.rows → Entry.id e ∉ Entry.id <$> shown →
            (shown_tok + entry_tokens e ≤ total_tok)%nat)
    ∧ (∀ n, n ∈ Sample.all_nodes → n ∉ counted →
            (shown_tok + node_tokens n ≤ total_tok)%nat).
Proof.
  intros rt cfg.
  apply (C1_shown_tokens_le_total (rt := rt) 8 "THOR" ∅ Sample.rows Sample.all_nodes
           cfg 0%nat).
  - apply forest_intro; apply (bool_decide_unpack _); vm_compute; exact I.
  - apply deep_enough_intro; apply (bool_decide_unpack _); vm_compute; exact I.
Defined.

(** ** C2: where capping applies *)




(** ** C3: the fallback of the score *)




(** ** C4: the two channels *)

(** C4 (amended). Within one prefix the newest channel ranks the records by
    [created_at] in descending order and the accessed channel ranks the
    records with [access_count > 0] by score in descending order; in both,
    records that tie keep the order in which they were loaded.  With
    non-negative caps each channel takes the first [min(available, cap)]
    records of its ranking, which holds every eligible record once. *)
Theorem C4_channels `{rt : Runtime}
    (cfg : V2Config) (entries : list Entry.t) (t : nat) :
  0 ≤ topNewestCount cfg → 0 ≤ topAccessCount cfg →
  let eligible := filter (λ e, 0 < Entry.access_count e) entries in
  (∃ ranked,
     is_ranking String.leb ((λ e, or_empty (Entry.created_at e)) <$> entries)
                entries ranked
     ∧ slice_to (topNewestCount cfg) (newest entries)
       = take (length entries `min` Z.to_nat (topNewestCount cfg)) ranked.*2
     ∧ length (slice_to (topNewestCount cfg) (newest entries))
       = (length entries `min` Z.to_nat (topNewestCount cfg))%nat)
  ∧ (∃ ranked,
       is_ranking float_le (result_of (mapC weighted_access_score eligible) t)
                  eligible ranked
       ∧ result_of (most_accessed cfg entries) t
         = take (length eligible `min` Z.to_nat (topAccessCount cfg)) ranked.*2
       ∧ length (result_of (most_accessed cfg entries) t)
         = (length eligible `min` Z.to_nat (topAccessCount cfg))%nat).
Proof.
  intros Hnew Hacc eligible. split.
  - eexists. split; [apply sort_desc_ranking, string_leb_total|].
    assert (Hlen : length (newest entries) = length entries)
      by (unfold newest; by rewrite sorted_reverse_perm).
    split.
    + rewrite slice_to_nonneg by done. fold (newest entries).
      unfold newest, sorted_reverse in *. by rewrite <- Hlen, take_min_length.
    + by rewrite slice_to_length, Hlen.
  - unfold most_accessed, sorted_reverseM, result_of, bind, ret. fold eligible.
    pose proof (mapC_length weighted_access_score eligible t) as Hlen.
    destruct (mapC weighted_access_score eligible t) as [scores t']. simpl in *.
    eexists. split; [apply sort_desc_ranking, float_le_total|].
    assert (Hlen' : length (sort_desc float_le (zip scores eligible)).*2
                    = length eligible).
    { by rewrite sort_desc_keys_perm. }
    split.
    + rewrite slice_to_nonneg by done. by rewrite <- Hlen', take_min_length.
    + by rewrite slice_to_length, Hlen'.
Qed.

(** C4, as stated, fails on ties.  Two records created at the same instant:
    the code keeps the one loaded first, the lower sequence number, where
    the specification's wording picks the higher.  Two accessed records
    that both score [0.0] (empty timestamp): the code keeps the one loaded
    first, where the wording picks the higher access count. *)
Lemma C4_counterexample :
  let rt := Reference.runtime Reference.ticking in
  let a := Sample.entry "P0001" "P" 1 (Some "2025-12-01T08:00:00Z") 0 0 0 "first" in
  let b := Sample.entry "P0002" "P" 2 (Some "2025-12-01T08:00:00Z") 0 0 0 "second" in
  let c := Sample.entry "P0003" "P" 3 (Some "") 1 0 0 "read once" in
  let d := Sample.entry "P0004" "P" 4 (Some "") 5 0 0 "read five times" in
  (slice_to 1 (newest [a; b]) = [a] ∧ spec_newest_channel 1 [a; b] = [b])
  ∧ (result_of (most_accessed (Sample.caps 1 1 0) [c; d]) 0%nat = [c]
     ∧ result_of (spec_accessed_channel 1 [c; d]) 0%nat = [d]).
Proof. vm_compute. repeat split; reflexivity. Qed.

Lemma C4_channels_witness :
  let rt := Reference.runtime Reference.ticking in
  let entries := [Sample.p1; Sample.p2; Sample.p3] in
  let cfg := Sample.caps 2 1 0 in
  let eligible := filter (λ e, 0 < Entry.access_count e) entries in
  (∃ ranked,
     is_ranking String.leb ((λ e, or_empty (Entry.created_at e)) <$> entries)
                entries ranked
     ∧ slice_to (topNewestCount cfg) (newest entries)
       = take (length entries `min` Z.to_nat (topNewestCount cfg)) ranked.*2
     ∧ length (slice_to (topNewestCount cfg) (newest entries))
       = (length entries `min` Z.to_nat (topNewestCount cfg))%nat)
  ∧ (∃ ranked,
       is_ranking float_le (result_of (mapC weighted_access_score eligible) 0%nat)
                  eligible ranked
       ∧ result_of (most_accessed cfg entries) 0%nat
         = take (length eligible `min` Z.to_nat (topAccessCount cfg)) ranked.*2
       ∧ length (result_of (most_accessed cfg entries) 0%nat)
         = (length eligible `min` Z.to_nat (topAccessCount cfg))%nat).
Proof.
  intros rt entries cfg.
  apply (C4_channels (rt := rt) cfg entries 0%nat).
  - vm_compute. discriminate.
  - vm_compute. discriminate.
Defined.

(** ** C5: favorites *)

(** C5. Every active record whose favorite flag is set is in visibleIds,
    whatever the caps are, [topNewestCount = topAccessCount = 0]
    included. *)
Theorem C5_favorites_always_visible `{rt : Runtime}
    (active obsolete : list Entry.t) (cfg : V2Config) (t : nat) (e : Entry.t) :
  e ∈ active → Entry.favorite e ≠ 0 →
  Entry.id e ∈ visibleIds (result_of (compute_v2_selection active obsolete cfg) t).
Proof.
  intros Hin Hfav. unfold result_of, compute_v2_selection, bind, ret.
  destruct (foldlC _ _ _ t) as [[exp prom] t1].
  destruct (sorted_reverseM _ _ _ t1) as [by_score t2]. simpl.
  unfold visibleIds. simpl. apply elem_of_add_ids. right.
  apply list_elem_of_fmap. exists e. split; [done|].
  by apply list_elem_of_filter.
Qed.

Lemma C5_favorites_always_visible_witness :
  "P0003"%string ∈
    visibleIds (result_of
      (compute_v2_selection (rt := Reference.runtime Reference.ticking)
         [Sample.l1; Sample.p1; Sample.p2; Sample.p3] [Sample.o1] (Sample.caps 0 0 0))
      0%nat).
Proof.
  apply (C5_favorites_always_visible (rt := Reference.runtime Reference.ticking)
           [Sample.l1; Sample.p1; Sample.p2; Sample.p3] [Sample.o1] (Sample.caps 0 0 0)
           0%nat Sample.p3).
  - apply (bool_decide_unpack _). vm_compute. exact I.
  - vm_compute. discriminate.
Defined.

(** ** C6: capping of a root's children *)

(** C6 (amended). For the direct children of a root record, [C] of them:
    if [C <= topNewestCount] all are visible and nothing is hidden;
    otherwise a child is visible exactly when it is among the first
    [topNewestCount] by [created_at] descending or among the first
    [topAccessCount] of those with [access_count > 0] by score descending.
    The hidden count is [C] minus the number of visible children and is
    never negative.  When at least one child is visible, the lines under
    the record are the visible children, in their order, followed by the
    one marker naming the record when the hidden count is positive.
    Children of nodes are not capped: under every displayed node all its
    children of the snapshot are displayed, in their order, with no
    marker. *)
Theorem C6_root_children_capped `{rt : Runtime}
    (fuel : nat) (entry : Entry.t) (children_map : list (string * list Node.t))
    (v2_mode : bool) (cfg : V2Config) (t : nat) (tree : Tree) :
  let children := dict_get (Entry.id entry) children_map in
  NoDup (Node.id <$> children) →
  result_of (add_entry_to_tree fuel entry children_map v2_mode (Some cfg)) t = Some tree →
  ∃ visible hidden,
    visible `sublist_of` children
    ∧ hidden = Z.of_nat (length children) - Z.of_nat (length visible)
    ∧ 0 ≤ hidden
    ∧ (Z.of_nat (length children) ≤ topNewestCount cfg →
       visible = children ∧ hidden = 0)
    ∧ (topNewestCount cfg < Z.of_nat (length children) →
       ∀ c, c ∈ visible
            ↔ c ∈ top_newest cfg children ∨ c ∈ result_of (top_accessed cfg children) t)
    ∧ (visible ≠ [] →
       root_label <$> tree_kids tree
       = (LNode <$> visible)
         ++ if 0 <? hidden then [LMore hidden (Entry.id entry)] else [])
    ∧ Forall (uncapped children_map) (tree_kids tree).
Proof.
  intros children Hnd. unfold result_of. rewrite add_entry_to_tree_run. simpl.
  fold children. intros Htree.
  pose proof (visible_children_sublist (Some cfg) children t) as Hsub.
  eexists (visible_children (Some cfg) children t).1, _.
  split; [done|]. split; [reflexivity|]. split; [apply sublist_length in Hsub; lia|].
  split; [|split; [|split]].
  - intros Hle. unfold visible_children, caps.
    rewrite (proj2 (Z.ltb_ge _ _) Hle), andb_false_r. simpl. split; [done|lia].
  - intros Hlt c. unfold visible_children, caps.
    rewrite (proj2 (Z.ltb_lt _ _) Hlt), andb_true_r.
    pose proof (top_newest_subseteq cfg children) as Hn.
    pose proof (top_accessed_subseteq cfg children t) as Ha.
    destruct (nonempty children) eqn:Hne; simpl.
    + by apply select_children_union.
    + apply nonempty_false in Hne. split.
      * rewrite Hne. by intros ?%elem_of_nil.
      * intros [Hc%Hn|Hc%Ha]; rewrite Hne in Hc; by apply elem_of_nil in Hc.
  - intros Hne. destruct (nonempty _) eqn:Hnon in Htree;
      [|by apply nonempty_false in Hnon].
    destruct (mapM _ _) as [kids|] eqn:Hkids in Htree; [|done].
    simpl in Htree. injection Htree as <-. simpl.
    apply add_node_to_tree_labels in Hkids as [Hlabels _].
    rewrite fmap_app, Hlabels. f_equal. by destruct (0 <? _).
  - destruct (nonempty _) in Htree; [|by injection Htree as <-; constructor].
    destruct (mapM _ _) as [kids|] eqn:Hkids in Htree; [|done].
    simpl in Htree. injection Htree as <-. simpl.
    apply add_node_to_tree_labels in Hkids as [_ Hun].
    apply Forall_app. split; [done|]. destruct (0 <? _); by repeat constructor.
Qed.

(** C6, as stated, fails.  It speaks of each parent: the node P0001.1 has
    two children and [topNewestCount = 1], yet both are displayed under it
    and no marker follows them.  And at a root the marker can be missing:
    with both caps at 0 the three children of P0001 are hidden, the record
    is displayed as a leaf and no marker tells of them. *)
Lemma C6_counterexample :
  let rt := Reference.runtime Reference.ticking in
  (dict_get "P0001.1" Sample.children_map = [Sample.n11; Sample.n12]
   ∧ topNewestCount (Sample.caps 1 0 0) < 2
   ∧ add_node_to_tree 8 Sample.n1 Sample.children_map
     = Some (Branch (LNode Sample.n1)
               [Leaf (LNode Sample.n11); Leaf (LNode Sample.n12)]))
  ∧ (result_of (visible_children (Some (Sample.caps 0 0 0))
                  (dict_get "P0001" Sample.children_map)) 0%nat = []
     ∧ length (dict_get "P0001" Sample.children_map) = 3%nat
     ∧ result_of (add_entry_to_tree 8 Sample.p1 Sample.children_map true
                    (Some (Sample.caps 0 0 0))) 0%nat
       = Some (Leaf (LEntry Sample.p1 true))).
Proof. vm_compute. repeat split; reflexivity. Qed.

Lemma C6_root_children_capped_witness :
  let rt := Reference.runtime Reference.ticking in
  let cfg := Sample.caps 1 1 0 in
  let children := dict_get "P0001"%string Sample.children_map in
  ∃ tree,
    result_of (add_entry_to_tree 8 Sample.p1 Sample.children_map true (Some cfg)) 0%nat
    = Some tree
    ∧ ∃ visible hidden,
        visible `sublist_of` children
        ∧ hidden = Z.of_nat (length children) - Z.of_nat (length visible)
        ∧ 0 ≤ hidden
        ∧ (Z.of_nat (length children) ≤ topNewestCount cfg →
           visible = children ∧ hidden = 0)
        ∧ (topNewestCount cfg < Z.of_nat (length children) →
           ∀ c, c ∈ visible
                ↔ c ∈ top_newest cfg children
                  ∨ c ∈ result_of (top_accessed cfg children) 0%nat)
        ∧ (visible ≠ [] →
           root_label <$> tree_kids tree
           = (LNode <$> visible)
             ++ if 0 <? hidden then [LMore hidden "P0001"] else [])
        ∧ Forall (uncapped Sample.children_map) (tree_kids tree).
Proof.
  intros rt cfg children. exists_computed. split; [vm_compute; reflexivity|].
  apply (C6_root_children_capped (rt := rt) 8 Sample.p1 Sample.children_map true
           cfg 0%nat).
  - apply (bool_decide_unpack _). vm_compute. exact I.
  - vm_compute. reflexivity.
Defined.

(** ** C7: dangling parents *)

(** C7 (amended). A node that references a parent that does not exist is
    not reported.  A snapshot without records gives the ordinary empty
    result whatever nodes it holds; and with records, the view returned for
    a snapshot with such a node has, under its header, the lines of the
    view of the snapshot without the node, and fails only if that one
    does. *)
Theorem C7_dangling_parent_not_reported `{rt : Runtime}
    fuel agent v2_mode prefix_labels cfg :
  (∀ nodes t,
     rebuild_tree fuel agent v2_mode prefix_labels cfg [] nodes t
     = (Some (Branch (LRootEmpty agent) [Leaf LNoMemories]), t))
  ∧ (∀ rows l1 o l2 t,
       dangling rows (l1 ++ l2) o →
       tree_kids
         <$> result_of (rebuild_tree fuel agent v2_mode prefix_labels cfg rows
                          (l1 ++ o :: l2)) t
       = tree_kids
           <$> result_of (rebuild_tree fuel agent v2_mode prefix_labels cfg rows
                            (l1 ++ l2)) t).
Proof.
  split; [done|]. intros rows l1 o l2 t Hd.
  unfold result_of. rewrite rebuild_tree_dangling by done. simpl.
  destruct (rebuild_tree _ _ _ _ _ rows (l1 ++ l2) t).1 as [tree|]; [|done].
  simpl. f_equal. destruct tree as [l|l kids]; [done|]. by destruct l.
Qed.

(** C7, as stated, fails: a store that holds nothing but a node under a
    record that does not exist is answered with the ordinary empty result,
    the very answer an empty store gets; beside records, such a node lets
    the view be built as usual. *)
Lemma C7_counterexample :
  let rt := Reference.runtime Reference.ticking in
  dangling [] [] Sample.lost
  ∧ rebuild_tree 8 "THOR" true ∅ DEFAULT_V2_CONFIG [] [Sample.lost] 0%nat
    = (Some (Branch (LRootEmpty "THOR") [Leaf LNoMemories]), 0%nat)
  ∧ rebuild_tree 8 "THOR" true ∅ DEFAULT_V2_CONFIG [] [Sample.lost] 0%nat
    = rebuild_tree 8 "THOR" true ∅ DEFAULT_V2_CONFIG [] [] 0%nat
  ∧ dangling Sample.rows Sample.all_nodes Sample.lost
  ∧ is_Some (result_of (rebuild_tree 8 "THOR" true ∅ DEFAULT_V2_CONFIG Sample.rows
                          (Sample.all_nodes ++ [Sample.lost])) 0%nat).
Proof.
  intros rt. split; [|split; [|split; [|split]]].
  - unfold dangling. apply (bool_decide_unpack _). vm_compute. exact I.
  - vm_compute. reflexivity.
  - vm_compute. reflexivity.
  - unfold dangling. apply (bool_decide_unpack _). vm_compute. exact I.
  - apply (bool_decide_unpack _). vm_compute. exact I.
Qed.

Lemma C7_dangling_parent_not_reported_witness :
  let rt := Reference.runtime Reference.ticking in
  rebuild_tree 8 "THOR" true ∅ DEFAULT_V2_CONFIG [] [Sample.lost] 0%nat
  = (Some (Branch (LRootEmpty "THOR") [Leaf LNoMemories]), 0%nat)
  ∧ tree_kids
      <$> result_of (rebuild_tree 8 "THOR" true ∅ DEFAULT_V2_CONFIG Sample.rows
                       (Sample.all_nodes ++ Sample.lost :: [])) 0%nat
    = tree_kids
        <$> result_of (rebuild_tree 8 "THOR" true ∅ DEFAULT_V2_CONFIG Sample.rows
                         (Sample.all_nodes ++ [])) 0%nat.
Proof.
  intros rt.
  destruct (C7_dangling_parent_not_reported (rt := rt) 8 "THOR" true ∅ DEFAULT_V2_CONFIG)
    as [Hempty Hsame].
  split; [apply Hempty|]. apply Hsame.
  unfold dangling. apply (bool_decide_unpack _). vm_compute. exact I.
Defined.

(** ** C8: determinism *)

(** C8 (amended). Selection is a deterministic function of the snapshot, the
    configuration and the times the clock shows: when the readings a run of
    the selection makes show the times the readings of another run on the
    same snapshot with the same configuration show, the two runs yield
    identical visibleIds, promotedIds and visibleObsolete, after the same
    number of readings.  What the clock shows before or after the runs does
    not matter. *)
Theorem C8_selection_deterministic `{rt : Runtime}
    (active obsolete : list Entry.t) (cfg : V2Config) (t1 t2 : nat) :
  same_readings_during (readings (compute_v2_selection active obsolete cfg) t1) t1 t2 →
  result_of (compute_v2_selection active obsolete cfg) t1
  = result_of (compute_v2_selection active obsolete cfg) t2
  ∧ readings (compute_v2_selection active obsolete cfg) t2
    = readings (compute_v2_selection active obsolete cfg) t1.
Proof.
  intros Hsame.
  destruct (local_compute_v2_selection active obsolete cfg t1 t2) as [_ Hrun].
  destruct (Hrun Hsame) as [Heq Hend]. split; [done|].
  unfold readings at 1. rewrite Hend. lia.
Qed.

(** C8, as stated, fails: the score reads the wall clock.  P0001, read 10
    times and created on 2026-01-01, and P0002, read 11 times and created
    the day before, are ranked on 2026-01-01 (10 / log2 2 against
    11 / log2 3) and again a thousand days later (10 / log2 1002 against
    11 / log2 1003): the first run promotes P0001, the second P0002, on the
    same snapshot with the same configuration. *)
Lemma C8_counterexample :
  let rt := Reference.runtime Reference.two_sessions in
  let a := Sample.entry "P0001" "P" 1 (Some "2026-01-01T00:00:00Z") 10 0 0 "today" in
  let b := Sample.entry "P0002" "P" 2 (Some "2025-12-31T00:00:00Z") 11 0 0 "yesterday" in
  let first := compute_v2_selection [a; b] [] (Sample.caps 0 1 0) 0%nat in
  let second := compute_v2_selection [a; b] [] (Sample.caps 0 1 0) first.2 in
  elements (promotedIds first.1) = ["P0001"%string]
  ∧ elements (promotedIds second.1) = ["P0002"%string]
  ∧ elements (visibleIds first.1) = ["P0001"%string]
  ∧ elements (visibleIds second.1) = ["P0002"%string].
Proof. vm_compute. repeat split; reflexivity. Qed.

(** two runs on a clock that moves on after its twentieth reading: the
    first from reading 0, the second from reading 10 *)
Lemma C8_selection_deterministic_witness :
  let rt := Reference.runtime Reference.stepping in
  let selection :=
    compute_v2_selection [Sample.l1; Sample.p1; Sample.p2; Sample.p3]
      [Sample.o1] (Sample.caps 1 1 1) in
  clock 0%nat ≠ clock 20%nat
  ∧ readings selection 0%nat = 3%nat
  ∧ result_of selection 0%nat = result_of selection 10%nat
  ∧ readings selection 10%nat = readings selection 0%nat.
Proof.
  intros rt selection.
  split; [vm_compute; discriminate|]. split; [vm_compute; reflexivity|].
  apply (C8_selection_deterministic (rt := rt)
           [Sample.l1; Sample.p1; Sample.p2; Sample.p3] [Sample.o1]
           (Sample.caps 1 1 1) 0%nat 10%nat).
  intros i Hi. change (readings _ _) with 3%nat in Hi.
  do 3 (destruct i as [|i]; [reflexivity|]). lia.
Defined.

(** ** C9: monotonicity in topNewestCount *)

(** C9 (amended). With the snapshot and the other two caps fixed, raising a
    non-negative [topNewestCount] never removes an id from visibleIds,
    provided the clock shows the same times during the two runs of the
    selection. *)
Theorem C9_topNewest_monotone `{rt : Runtime}
    (active obsolete : list Entry.t) (cfg1 cfg2 : V2Config) (t1 t2 : nat) :
  topAccessCount cfg1 = topAccessCount cfg2 →
  topObsoleteCount cfg1 = topObsoleteCount cfg2 →
  0 ≤ topNewestCount cfg1 →
  topNewestCount cfg1 ≤ topNewestCount cfg2 →
  same_readings_during (readings (compute_v2_selection active obsolete cfg1) t1) t1 t2 →
  visibleIds (result_of (compute_v2_selection active obsolete cfg1) t1)
  ⊆ visibleIds (result_of (compute_v2_selection active obsolete cfg2) t2).
Proof.
  intros Hacc Hobs H0 Hle Hsame.
  destruct (local_compute_v2_selection active obsolete cfg1 t1 t2) as [_ Hrun].
  destruct (Hrun Hsame) as [Heq _]. unfold result_of. rewrite Heq. clear Heq Hrun Hsame.
  unfold compute_v2_selection, bind, ret.
  destruct (foldlC_select_mono cfg1 cfg2 (group_by Entry.prefix active) ∅ ∅ ∅ t2)
    as (e1 & e2 & p & t' & H1 & H2 & Hsub); [done|lia|done|].
  rewrite H1, H2.
  destruct (sorted_reverseM _ _ _ t') as [by_score t'']. unfold visibleIds. simpl.
  by apply add_ids_mono.
Qed.

(** C9, as stated, fails, in two ways.  A cap may be negative, no code
    checks it, and [newest[:-1]] holds more than [newest[:0]]: raising
    [topNewestCount] from -1 to 0 removes P0002 from visibleIds.  And the
    score reads the clock: of two records ranked a thousand days apart,
    the first run promotes P0001 and the second, with [topNewestCount]
    raised from 0 to 1, shows P0003 and P0002 instead. *)
Lemma C9_counterexample :
  (let rt := Reference.runtime Reference.frozen in
   let low := compute_v2_selection [Sample.p1; Sample.p2] [] (Sample.caps (-1) 0 0) in
   let high := compute_v2_selection [Sample.p1; Sample.p2] [] (Sample.caps 0 0 0) in
   elements (visibleIds (result_of low 0%nat)) = ["P0002"%string]
   ∧ elements (visibleIds (result_of high 0%nat)) = [])
  ∧ (let rt := Reference.runtime Reference.two_sessions in
     let a := Sample.entry "P0001" "P" 1 (Some "2026-01-01T00:00:00Z") 10 0 0 "today" in
     let b := Sample.entry "P0002" "P" 2 (Some "2025-12-31T00:00:00Z") 11 0 0 "yesterday" in
     let c := Sample.entry "P0003" "P" 3 (Some "2026-01-02T00:00:00Z") 0 0 0 "tomorrow" in
     let first := compute_v2_selection [a; b; c] [] (Sample.caps 0 1 0) 0%nat in
     let second := compute_v2_selection [a; b; c] [] (Sample.caps 1 1 0) first.2 in
     "P0001"%string ∈ visibleIds first.1
     ∧ "P0001"%string ∉ visibleIds second.1).
Proof.
  split.
  - vm_compute. split; reflexivity.
  - split; apply (bool_decide_unpack _); vm_compute; exact I.
Qed.

Lemma C9_topNewest_monotone_witness :
  let rt := Reference.runtime Reference.stepping in
  visibleIds (result_of
    (compute_v2_selection [Sample.l1; Sample.p1; Sample.p2; Sample.p3] [Sample.o1]
       (Sample.caps 1 1 1)) 0%nat)
  ⊆ visibleIds (result_of
    (compute_v2_selection [Sample.l1; Sample.p1; Sample.p2; Sample.p3] [Sample.o1]
       (Sample.caps 2 1 1)) 10%nat).
Proof.
  intros rt.
  apply (C9_topNewest_monotone (rt := rt)
           [Sample.l1; Sample.p1; Sample.p2; Sample.p3] [Sample.o1]
           (Sample.caps 1 1 1) (Sample.caps 2 1 1) 0%nat 10%nat).
  - reflexivity.
  - reflexivity.
  - vm_compute. discriminate.
  - vm_compute. discriminate.
  - intros i Hi. change (readings _ _) with 3%nat in Hi.
    do 3 (destruct i as [|i]; [reflexivity|]). lia.
Defined.

(** ** C10: orphan nodes *)

(** C10. A node whose [parent_id] is the id of no record and of no other
    node is counted in totalTokens; it is not counted in shownTokens; the
    full view and the budgeted view are those of the snapshot without the
    node, apart from the totalTokens of the header, so the node raises no
    error; no line of either view displays it; and when the snapshot, the
    node included, is a forest and the stack deep enough for it, both views
    are built. *)
Theorem C10_dangling_node_counted_not_shown `{rt : Runtime}
    fuel agent v2_mode prefix_labels cfg rows l1 o l2 t :
  dangling rows (l1 ++ l2) o →
  let with_o := load_all_data rows (l1 ++ o :: l2) in
  let without := load_all_data rows (l1 ++ l2) in
  count_all_tokens with_o.1.1 with_o.1.2 with_o.2
  = (count_all_tokens without.1.1 without.1.2 without.2 + node_tokens o)%nat
  ∧ (∀ shown v2_config,
       Entry.id <$> shown ⊆ Entry.id <$> rows →
       count_shown_tokens fuel shown with_o.2 v2_config t
       = count_shown_tokens fuel shown without.2 v2_config t)
  ∧ (∃ total_tok,
       rebuild_tree fuel agent v2_mode prefix_labels cfg rows (l1 ++ o :: l2) t
       = (with_total_tok total_tok
            <$> (rebuild_tree fuel agent v2_mode prefix_labels cfg rows (l1 ++ l2) t).1,
          (rebuild_tree fuel agent v2_mode prefix_labels cfg rows (l1 ++ l2) t).2))
  ∧ (∀ tree,
       result_of (rebuild_tree fuel agent v2_mode prefix_labels cfg rows (l1 ++ o :: l2)) t
       = Some tree →
       LNode o ∉ tree_labels tree)
  ∧ (forest rows (l1 ++ o :: l2) → deep_enough fuel (l1 ++ o :: l2) →
     is_Some (result_of (rebuild_tree fuel agent v2_mode prefix_labels cfg rows
                           (l1 ++ o :: l2)) t)).
Proof.
  intros Hd with_o without.
  destruct (dangling_agree rows l1 o l2 Hd) as [Hagree Hids].
  split; [|split; [|split; [|split]]].
  - subst with_o without. rewrite !count_all_tokens_load, !sum_list_with_app. simpl.
    unfold node_tokens. lia.
  - intros shown v2_config Hshown.
    apply count_shown_tokens_agree with (bad := Node.parent_id o); [done..|].
    intros e He Heq. apply (proj1 Hd). rewrite <- Heq.
    apply Hshown. by apply list_elem_of_fmap_2.
  - eexists. by apply rebuild_tree_dangling.
  - intros tree. unfold result_of. rewrite rebuild_tree_dangling by done. simpl.
    destruct (rebuild_tree _ _ _ _ _ rows (l1 ++ l2) t) as [[tree'|] t'] eqn:Hrun;
      [|done].
    simpl. intros [= <-].
    apply rebuild_tree_label_ok with (bad := Node.parent_id o) in Hrun;
      [|apply Hd..].
    apply (tree_labels_with_total_tok _
             (sum_list_with entry_tokens rows
              + sum_list_with node_tokens (l1 ++ o :: l2))) in Hrun; [|done..].
    intros Hin. eapply Forall_forall in Hrun; [|exact Hin]. by apply Hrun.
  - intros wf deep. by apply rebuild_tree_is_Some.
Qed.

Lemma C10_dangling_node_counted_not_shown_witness :
  let rt := Reference.runtime Reference.ticking in
  let with_o := load_all_data Sample.rows (Sample.all_nodes ++ Sample.lost :: []) in
  let without := load_all_data Sample.rows (Sample.all_nodes ++ []) in
  count_all_tokens with_o.1.1 with_o.1.2 with_o.2
  = (count_all_tokens without.1.1 without.1.2 without.2 + node_tokens Sample.lost)%nat
  ∧ (∀ shown v2_config,
       Entry.id <$> shown ⊆ Entry.id <$> Sample.rows →
       count_shown_tokens 8 shown with_o.2 v2_config 0%nat
       = count_shown_tokens 8 shown without.2 v2_config 0%nat)
  ∧ (∃ total_tok,
       rebuild_tree 8 "THOR" true ∅ DEFAULT_V2_CONFIG Sample.rows
         (Sample.all_nodes ++ Sample.lost :: []) 0%nat
       = (with_total_tok total_tok
            <$> (rebuild_tree 8 "THOR" true ∅ DEFAULT_V2_CONFIG Sample.rows
                   (Sample.all_nodes ++ []) 0%nat).1,
          (rebuild_tree 8 "THOR" true ∅ DEFAULT_V2_CONFIG Sample.rows
             (Sample.all_nodes ++ []) 0%nat).2))
  ∧ (∀ tree,
       result_of (rebuild_tree 8 "THOR" true ∅ DEFAULT_V2_CONFIG Sample.rows
                    (Sample.all_nodes ++ Sample.lost :: [])) 0%nat
       = Some tree →
       LNode Sample.lost ∉ tree_labels tree)
  ∧ (forest Sample.rows (Sample.all_nodes ++ Sample.lost :: []) →
     deep_enough 8 (Sample.all_nodes ++ Sample.lost :: []) →
     is_Some (result_of (rebuild_tree 8 "THOR" true ∅ DEFAULT_V2_CONFIG Sample.rows
                           (Sample.all_nodes ++ Sample.lost :: [])) 0%nat)).
Proof.
  intros rt.
  apply (C10_dangling_node_counted_not_shown (rt := rt) 8 "THOR" true ∅
           DEFAULT_V2_CONFIG Sample.rows Sample.all_nodes Sample.lost [] 0%nat).
  unfold dangling. apply (bool_decide_unpack _). vm_compute. exact I.
Defined.

(** * Further properties of the code *)

(** ** Selection *)

(** X1. In the result of [compute_v2_selection] every promoted id is
    a visible id, every visible id is the id of an active record, and every
    promoted id is the id of an active record with [access_count > 0]. *)
Theorem selection_ids_of_active `{rt : Runtime}
    (active obsolete : list Entry.t) (cfg : V2Config) (t : nat) :
  let r := result_of (compute_v2_selection active obsolete cfg) t in
  promotedIds r ⊆ visibleIds r
  ∧ (∀ i, i ∈ visibleIds r → i ∈ Entry.id <$> active)
  ∧ (∀ i, i ∈ promotedIds r →
          ∃ e, e ∈ active ∧ Entry.id e = i ∧ 0 < Entry.access_count e).
Proof.
  intros r. subst r.
  destruct (compute_v2_selection_run active obsolete cfg t)
    as (accessed & Hall & Hvis & Hprom).
  split; [|split].
  - intros i. rewrite Hvis, Hprom. tauto.
  - intros i. rewrite Hvis, !list_elem_of_fmap.
    intros [(e & -> & He)|[(e & -> & He)|(e & -> & He)]]; exists e; split; try done.
    + by apply newest_slices_in_active in He.
    + by apply (accessed_in_active cfg active accessed) in He as [? _].
    + by apply list_elem_of_filter in He as [_ ?].
  - intros i. rewrite Hprom, list_elem_of_fmap. intros (e & -> & He).
    exists e. apply (accessed_in_active cfg active accessed) in He as [? ?]; done.
Qed.

(** X2. An active record whose category holds no more records than
    [topNewestCount] is visible, whatever its age and its access count. *)
Theorem small_category_entirely_visible `{rt : Runtime}
    (active obsolete : list Entry.t) (cfg : V2Config) (t : nat) (e : Entry.t) :
  e ∈ active →
  Z.of_nat (length (filter (λ x, Entry.prefix x = Entry.prefix e) active))
    ≤ topNewestCount cfg →
  Entry.id e ∈ visibleIds (result_of (compute_v2_selection active obsolete cfg) t).
Proof.
  intros He Hlen.
  destruct (compute_v2_selection_run active obsolete cfg t)
    as (accessed & _ & Hvis & _).
  apply Hvis. left. apply list_elem_of_fmap. exists e. split; [done|].
  apply list_elem_of_bind.
  exists (Entry.prefix e, dict_get (Entry.prefix e) (group_by Entry.prefix active)).
  split.
  - simpl. rewrite dict_get_group_by, slice_to_all.
    + unfold newest. rewrite sorted_reverse_perm. by apply list_elem_of_filter.
    + unfold newest. by rewrite sorted_reverse_perm.
  - apply dict_elem_get, group_by_keys, list_elem_of_fmap. by exists e.
Qed.

Lemma small_category_entirely_visible_witness :
  "L0001"%string ∈
    visibleIds (result_of
      (compute_v2_selection (rt := Reference.runtime Reference.ticking)
         [Sample.l1; Sample.p1; Sample.p2; Sample.p3] [Sample.o1] (Sample.caps 1 0 0))
      0%nat).
Proof.
  apply (small_category_entirely_visible (rt := Reference.runtime Reference.ticking)
           [Sample.l1; Sample.p1; Sample.p2; Sample.p3] [Sample.o1] (Sample.caps 1 0 0)
           0%nat Sample.l1).
  - apply (bool_decide_unpack _). vm_compute. exact I.
  - vm_compute. discriminate.
Defined.

(** X3. With [topNewestCount = 0] and [topAccessCount = 0] nothing
    is promoted and the visible ids are exactly the ids of the active
    favorites. *)
Theorem zero_caps_favorites_only `{rt : Runtime}
    (active obsolete : list Entry.t) (cfg : V2Config) (t : nat) :
  topNewestCount cfg = 0 → topAccessCount cfg = 0 →
  let r := result_of (compute_v2_selection active obsolete cfg) t in
  promotedIds r = ∅
  ∧ ∀ i, i ∈ visibleIds r
         ↔ ∃ e, e ∈ active ∧ Entry.favorite e ≠ 0 ∧ Entry.id e = i.
Proof.
  intros Hnew Hacc r. subst r.
  destruct (compute_v2_selection_run active obsolete cfg t)
    as (accessed & Hall & Hvis & Hprom).
  assert (Hnone : concat accessed = []).
  { apply nil_length_inv.
    pose proof (accessed_length cfg _ accessed ltac:(lia) Hall) as Hle.
    rewrite Hacc in Hle. simpl in Hle. lia. }
  assert (Hnewest : (group_by Entry.prefix active
                       ≫= λ g, slice_to (topNewestCount cfg) (newest g.2)) = []).
  { apply nil_length_inv.
    pose proof (newest_slices_length cfg (group_by Entry.prefix active) ltac:(lia)) as Hle.
    rewrite Hnew in Hle |- *. simpl in Hle. lia. }
  split.
  - apply set_eq. intros i. rewrite Hprom, Hnone. simpl.
    rewrite elem_of_nil, elem_of_empty. tauto.
  - intros i. rewrite Hvis, Hnone, Hnewest. simpl.
    rewrite !elem_of_nil, list_elem_of_fmap. split.
    + intros [[]|[[]|(e & -> & [? ?]%list_elem_of_filter)]]. by exists e.
    + intros (e & ? & ? & <-). right. right. exists e. split; [done|].
      by apply list_elem_of_filter.
Qed.

Lemma zero_caps_favorites_only_witness :
  let rt := Reference.runtime Reference.ticking in
  let r := result_of (compute_v2_selection [Sample.l1; Sample.p1; Sample.p2; Sample.p3]
                        [Sample.o1] (Sample.caps 0 0 3)) 0%nat in
  promotedIds r = ∅
  ∧ ∀ i, i ∈ visibleIds r
         ↔ ∃ e, e ∈ [Sample.l1; Sample.p1; Sample.p2; Sample.p3]
                ∧ Entry.favorite e ≠ 0 ∧ Entry.id e = i.
Proof.
  intros rt.
  apply (zero_caps_favorites_only (rt := rt) [Sample.l1; Sample.p1; Sample.p2; Sample.p3]
           [Sample.o1] (Sample.caps 0 0 3) 0%nat).
  - reflexivity.
  - reflexivity.
Defined.

(** X4. With non-negative caps, at most [topAccessCount] ids are
    promoted per category, and the visible ids number at most
    [topNewestCount + topAccessCount] per category plus the favorites. *)
Theorem selection_sizes `{rt : Runtime}
    (active obsolete : list Entry.t) (cfg : V2Config) (t : nat) :
  0 ≤ topNewestCount cfg → 0 ≤ topAccessCount cfg →
  let r := result_of (compute_v2_selection active obsolete cfg) t in
  let categories := size (list_to_set (Entry.prefix <$> active) : gset string) in
  (size (promotedIds r) ≤ categories * Z.to_nat (topAccessCount cfg))%nat
  ∧ (size (visibleIds r)
     ≤ categories * (Z.to_nat (topNewestCount cfg) + Z.to_nat (topAccessCount cfg))
       + length (filter (λ e, Entry.favorite e ≠ 0%Z) active))%nat.
Proof.
  intros Hnew Hacc r categories. subst r.
  destruct (compute_v2_selection_run active obsolete cfg t)
    as (accessed & Hall & Hvis & Hprom).
  assert (Hcat : categories = length (group_by Entry.prefix active)).
  { subst categories. rewrite <- (length_fmap fst).
    rewrite <- (size_list_to_set (C := gset string)) by apply group_by_keys_NoDup.
    f_equal. apply set_eq. intros k.
    by rewrite !elem_of_list_to_set, group_by_keys. }
  pose proof (accessed_length cfg _ accessed Hacc Hall) as Hla.
  pose proof (newest_slices_length cfg (group_by Entry.prefix active) Hnew) as Hln.
  rewrite <- Hcat in Hla, Hln.
  split.
  - etrans; [apply (size_ids_le _ (concat accessed))|done].
    intros i. by rewrite Hprom.
  - etrans; [apply (size_ids_le _
               ((group_by Entry.prefix active
                  ≫= λ g, slice_to (topNewestCount cfg) (newest g.2))
                ++ concat accessed ++ filter (λ e, Entry.favorite e ≠ 0) active))|].
    + intros i. rewrite Hvis, !fmap_app, !elem_of_app. tauto.
    + rewrite !length_app. lia.
Qed.

Lemma selection_sizes_witness :
  let rt := Reference.runtime Reference.ticking in
  let active := [Sample.l1; Sample.p1; Sample.p2; Sample.p3] in
  let r := result_of (compute_v2_selection active [Sample.o1] (Sample.caps 1 1 1)) 0%nat in
  let categories := size (list_to_set (Entry.prefix <$> active) : gset string) in
  (size (promotedIds r) ≤ categories * Z.to_nat 1)%nat
  ∧ (size (visibleIds r)
     ≤ categories * (Z.to_nat 1 + Z.to_nat 1)
       + length (filter (λ e, Entry.favorite e ≠ 0%Z) active))%nat.
Proof.
  intros rt active.
  apply (selection_sizes (rt := rt) active [Sample.o1] (Sample.caps 1 1 1) 0%nat).
  - vm_compute. discriminate.
  - vm_compute. discriminate.
Defined.

(** X5. With the snapshot, the clock readings and [topNewestCount]
    fixed, raising a non-negative [topAccessCount] or a non-negative
    [topObsoleteCount] removes nothing: the visible ids and the promoted
    ids grow, and the visible obsolete records of the lower cap are the
    first of those of the higher cap. *)
Theorem selection_monotone_in_access_and_obsolete_caps `{rt : Runtime}
    (active obsolete : list Entry.t) (cfg1 cfg2 : V2Config) (t : nat) :
  topNewestCount cfg1 = topNewestCount cfg2 →
  0 ≤ topAccessCount cfg1 → topAccessCount cfg1 ≤ topAccessCount cfg2 →
  0 ≤ topObsoleteCount cfg1 → topObsoleteCount cfg1 ≤ topObsoleteCount cfg2 →
  let r1 := result_of (compute_v2_selection active obsolete cfg1) t in
  let r2 := result_of (compute_v2_selection active obsolete cfg2) t in
  visibleIds r1 ⊆ visibleIds r2
  ∧ promotedIds r1 ⊆ promotedIds r2
  ∧ visibleObsolete r1 `prefix_of` visibleObsolete r2.
Proof.
  intros Hnew Hacc0 Hacc Hobs0 Hobs r1 r2. subst r1 r2.
  unfold result_of, compute_v2_selection. rewrite !bind_run.
  destruct (foldlC_select_mono_acc cfg1 cfg2 (group_by Entry.prefix active) ∅ ∅ ∅ ∅ t)
    as (e1 & e2 & p1 & p2 & t1 & H1 & H2 & Hexp & Hprom); [done|lia|done|done|].
  rewrite H1, H2. simpl. rewrite !bind_run. unfold visibleIds, promotedIds, visibleObsolete.
  simpl. split; [by apply add_ids_mono|]. split; [done|].
  apply slice_to_mono; lia.
Qed.

Lemma selection_monotone_in_access_and_obsolete_caps_witness :
  let rt := Reference.runtime Reference.ticking in
  let active := [Sample.l1; Sample.p1; Sample.p2; Sample.p3] in
  let r1 := result_of (compute_v2_selection active [Sample.o1] (Sample.caps 1 0 0)) 0%nat in
  let r2 := result_of (compute_v2_selection active [Sample.o1] (Sample.caps 1 2 1)) 0%nat in
  visibleIds r1 ⊆ visibleIds r2
  ∧ promotedIds r1 ⊆ promotedIds r2
  ∧ visibleObsolete r1 `prefix_of` visibleObsolete r2.
Proof.
  intros rt active.
  apply (selection_monotone_in_access_and_obsolete_caps (rt := rt) active [Sample.o1]
           (Sample.caps 1 0 0) (Sample.caps 1 2 1) 0%nat).
  - reflexivity.
  - vm_compute. discriminate.
  - vm_compute. discriminate.
  - vm_compute. discriminate.
  - vm_compute. discriminate.
Defined.

(** X6. With a non-negative [topObsoleteCount], the visible
    obsolete records are [min(number of obsolete records, topObsoleteCount)]
    records taken from the obsolete ones, none taken twice; records never
    accessed are eligible. *)
Theorem visible_obsolete_count `{rt : Runtime}
    (active obsolete : list Entry.t) (cfg : V2Config) (t : nat) :
  0 ≤ topObsoleteCount cfg →
  let shown := visibleObsolete (result_of (compute_v2_selection active obsolete cfg) t) in
  shown ⊆+ obsolete
  ∧ length shown = (length obsolete `min` Z.to_nat (topObsoleteCount cfg))%nat.
Proof.
  intros Hcap shown. subst shown. split; [apply visible_obsolete_submseteq|].
  unfold result_of, compute_v2_selection. rewrite !bind_run.
  destruct (foldlC _ _ _ t) as [[exp prom] t1]. simpl.
  rewrite bind_run. unfold visibleObsolete. simpl.
  rewrite slice_to_length by done.
  by rewrite (sorted_reverseM_perm float_le weighted_access_score obsolete t1).
Qed.

Lemma visible_obsolete_count_witness :
  let rt := Reference.runtime Reference.ticking in
  let never_read := Sample.entry "E0002" "E" 2 (Some "2025-10-02T08:00:00Z") 0 0 1 "Stale" in
  let shown :=
    visibleObsolete (result_of (compute_v2_selection [Sample.p1] [Sample.o1; never_read]
                                  (Sample.caps 0 0 5)) 0%nat) in
  shown ⊆+ [Sample.o1; never_read]
  ∧ length shown = (length [Sample.o1; never_read] `min` Z.to_nat 5)%nat.
Proof.
  intros rt never_read.
  apply (visible_obsolete_count (rt := rt) [Sample.p1] [Sample.o1; never_read]
           (Sample.caps 0 0 5) 0%nat).
  vm_compute. discriminate.
Defined.

(** X7. A negative [topObsoleteCount] does not hide the obsolete
    records: with the cap [-k] the visible obsolete records are all but [k]
    of them, [max(0, number of obsolete records - k)] records in all. *)
Theorem negative_obsolete_cap_hides_that_many `{rt : Runtime}
    (active obsolete : list Entry.t) (cfg : V2Config) (t : nat) :
  topObsoleteCount cfg < 0 →
  let shown := visibleObsolete (result_of (compute_v2_selection active obsolete cfg) t) in
  shown ⊆+ obsolete
  ∧ length shown = Z.to_nat (Z.of_nat (length obsolete) + topObsoleteCount cfg).
Proof.
  intros Hcap shown. subst shown. split; [apply visible_obsolete_submseteq|].
  unfold result_of, compute_v2_selection. rewrite !bind_run.
  destruct (foldlC _ _ _ t) as [[exp prom] t1]. simpl.
  rewrite bind_run. unfold visibleObsolete. simpl.
  rewrite slice_to_negative_length by done.
  by rewrite (sorted_reverseM_perm float_le weighted_access_score obsolete t1).
Qed.

Lemma negative_obsolete_cap_hides_that_many_witness :
  let rt := Reference.runtime Reference.ticking in
  let never_read := Sample.entry "E0002" "E" 2 (Some "2025-10-02T08:00:00Z") 0 0 1 "Stale" in
  let shown :=
    visibleObsolete (result_of (compute_v2_selection [Sample.p1] [Sample.o1; never_read]
                                  (Sample.caps 0 0 (-1))) 0%nat) in
  shown ⊆+ [Sample.o1; never_read]
  ∧ length shown = Z.to_nat (Z.of_nat (length [Sample.o1; never_read]) + -1).
Proof.
  intros rt never_read.
  apply (negative_obsolete_cap_hides_that_many (rt := rt) [Sample.p1]
           [Sample.o1; never_read] (Sample.caps 0 0 (-1)) 0%nat).
  vm_compute. reflexivity.
Defined.

(** ** The two views *)

(** X8. When the budgeted view is built on a store with records, its
    record lines are, each once, the active records whose id is visible and
    the visible obsolete records; the header shows the number of these
    lines against the number of all records, and the first never exceeds
    the second. *)
Theorem v2_view_lists_the_selection `{rt : Runtime}
    fuel agent prefix_labels cfg rows all_nodes t tree :
  rows ≠ [] →
  result_of (rebuild_tree fuel agent true prefix_labels cfg rows all_nodes) t = Some tree →
  let data := load_all_data rows all_nodes in
  let sel := result_of (compute_v2_selection data.1.1 data.1.2 cfg) t in
  Entry.id <$> entry_lines tree
  ≡ₚ (Entry.id <$> filter (λ e, Entry.id e ∈ visibleIds sel) data.1.1)
     ++ (Entry.id <$> visibleObsolete sel)
  ∧ (∃ shown_tok total_tok,
       root_label tree
       = LRootV2 agent (length (entry_lines tree)) (length rows) shown_tok total_tok)
  ∧ (length (entry_lines tree) ≤ length rows)%nat.
Proof.
  intros Hrows Hrun data sel. unfold result_of in Hrun.
  rewrite rebuild_tree_nonempty in Hrun by done. cbv zeta in Hrun. fold data in Hrun.
  destruct (_build_v2_tree _ _ _ _ _ _ _ _) as [r t'] eqn:Hbuild.
  simpl in Hrun. subst r.
  pose proof (_build_v2_tree_entry_lines _ _ _ _ _ _ _ _ _ _ Hbuild) as Hlines.
  pose proof (_build_v2_tree_shape _ _ _ _ _ _ _ _ _ _ Hbuild) as Hshape.
  cbv zeta in Hlines, Hshape. fold (result_of (compute_v2_selection data.1.1 data.1.2 cfg) t) in *.
  fold sel in Hlines, Hshape.
  destruct Hshape as (shown_tok & t2 & group_nodes & obs_nodes & _ & Htree & _).
  assert (Hperm : Entry.id <$> entry_lines tree
                  ≡ₚ (Entry.id <$> filter (λ e, Entry.id e ∈ visibleIds sel) data.1.1)
                     ++ (Entry.id <$> visibleObsolete sel)).
  { rewrite Hlines, fmap_app. apply Permutation_app.
    - rewrite display_order_perm by apply sorted_strings_perm.
      by rewrite filter_marked, marked_ids.
    - rewrite <- list_fmap_compose.
      rewrite (list_fmap_ext (Entry.id ∘ Entry.set_promoted false) Entry.id
                 (visibleObsolete sel)); [done|].
      by intros _ e _. }
  assert (Hlen : length (entry_lines tree)
                 = (length (filter (λ e, Entry.id e ∈ visibleIds sel)
                              ((λ r, Entry.set_promoted
                                       (bool_decide (Entry.id r ∈ promotedIds sel)) r)
                                 <$> data.1.1))
                    + length (visibleObsolete sel))%nat).
  { rewrite Hlines, length_app, length_fmap. f_equal.
    by rewrite display_order_perm by apply sorted_strings_perm. }
  split; [done|]. split.
  - eexists shown_tok, _. rewrite Hlen, Htree. simpl. f_equal.
    rewrite length_fmap. apply length_rows_split.
  - rewrite Hlen, <- (length_rows_split rows). apply Nat.add_le_mono.
    + rewrite filter_marked, length_fmap. apply length_filter.
    + apply submseteq_length, visible_obsolete_submseteq.
Qed.

Lemma v2_view_lists_the_selection_witness :
  let rt := Reference.runtime Reference.ticking in
  let cfg := Sample.caps 1 1 1 in
  ∃ tree,
    result_of (rebuild_tree 8 "THOR" true ∅ cfg Sample.rows Sample.all_nodes) 0%nat
    = Some tree
    ∧ let data := load_all_data Sample.rows Sample.all_nodes in
      let sel := result_of (compute_v2_selection data.1.1 data.1.2 cfg) 0%nat in
      Entry.id <$> entry_lines tree
      ≡ₚ (Entry.id <$> filter (λ e, Entry.id e ∈ visibleIds sel) data.1.1)
         ++ (Entry.id <$> visibleObsolete sel)
      ∧ (∃ shown_tok total_tok,
           root_label tree
           = LRootV2 "THOR" (length (entry_lines tree)) (length Sample.rows)
               shown_tok total_tok)
      ∧ (length (entry_lines tree) ≤ length Sample.rows)%nat.
Proof.
  intros rt cfg. exists_computed. split; [vm_compute; reflexivity|].
  apply (v2_view_lists_the_selection (rt := rt) 8 "THOR" ∅ cfg Sample.rows
           Sample.all_nodes 0%nat).
  - discriminate.
  - vm_compute. reflexivity.
Defined.

(** X9. When the full view is built on a store with records, its
    record lines are the records of the store, each once, obsolete ones
    included; the header shows the number of active records, the number of
    obsolete ones, and as total the sum of the estimates of every record
    body and every node content. *)
Theorem full_view_lists_every_record `{rt : Runtime}
    fuel agent prefix_labels cfg rows all_nodes t tree :
  rows ≠ [] →
  result_of (rebuild_tree fuel agent false prefix_labels cfg rows all_nodes) t = Some tree →
  Entry.id <$> entry_lines tree ≡ₚ Entry.id <$> rows
  ∧ root_label tree
    = LRootFull agent (length (filter (λ r, Entry.obsolete r = 0) rows))
        (length (filter (λ r, Entry.obsolete r ≠ 0) rows))
        (sum_list_with entry_tokens rows + sum_list_with node_tokens all_nodes).
Proof.
  intros Hrows Hrun. unfold result_of in Hrun.
  rewrite rebuild_tree_nonempty in Hrun by done. cbv zeta in Hrun.
  destruct (_build_full_tree _ _ _ _ _ _ _) as [r t'] eqn:Hbuild.
  simpl in Hrun. subst r.
  destruct (_build_full_tree_entry_lines _ _ _ _ _ _ _ _ _ Hbuild) as [b Hlines].
  pose proof (_build_full_tree_shape _ _ _ _ _ _ _ _ _ Hbuild) as Hshape.
  cbv zeta in Hlines, Hshape.
  destruct Hshape as (group_nodes & obs_nodes & Htree & _).
  split.
  - rewrite Hlines, fmap_app.
    rewrite display_order_perm by apply sorted_strings_perm.
    rewrite marked_ids, <- fmap_app. simpl. by rewrite rows_split.
  - rewrite Htree. simpl. rewrite length_fmap. f_equal.
    rewrite count_all_tokens_promoted. apply count_all_tokens_load.
Qed.

Lemma full_view_lists_every_record_witness :
  let rt := Reference.runtime Reference.ticking in
  ∃ tree,
    result_of (rebuild_tree 8 "THOR" false ∅ DEFAULT_V2_CONFIG Sample.rows
                 Sample.all_nodes) 0%nat = Some tree
    ∧ Entry.id <$> entry_lines tree ≡ₚ Entry.id <$> Sample.rows
    ∧ root_label tree
      = LRootFull "THOR" (length (filter (λ r, Entry.obsolete r = 0) Sample.rows))
          (length (filter (λ r, Entry.obsolete r ≠ 0) Sample.rows))
          (sum_list_with entry_tokens Sample.rows
           + sum_list_with node_tokens Sample.all_nodes).
Proof.
  intros rt. exists_computed. split; [vm_compute; reflexivity|].
  apply (full_view_lists_every_record (rt := rt) 8 "THOR" ∅ DEFAULT_V2_CONFIG
           Sample.rows Sample.all_nodes 0%nat).
  - discriminate.
  - vm_compute. reflexivity.
Defined.

(** ** Scores, rows and estimates *)

(** X10. For an item with a non-zero access count whose
    [created_at] parses to a datetime without time zone (no [Z], no
    offset), the subtraction from the aware current time raises, the
    exception is caught, and the score is the raw access count as a float:
    such an item never decays.  The clock has been read once. *)
Theorem naive_timestamp_scores_raw_count `{rt : Runtime} {A : Type} `{Scorable A}
    (entry : A) (t : nat) (created : string) (wall_us : Z) :
  get_access_count entry ≠ 0 →
  get_created_at entry = Some created → created ≠ ""%string →
  fromisoformat (replace_Z created) = Some (Naive wall_us) →
  weighted_access_score entry t = (float_of_int (get_access_count entry), S t).
Proof. apply weighted_access_score_naive. Qed.

Lemma naive_timestamp_scores_raw_count_witness :
  let rt := Reference.runtime Reference.ticking in
  weighted_access_score
    (Sample.entry "P0007" "P" 7 (Some "2025-12-01T08:00:00") 3 0 0 "no zone") 0%nat
  = (float_of_int 3, 1%nat).
Proof.
  intros rt.
  let parsed := eval vm_compute in
      (fromisoformat (Runtime := rt) (replace_Z "2025-12-01T08:00:00")) in
  lazymatch parsed with
  | Some (Naive ?wall_us) =>
      refine (naive_timestamp_scores_raw_count (rt := rt)
                (Sample.entry "P0007" "P" 7 (Some "2025-12-01T08:00:00") 3 0 0 "no zone")
                0%nat "2025-12-01T08:00:00"%string wall_us _ _ _ _)
  end.
  - discriminate.
  - reflexivity.
  - discriminate.
  - vm_compute. reflexivity.
Defined.

(** X11. In what [load_all_data] returns, the children map has one
    key per parent id occurring among the nodes, no key twice; looking a
    parent id up gives the nodes with that [parent_id] in the order of the
    query, and the empty list for an id that is no node's parent; the
    active and the obsolete records together are the loaded rows, each
    once. *)
Theorem load_all_data_children_map (rows : list Entry.t) (all_nodes : list Node.t) :
  let children_map := (load_all_data rows all_nodes).2 in
  NoDup children_map.*1
  ∧ (∀ p, dict_get p children_map = filter (λ n, Node.parent_id n = p) all_nodes)
  ∧ (∀ p, p ∈ children_map.*1 ↔ p ∈ Node.parent_id <$> all_nodes)
  ∧ (load_all_data rows all_nodes).1.1 ++ (load_all_data rows all_nodes).1.2 ≡ₚ rows.
Proof.
  simpl. split; [apply group_by_keys_NoDup|]. split; [apply dict_get_group_by|].
  split; [apply group_by_keys|]. apply rows_split.
Qed.

(** X12. The estimate of a concatenation is at least the sum of
    the estimates of the two parts and exceeds it by at most one token:
    cutting a text in two never raises the total and lowers it by one at
    most. *)
Theorem estimate_tokens_split (a b : string) :
  (estimate_tokens a + estimate_tokens b ≤ estimate_tokens (a ++ b))%nat
  ∧ (estimate_tokens (a ++ b) ≤ estimate_tokens a + estimate_tokens b + 1)%nat.
Proof.
  unfold estimate_tokens. rewrite string_length_app.
  generalize (String.length a) (String.length b). intros n m.
  pose proof (Nat.div_mod_eq n 4). pose proof (Nat.div_mod_eq m 4).
  pose proof (Nat.div_mod_eq (n + m) 4).
  pose proof (Nat.mod_upper_bound n 4). pose proof (Nat.mod_upper_bound m 4).
  pose proof (Nat.mod_upper_bound (n + m) 4). lia.
Qed.

(** ** Counting and building *)

(** X13. When the parent links hold a cycle through a node (a chain of
    children that leads from the node back to it; a node that is its own
    parent is the shortest case), then at every stack depth the tree
    builder fails on that node, the counter fails on every list that holds
    it, and a record with such a node among its children can neither be
    displayed nor counted in the full view. *)
Theorem cyclic_nodes_are_never_built `{rt : Runtime}
    (children_map : list (string * list Node.t)) (n : Node.t) (l : list Node.t) :
  descent children_map n l → last l = Some n →
  ∀ fuel,
    add_node_to_tree fuel n children_map = None
    ∧ (∀ nodes, n ∈ nodes → _count_subtree_tokens fuel nodes children_map = None)
    ∧ (∀ e v2_mode t,
         n ∈ dict_get (Entry.id e) children_map →
         result_of (add_entry_to_tree fuel e children_map v2_mode None) t = None
         ∧ result_of (count_shown_tokens fuel [e] children_map None) t = None).
Proof.
  intros Hl Hlast fuel.
  assert (Hne : l ≠ []) by (by intros ->).
  assert (Hlast' : last (n :: l) = Some n) by by destruct l.
  assert (Hlong : descent children_map n (concat (replicate fuel l))).
  { by apply descent_cycle. }
  assert (Hlen : (fuel ≤ length (concat (replicate fuel l)))%nat).
  { clear -Hne. induction fuel as [|k IH]; simpl; [lia|].
    rewrite length_app. destruct l; [done|]. simpl. lia. }
  assert (Hnode : add_node_to_tree fuel n children_map = None).
  { destruct (add_node_to_tree fuel n children_map) as [tree|] eqn:Htree; [|done].
    pose proof (add_node_to_tree_descent _ _ _ _ _ Htree Hlong). lia. }
  assert (Hcount : ∀ nodes, n ∈ nodes →
                     _count_subtree_tokens fuel nodes children_map = None).
  { intros nodes Hn.
    destruct (_count_subtree_tokens fuel nodes children_map) as [k|] eqn:Hk; [|done].
    pose proof (_count_subtree_tokens_descent _ _ _ _ _ _ Hk Hn Hlong). lia. }
  split; [done|]. split; [done|].
  intros e v2_mode t Hn. unfold result_of. split.
  - rewrite add_entry_to_tree_run. cbn [fst]. unfold visible_children. cbn [caps ret fst].
    destruct (nonempty _) eqn:Hnon.
    + by rewrite (mapM_None_elem _ _ n).
    + apply nonempty_false in Hnon. rewrite Hnon in Hn. by apply elem_of_nil in Hn.
  - rewrite count_shown_tokens_fold, foldlC_cons. unfold shown_step at 1.
    rewrite bind_run. unfold visible_children. cbn [caps ret fst snd].
    by rewrite Hcount.
Qed.

Lemma cyclic_nodes_are_never_built_witness :
  let rt := Reference.runtime Reference.ticking in
  let n := Sample.node "P0001" "P0001" "P0001" 2 1 None 0 "its own parent" in
  let children_map := group_by Node.parent_id [n] in
  add_node_to_tree 1000 n children_map = None
  ∧ (∀ nodes, n ∈ nodes → _count_subtree_tokens 1000 nodes children_map = None)
  ∧ (∀ e v2_mode t,
       n ∈ dict_get (Entry.id e) children_map →
       result_of (add_entry_to_tree 1000 e children_map v2_mode None) t = None
       ∧ result_of (count_shown_tokens 1000 [e] children_map None) t = None).
Proof.
  intros rt n children_map.
  apply (cyclic_nodes_are_never_built (rt := rt) children_map n [n]).
  - split; [|exact I]. apply (bool_decide_unpack _). vm_compute. exact I.
  - reflexivity.
Defined.

(** X14. On a non-empty list of nodes the counter and the tree
    builder succeed or fail together; when they succeed, the count is the
    sum of the estimates of the lines the builder displays, and the
    builder's trees are rooted at the nodes of the list, in their order. *)
Theorem counter_counts_what_the_builder_displays
    (fuel : nat) (nodes : list Node.t) (children_map : list (string * list Node.t)) :
  nodes ≠ [] →
  (is_Some (_count_subtree_tokens fuel nodes children_map)
   ↔ is_Some (mapM (λ c, add_node_to_tree fuel c children_map) nodes))
  ∧ (∀ k kids,
       _count_subtree_tokens fuel nodes children_map = Some k →
       mapM (λ c, add_node_to_tree fuel c children_map) nodes = Some kids →
       k = sum_list_with label_tokens (flat_map tree_labels kids)
       ∧ root_label <$> kids = LNode <$> nodes).
Proof.
  intros Hne. split; [by apply count_build_iff|].
  intros k kids Hk Hkids. split.
  - rewrite (flat_labels_nodes fuel children_map nodes kids); [|  |done].
    + rewrite sum_label_tokens_nodes. by apply _count_subtree_tokens_sum.
    + intros n tree. apply add_node_to_tree_tree_labels.
  - by apply add_node_to_tree_labels in Hkids as [? _].
Qed.

Lemma counter_counts_what_the_builder_displays_witness :
  let nodes := [Sample.n1; Sample.n2; Sample.n3] in
  (is_Some (_count_subtree_tokens 8 nodes Sample.children_map)
   ↔ is_Some (mapM (λ c, add_node_to_tree 8 c Sample.children_map) nodes))
  ∧ (∀ k kids,
       _count_subtree_tokens 8 nodes Sample.children_map = Some k →
       mapM (λ c, add_node_to_tree 8 c Sample.children_map) nodes = Some kids →
       k = sum_list_with label_tokens (flat_map tree_labels kids)
       ∧ root_label <$> kids = LNode <$> nodes).
Proof.
  intros nodes.
  apply (counter_counts_what_the_builder_displays 8 nodes Sample.children_map).
  discriminate.
Defined.



(** ** The views of a forest *)

(** X16. On a store with records whose rows satisfy the invariants
    of the data model, where every node hangs under a record or under a
    node, and with a stack deep enough, the full view is built and
    displays every node of the store exactly once. *)
Theorem full_view_displays_every_node `{rt : Runtime}
    fuel agent prefix_labels cfg rows all_nodes t :
  forest rows all_nodes → deep_enough fuel all_nodes →
  (∀ n, n ∈ all_nodes →
        Node.parent_id n ∈ Entry.id <$> rows ∨ Node.parent_id n ∈ Node.id <$> all_nodes) →
  rows ≠ [] →
  ∃ tree,
    result_of (rebuild_tree fuel agent false prefix_labels cfg rows all_nodes) t = Some tree
    ∧ node_lines tree ≡ₚ all_nodes.
Proof.
  intros wf deep attached Hrows.
  destruct (rebuild_tree_is_Some fuel agent false prefix_labels cfg rows all_nodes t wf deep)
    as [tree Htree].
  exists tree. split; [done|].
  unfold result_of in Htree. rewrite rebuild_tree_nonempty in Htree by done.
  cbv zeta in Htree.
  destruct (_build_full_tree _ _ _ _ _ _ _) as [r t'] eqn:Hbuild.
  simpl in Htree. subst r.
  pose proof (_build_full_tree_shape _ _ _ _ _ _ _ _ _ Hbuild) as Hshape.
  cbv zeta in Hshape. simpl in Hshape.
  destruct Hshape as (group_nodes & obs_nodes & -> & Hgroups & Hobs).
  set (cm := group_by Node.parent_id all_nodes) in *.
  set (marked := _ <$> filter _ rows) in *.
  unfold node_lines. cbn [tree_labels]. cbn [omap list_omap node_of].
  rewrite flat_map_app, omap_app.
  rewrite (groups_shape_node_lines _ _ _ _ _ _ _ Hgroups); [|done|intros; apply uncapped_at_None].
  assert (Hobs' : omap node_of (flat_map tree_labels obs_nodes)
                  = (Entry.id <$> filter (λ r, Entry.obsolete r ≠ 0) rows)
                      ≫= λ i, subtree_nodes fuel (dict_get i cm) cm).
  { destruct Hobs as [[-> ->]|(_ & kids & -> & Hkids)]; [done|].
    rewrite (flat_map_cons tree_labels). cbn [flat_map tree_labels]. rewrite app_nil_r.
    cbn [omap list_omap node_of].
    apply (entries_shape_node_lines _ _ _ _ _ _ Hkids). intros. apply uncapped_at_None. }
  rewrite Hobs', <- bind_app, <- fmap_app.
  rewrite <- (every_node_reached rows all_nodes wf attached fuel deep).
  rewrite <- roots_bind. apply bind_ids_perm.
  rewrite fmap_app, display_order_perm by apply sorted_strings_perm.
  unfold marked. by rewrite marked_ids, <- fmap_app, rows_split.
Qed.

Lemma full_view_displays_every_node_witness :
  let rt := Reference.runtime Reference.ticking in
  ∃ tree,
    result_of (rebuild_tree 8 "THOR" false ∅ DEFAULT_V2_CONFIG Sample.rows
                 Sample.all_nodes) 0%nat = Some tree
    ∧ node_lines tree ≡ₚ Sample.all_nodes.
Proof.
  intros rt.
  apply (full_view_displays_every_node (rt := rt) 8 "THOR" ∅ DEFAULT_V2_CONFIG
           Sample.rows Sample.all_nodes 0%nat).
  - apply forest_intro; apply (bool_decide_unpack _); vm_compute; exact I.
  - apply deep_enough_intro; apply (bool_decide_unpack _); vm_compute; exact I.
  - apply Forall_forall, (bool_decide_unpack _). vm_compute. exact I.
  - discriminate.
Defined.

(** X17. On such a store, when [topNewestCount] is at least the
    number of records and the number of nodes, and [topObsoleteCount] at
    least the number of records, the budgeted view hides nothing: it is
    built, its header shows all records as shown and the same figure for
    shown and total tokens, and it displays every node exactly once. *)
Theorem wide_caps_show_everything `{rt : Runtime}
    fuel agent prefix_labels cfg rows all_nodes t :
  forest rows all_nodes → deep_enough fuel all_nodes →
  (∀ n, n ∈ all_nodes →
        Node.parent_id n ∈ Entry.id <$> rows ∨ Node.parent_id n ∈ Node.id <$> all_nodes) →
  rows ≠ [] →
  Z.of_nat (length rows) ≤ topNewestCount cfg →
  Z.of_nat (length all_nodes) ≤ topNewestCount cfg →
  Z.of_nat (length rows) ≤ topObsoleteCount cfg →
  ∃ tree,
    result_of (rebuild_tree fuel agent true prefix_labels cfg rows all_nodes) t = Some tree
    ∧ root_label tree
      = LRootV2 agent (length rows) (length rows)
          (sum_list_with entry_tokens rows + sum_list_with node_tokens all_nodes)
          (sum_list_with entry_tokens rows + sum_list_with node_tokens all_nodes)
    ∧ node_lines tree ≡ₚ all_nodes.
Proof.
  intros wf deep attached Hrows Hnew Hnodes Hobsolete.
  destruct (rebuild_tree_is_Some fuel agent true prefix_labels cfg rows all_nodes t wf deep)
    as [tree Htree].
  exists tree. split; [done|].
  unfold result_of in Htree. rewrite rebuild_tree_nonempty in Htree by done.
  cbv zeta in Htree.
  destruct (_build_v2_tree _ _ _ _ _ _ _ _) as [r t'] eqn:Hbuild.
  simpl in Htree. subst r.
  pose proof (_build_v2_tree_shape _ _ _ _ _ _ _ _ _ _ Hbuild) as Hshape.
  cbv zeta in Hshape. simpl in Hshape.
  set (cm := group_by Node.parent_id all_nodes) in *.
  set (active := filter (λ r, Entry.obsolete r = 0) rows) in *.
  set (obsolete := filter (λ r, Entry.obsolete r ≠ 0) rows) in *.
  fold (result_of (compute_v2_selection active obsolete cfg) t) in Hshape.
  set (sel := result_of (compute_v2_selection active obsolete cfg) t) in *.
  set (marked := (λ r, Entry.set_promoted (bool_decide (Entry.id r ∈ promotedIds sel)) r)
                   <$> active) in *.
  assert (Hlen_active : (length active ≤ length rows)%nat) by apply length_filter.
  assert (Hlen_obsolete : (length obsolete ≤ length rows)%nat) by apply length_filter.
  assert (Hall : filter (λ e, Entry.id e ∈ visibleIds sel) marked = marked).
  { apply filter_all. intros e (e0 & -> & He0)%list_elem_of_fmap.
    rewrite set_promoted_id. apply small_category_visible; [done|].
    pose proof (length_filter (λ x, Entry.prefix x = Entry.prefix e0) active). lia. }
  assert (Hobs_perm : visibleObsolete sel ≡ₚ obsolete).
  { apply submseteq_length_Permutation; [apply visible_obsolete_submseteq|].
    unfold sel. rewrite visible_obsolete_length by lia. lia. }
  rewrite Hall in Hshape.
  destruct Hshape as (shown_tok & t2 & group_nodes & obs_nodes & Hcount & -> & Hgroups & Hobs).
  assert (Hun : ∀ e, uncapped_at cm (Some cfg) e).
  { intros e. by apply uncapped_at_wide. }
  assert (Hids : Entry.id <$> marked ++ visibleObsolete sel ≡ₚ Entry.id <$> rows).
  { rewrite Hobs_perm, fmap_app. unfold marked.
    rewrite marked_ids, <- fmap_app. unfold active, obsolete. by rewrite rows_split. }
  assert (Hreached :
            (Entry.id <$> marked ++ visibleObsolete sel)
              ≫= (λ i, subtree_nodes fuel (dict_get i cm) cm)
            ≡ₚ all_nodes).
  { rewrite <- (every_node_reached rows all_nodes wf attached fuel deep).
    rewrite <- roots_bind. by apply bind_ids_perm. }
  split.
  - cbn [root_label]. rewrite count_shown_tokens_fold in Hcount.
    rewrite (count_shown_tokens_forest rows all_nodes fuel wf deep) in Hcount.
    2:{ intros e [(e0 & -> & He0)%list_elem_of_fmap|He]%elem_of_app.
        - rewrite set_promoted_id. apply list_elem_of_fmap_2.
          by apply list_elem_of_filter in He0 as [_ ?].
        - apply list_elem_of_fmap_2. rewrite Hobs_perm in He.
          by apply list_elem_of_filter in He as [_ ?]. }
    injection Hcount as <- _. fold cm.
    rewrite (counted_nodes_uncapped fuel cm (Some cfg)) by (intros; apply Hun).
    assert (Hlm : length marked = length active) by (unfold marked; apply length_fmap).
    assert (Hlr : (length active + length obsolete)%nat = length rows)
      by apply length_rows_split.
    assert (Hte : sum_list_with entry_tokens (marked ++ visibleObsolete sel)
                  = sum_list_with entry_tokens rows).
    { rewrite sum_list_with_app, Hobs_perm. unfold marked.
      rewrite marked_tokens, <- sum_list_with_app. unfold active, obsolete.
      by rewrite rows_split. }
    assert (Htot : count_all_tokens marked obsolete cm
                   = (sum_list_with entry_tokens rows
                      + sum_list_with node_tokens all_nodes)%nat).
    { unfold marked. rewrite count_all_tokens_promoted. apply count_all_tokens_load. }
    by rewrite Hreached, Hte, Hobs_perm, Hlm, Hlr, Htot.
  - unfold node_lines. cbn [tree_labels]. cbn [omap list_omap node_of].
    rewrite flat_map_app, omap_app.
    rewrite (groups_shape_node_lines _ _ _ _ _ _ _ Hgroups); [|done|intros; apply Hun].
    assert (Hobs' : omap node_of (flat_map tree_labels obs_nodes)
                    = (Entry.id <$> visibleObsolete sel)
                        ≫= λ i, subtree_nodes fuel (dict_get i cm) cm).
    { destruct Hobs as [[-> ->]|(_ & kids & -> & Hkids)]; [done|].
      rewrite (flat_map_cons tree_labels). cbn [flat_map tree_labels]. rewrite app_nil_r.
      cbn [omap list_omap node_of].
      rewrite (entries_shape_node_lines _ _ _ _ _ _ Hkids) by (intros; apply Hun).
      by rewrite <- list_fmap_compose. }
    rewrite Hobs', <- bind_app, <- fmap_app, <- Hreached.
    apply bind_ids_perm. rewrite !fmap_app.
    by rewrite display_order_perm by apply sorted_strings_perm.
Qed.

Lemma wide_caps_show_everything_witness :
  let rt := Reference.runtime Reference.ticking in
  ∃ tree,
    result_of (rebuild_tree 8 "THOR" true ∅ (Sample.caps 5 0 5) Sample.rows
                 Sample.all_nodes) 0%nat = Some tree
    ∧ root_label tree
      = LRootV2 "THOR" (length Sample.rows) (length Sample.rows)
          (sum_list_with entry_tokens Sample.rows
           + sum_list_with node_tokens Sample.all_nodes)
          (sum_list_with entry_tokens Sample.rows
           + sum_list_with node_tokens Sample.all_nodes)
    ∧ node_lines tree ≡ₚ Sample.all_nodes.
Proof.
  intros rt.
  apply (wide_caps_show_everything (rt := rt) 8 "THOR" ∅ (Sample.caps 5 0 5)
           Sample.rows Sample.all_nodes 0%nat).
  - apply forest_intro; apply (bool_decide_unpack _); vm_compute; exact I.
  - apply deep_enough_intro; apply (bool_decide_unpack _); vm_compute; exact I.
  - apply Forall_forall, (bool_decide_unpack _). vm_compute. exact I.
  - discriminate.
  - vm_compute. discriminate.
  - vm_compute. discriminate.
  - vm_compute. discriminate.
Defined.

(** X18. Under the header of the budgeted view of a store with
    records come the category lines, then the line of the obsolete records
    when one of them is visible.  The categories are those of the visible
    active records, in ascending order, none twice; a category line shows
    how many of its records are visible against how many active records
    it has, at least one and never more than that. *)
Theorem v2_view_group_lines `{rt : Runtime}
    fuel agent prefix_labels cfg rows all_nodes t tree :
  rows ≠ [] →
  result_of (rebuild_tree fuel agent true prefix_labels cfg rows all_nodes) t = Some tree →
  let data := load_all_data rows all_nodes in
  let sel := result_of (compute_v2_selection data.1.1 data.1.2 cfg) t in
  let visible := filter (λ e, Entry.id e ∈ visibleIds sel) data.1.1 in
  let count := λ (p : string) (l : list Entry.t),
                 length (filter (λ e, Entry.prefix e = p) l) in
  ∃ prefixes,
    root_label <$> tree_kids tree
    = ((λ p, LGroup p (default p (prefix_labels !! p)) (count p visible)
                    (Some (count p data.1.1))) <$> prefixes)
      ++ (if nonempty (visibleObsolete sel)
          then [LObsolete (length (visibleObsolete sel)) (Some (length data.1.2))]
          else [])
    ∧ Sorted (λ a b, String.leb a b = true) prefixes
    ∧ NoDup prefixes
    ∧ (∀ p, p ∈ prefixes ↔ p ∈ Entry.prefix <$> visible)
    ∧ (∀ p, p ∈ prefixes → (1 ≤ count p visible ≤ count p data.1.1)%nat).
Proof.
  intros Hrows Hrun data sel visible count. unfold result_of in Hrun.
  rewrite rebuild_tree_nonempty in Hrun by done. cbv zeta in Hrun. fold data in Hrun.
  destruct (_build_v2_tree _ _ _ _ _ _ _ _) as [r t'] eqn:Hbuild.
  simpl in Hrun. subst r.
  pose proof (_build_v2_tree_shape _ _ _ _ _ _ _ _ _ _ Hbuild) as Hshape.
  cbv zeta in Hshape.
  fold (result_of (compute_v2_selection data.1.1 data.1.2 cfg) t) in Hshape.
  fold sel in Hshape. rewrite filter_marked in Hshape. fold visible in Hshape.
  destruct Hshape as (shown_tok & t2 & group_nodes & obs_nodes & _ & -> & Hgroups & Hobs).
  set (mark := λ r, Entry.set_promoted (bool_decide (Entry.id r ∈ promotedIds sel)) r) in *.
  set (groups := group_by Entry.prefix (mark <$> visible)) in *.
  exists (sorted_strings groups.*1).
  assert (Hkeys : ∀ p, p ∈ sorted_strings groups.*1 ↔ p ∈ Entry.prefix <$> visible).
  { intros p. rewrite sorted_strings_perm. unfold groups, mark.
    by rewrite group_by_keys, prefix_marked. }
  assert (Hcount : ∀ p, length (dict_get p groups) = count p visible).
  { intros p. unfold groups, mark. rewrite dict_get_group_by.
    apply length_filter_marked. }
  split; [|split; [|split; [|split]]].
  - cbn [tree_kids]. rewrite fmap_app. f_equal.
    + rewrite (groups_shape_root_labels _ _ _ _ _ _ _ Hgroups).
      apply list_fmap_ext. intros _ p _. simpl. rewrite Hcount.
      rewrite dict_get_group_by. unfold count, mark. by rewrite length_filter_marked.
    + destruct Hobs as [[-> ->]|(Hne & kids & -> & _)]; [done|].
      by destruct (visibleObsolete sel).
  - apply sorted_strings_sorted.
  - rewrite sorted_strings_perm. apply group_by_keys_NoDup.
  - done.
  - intros p Hp. split.
    + apply Hkeys, list_elem_of_fmap in Hp as (e & -> & He).
      assert (Hin : e ∈ filter (λ x, Entry.prefix x = Entry.prefix e) visible)
        by by apply list_elem_of_filter.
      unfold count. destruct (filter _ visible); [by apply elem_of_nil in Hin|].
      simpl. lia.
    + apply length_filter_filter.
Qed.

Lemma v2_view_group_lines_witness :
  let rt := Reference.runtime Reference.ticking in
  let cfg := Sample.caps 1 1 1 in
  ∃ tree,
    result_of (rebuild_tree 8 "THOR" true ∅ cfg Sample.rows Sample.all_nodes) 0%nat
    = Some tree
    ∧ let data := load_all_data Sample.rows Sample.all_nodes in
      let sel := result_of (compute_v2_selection data.1.1 data.1.2 cfg) 0%nat in
      let visible := filter (λ e, Entry.id e ∈ visibleIds sel) data.1.1 in
      let count := λ (p : string) (l : list Entry.t),
                     length (filter (λ e, Entry.prefix e = p) l) in
      ∃ prefixes,
        root_label <$> tree_kids tree
        = ((λ p, LGroup p (default p ((∅ : gmap string string) !! p)) (count p visible)
                        (Some (count p data.1.1))) <$> prefixes)
          ++ (if nonempty (visibleObsolete sel)
              then [LObsolete (length (visibleObsolete sel)) (Some (length data.1.2))]
              else [])
        ∧ Sorted (λ a b, String.leb a b = true) prefixes
        ∧ NoDup prefixes
        ∧ (∀ p, p ∈ prefixes ↔ p ∈ Entry.prefix <$> visible)
        ∧ (∀ p, p ∈ prefixes → (1 ≤ count p visible ≤ count p data.1.1)%nat).
Proof.
  intros rt cfg. exists_computed. split; [vm_compute; reflexivity|].
  apply (v2_view_group_lines (rt := rt) 8 "THOR" ∅ cfg Sample.rows Sample.all_nodes 0%nat).
  - discriminate.
  - vm_compute. reflexivity.
Defined.

(** X19. In the full view of a store whose record ids are
    unique, at most five record lines carry the promotion mark, whatever
    the configuration says; each of them is the line of an active record
    with [access_count > 0], and no obsolete record is marked. *)
Theorem full_view_promotes_at_most_five `{rt : Runtime}
    fuel agent prefix_labels cfg rows all_nodes t tree :
  NoDup (Entry.id <$> rows) →
  (∀ r, r ∈ rows → Entry._promoted r = None) →
  result_of (rebuild_tree fuel agent false prefix_labels cfg rows all_nodes) t = Some tree →
  (length (filter (λ e, Entry._promoted e = Some true) (entry_lines tree)) ≤ 5)%nat
  ∧ ∀ e, e ∈ entry_lines tree → Entry._promoted e = Some true →
         Entry.obsolete e = 0 ∧ 0 < Entry.access_count e.
Proof.
  intros Hnd Hfresh Hrun. unfold result_of in Hrun.
  destruct (decide (rows = [])) as [->|Hrows].
  { injection Hrun as <-. split; [simpl; lia|]. by intros e ?%elem_of_nil. }
  rewrite rebuild_tree_nonempty in Hrun by done. cbv zeta in Hrun.
  destruct (_build_full_tree _ _ _ _ _ _ _) as [r t'] eqn:Hbuild.
  simpl in Hrun. subst r.
  pose proof (_build_full_tree_lines _ _ _ _ _ _ _ _ _ Hbuild) as Hlines.
  cbv zeta in Hlines.
  set (active := filter (λ r, Entry.obsolete r = 0) rows) in *.
  set (obsolete := filter (λ r, Entry.obsolete r ≠ 0) rows) in *.
  set (sorted := (sorted_reverseM float_le weighted_access_score
                    (filter (λ r, 0 < Entry.access_count r) active) t).1) in *.
  set (S := list_to_set (Entry.id <$> slice_to 5 sorted) : gset string) in *.
  assert (Hnd_active : NoDup (Entry.id <$> active)).
  { eapply sublist_NoDup; [exact Hnd|]. apply fmap_sublist, sublist_filter. }
  assert (Hobs_none : ∀ e, e ∈ obsolete → Entry._promoted e ≠ Some true).
  { intros e [_ He]%list_elem_of_filter. by rewrite Hfresh. }
  assert (Hsize : (size S ≤ 5)%nat).
  { unfold S. etrans; [apply size_list_to_set_le|].
    rewrite length_fmap, slice_to_length by done. apply Nat.le_min_r. }
  rewrite Hlines. split.
  - rewrite filter_app, length_app.
    rewrite display_order_perm by apply sorted_strings_perm.
    rewrite filter_promoted_marked.
    replace (filter (λ e, Entry._promoted e = Some true) obsolete) with (@nil Entry.t).
    + cbn [length]. rewrite Nat.add_0_r. etrans; [|exact Hsize].
      by apply length_filter_ids.
    + symmetry. by apply filter_none.
  - intros e [He|He]%elem_of_app Hprom; [|by apply Hobs_none in He].
    rewrite display_order_perm in He by apply sorted_strings_perm.
    apply list_elem_of_fmap in He as (e0 & -> & He0). simpl in Hprom.
    injection Hprom as Hprom. apply bool_decide_eq_true_1 in Hprom.
    pose proof He0 as [Hobs Hrow]%list_elem_of_filter. split; [done|]. simpl.
    unfold S in Hprom.
    apply elem_of_list_to_set, list_elem_of_fmap in Hprom as (e1 & Hid & He1).
    apply slice_to_subseteq in He1. unfold sorted in He1.
    rewrite sorted_reverseM_perm in He1.
    apply list_elem_of_filter in He1 as [Hac He1].
    assert (e0 = e1) as -> by (eapply NoDup_fmap_eq; eauto). done.
Qed.

Lemma full_view_promotes_at_most_five_witness :
  let rt := Reference.runtime Reference.ticking in
  ∃ tree,
    result_of (rebuild_tree 8 "THOR" false ∅ DEFAULT_V2_CONFIG Sample.rows
                 Sample.all_nodes) 0%nat = Some tree
    ∧ (length (filter (λ e, Entry._promoted e = Some true) (entry_lines tree)) ≤ 5)%nat
    ∧ ∀ e, e ∈ entry_lines tree → Entry._promoted e = Some true →
           Entry.obsolete e = 0 ∧ 0 < Entry.access_count e.
Proof.
  intros rt. exists_computed. split; [vm_compute; reflexivity|].
  apply (full_view_promotes_at_most_five (rt := rt) 8 "THOR" ∅ DEFAULT_V2_CONFIG
           Sample.rows Sample.all_nodes 0%nat).
  - apply (bool_decide_unpack _). vm_compute. exact I.
  - apply Forall_forall, (bool_decide_unpack _). vm_compute. exact I.
  - vm_compute. reflexivity.
Defined.

(** ** Titles *)

(** X20. [auto_extract_title(text, max_len)] returns a prefix of
    [text], for every [max_len]; when [max_len] is not negative the prefix
    has at most [max_len] characters. *)
Theorem auto_extract_title_is_a_short_prefix (txt : text) (max_len : Z) :
  auto_extract_title txt max_len `prefix_of` txt
  ∧ (0 ≤ max_len → Z.of_nat (length (auto_extract_title txt max_len)) ≤ max_len).
Proof.
  destruct txt as [|c txt].
  { split; [done|]. simpl. lia. }
  destruct (auto_extract_title_cases (c :: txt) max_len) as
    [[Hd ->]|[[Hd [Hlen ->]]|[Hd [Hlen ->]]]]; [done|..].
  - split; [apply prefix_take|]. intros _. rewrite length_take. lia.
  - done.
  - split; [apply slice_to_prefix|]. intros Hm. rewrite slice_to_length by done. lia.
Qed.

(** X21. When the first [" — "] of a text starts at an index [d]
    with [0 < d <= max_len], the title is what stands before it: the text is
    the title, the separator and a rest, the title has [d] characters and
    holds no separator. A separator at index [0] or beyond [max_len] is no
    cutting point: the title is then the first [max_len] characters of the
    text ([max_len] not negative). *)
Theorem auto_extract_title_cuts_at_the_first_separator (txt : text) (max_len : Z) :
  txt ≠ [] → 0 ≤ max_len →
  let d := find SEPARATOR txt in
  let title := auto_extract_title txt max_len in
  (0 < d ≤ max_len →
     (∃ rest, txt = title ++ SEPARATOR ++ rest)
     ∧ Z.of_nat (length title) = d
     ∧ find SEPARATOR title = -1)
  ∧ (¬ 0 < d ≤ max_len → title = take (Z.to_nat max_len) txt).
Proof.
  intros Hne Hm d title.
  destruct (auto_extract_title_cases txt max_len Hne) as
    [[Hd Heq]|[[Hd [Hlen Heq]]|[Hd [Hlen Heq]]]]; fold d title in Hd, Heq.
  - split; [|done]. intros _. rewrite Heq.
    destruct (find_nonneg SEPARATOR txt) as [[rest Hrest] _]; [fold d; lia|].
    fold d in Hrest. pose proof (find_range SEPARATOR txt) as Hrange. fold d in Hrange.
    split; [|split].
    + exists rest. rewrite <- Hrest. by rewrite take_drop.
    + rewrite length_take. lia.
    + apply find_take_first; [done|fold d; lia].
  - split; [done|]. intros _. rewrite Heq. rewrite take_ge; [done|lia].
  - split; [done|]. intros _. rewrite Heq. by apply slice_to_nonneg.
Qed.

Lemma auto_extract_title_cuts_at_the_first_separator_witness :
  let txt := text_of "Fix login" ++ SEPARATOR ++ text_of "token expiry was off by one" in
  (∃ rest, txt = auto_extract_title txt 30 ++ SEPARATOR ++ rest)
  ∧ Z.of_nat (length (auto_extract_title txt 30)) = find SEPARATOR txt
  ∧ find SEPARATOR (auto_extract_title txt 30) = -1.
Proof.
  intros txt.
  apply (auto_extract_title_cuts_at_the_first_separator txt 30); [done|lia|].
  vm_compute. split; [done|discriminate].
Defined.

(** X22. Extracting a title from a title changes nothing
    ([max_len] not negative). *)
Theorem auto_extract_title_idempotent (txt : text) (max_len : Z) :
  0 ≤ max_len →
  auto_extract_title (auto_extract_title txt max_len) max_len
  = auto_extract_title txt max_len.
Proof.
  intros Hm. destruct txt as [|c txt]; [done|].
  assert (c :: txt ≠ []) as Hne by done. revert Hne.
  generalize (c :: txt). clear c txt. intros t Hne.
  destruct (auto_extract_title_cases t max_len Hne) as
    [[Hd Heq]|[[Hd [Hlen Heq]]|[Hd [Hlen Heq]]]]; rewrite Heq.
  - (* cut at the separator: the title holds no separator and is short *)
    set (r := take (Z.to_nat (find SEPARATOR t)) t).
    assert (r ≠ []) as Hr.
    { unfold r. destruct t; [done|].
      destruct (Z.to_nat (find SEPARATOR (n :: t))) eqn:E; [lia|done]. }
    assert (find SEPARATOR r = -1) as Hfind by (apply find_take_first; [done|lia]).
    assert (Z.of_nat (length r) ≤ max_len) as Hlen.
    { unfold r. rewrite length_take. lia. }
    destruct (auto_extract_title_cases r max_len Hr) as
      [[Hd' _]|[[_ [_ Heq']]|[_ [Hlen' _]]]]; [lia|done|lia].
  - by rewrite <- Heq at 2.
  - (* truncated: a separator of the truncated text is one of the text *)
    rewrite slice_to_nonneg by done.
    remember (take (Z.to_nat max_len) t) as r eqn:Er.
    assert (Z.of_nat (length r) = max_len) as Hlenr.
    { rewrite Er, length_take. lia. }
    destruct (decide (r = [])) as [->|Hr]; [done|].
    destruct (auto_extract_title_cases r max_len Hr) as
      [[Hd' _]|[[_ [_ Heq']]|[_ [Hlen' _]]]]; [|done|lia].
    exfalso. destruct (find_nonneg SEPARATOR r) as [Hpre _]; [lia|].
    rewrite Er in Hpre at 2. apply prefix_drop_take in Hpre.
    pose proof (find_le _ _ _ SEPARATOR_nonempty Hpre) as Hle.
    assert (find SEPARATOR t = 0) as H0 by lia.
    destruct (find_nonneg SEPARATOR t) as [Hpre0 _]; [lia|].
    rewrite H0 in Hpre0. change (drop (Z.to_nat 0) t) with t in Hpre0.
    destruct (decide (3 ≤ max_len)) as [H3|H3].
    + assert (SEPARATOR `prefix_of` drop 0 r) as Hpre1.
      { rewrite Er. destruct Hpre0 as [k Hk]. rewrite Hk.
        change (drop 0 ?l) with l. rewrite take_app.
        exists (take (Z.to_nat max_len - length SEPARATOR) k).
        f_equal. apply take_ge. simpl. lia. }
      pose proof (find_le _ _ _ SEPARATOR_nonempty Hpre1). lia.
    + rewrite (find_short SEPARATOR r) in Hd'; [lia|]. simpl. lia.
Qed.

Lemma auto_extract_title_idempotent_witness :
  let txt := text_of "A note that runs on well past the thirty characters of a title" in
  auto_extract_title (auto_extract_title txt 30) 30 = auto_extract_title txt 30.
Proof. intros txt. apply auto_extract_title_idempotent. lia. Defined.

(** X23. With a positive [max_len] the extracted title is empty
    only for the empty text. *)
Theorem auto_extract_title_empty_only_for_empty_text (txt : text) (max_len : Z) :
  0 < max_len → auto_extract_title txt max_len = [] ↔ txt = [].
Proof.
  intros Hm. split; [|by intros ->].
  destruct txt as [|c txt]; [done|]. intros Hnil. exfalso. revert Hnil.
  destruct (auto_extract_title_cases (c :: txt) max_len) as
    [[Hd ->]|[[Hd [Hlen ->]]|[Hd [Hlen ->]]]]; [done|..|done|].
  - destruct (Z.to_nat (find SEPARATOR (c :: txt))) eqn:E; [lia|done].
  - rewrite slice_to_nonneg by lia. destruct (Z.to_nat max_len) eqn:E; [lia|done].
Qed.

Lemma auto_extract_title_empty_only_for_empty_text_witness :
  auto_extract_title (text_of "x") 1 = [] ↔ text_of "x" = [].
Proof. apply auto_extract_title_empty_only_for_empty_text. lia. Defined.

(** X24. The title shown for an entry or a node is its stored title,
    whole and however long, when that is not empty.  With no stored title,
    or an empty one, it is cut from the text ([level_1] for an entry,
    [content] for a node): what stands before the first [" — "] when that
    starts at an index [d] with [0 < d <= 30], the first 30 characters
    otherwise; it is a prefix of at most 30 characters of the text, and it
    is empty only when the text is empty as well. *)
Theorem shown_titles (codepoint : ascii → N) (entry : Entry.t) (node : Node.t) :
  (let body := decode codepoint (Entry.level_1 entry) in
   let d := find SEPARATOR body in
   (∀ s, Entry.title entry = Some s → s ≠ ""%string →
         entry_title codepoint entry = decode codepoint s)
   ∧ (Entry.title entry = None ∨ Entry.title entry = Some ""%string →
        entry_title codepoint entry `prefix_of` body
        ∧ (length (entry_title codepoint entry) ≤ 30)%nat
        ∧ (0 < d ≤ 30 → entry_title codepoint entry = take (Z.to_nat d) body)
        ∧ (¬ 0 < d ≤ 30 → entry_title codepoint entry = take 30 body))
   ∧ (entry_title codepoint entry = [] ↔
        (Entry.title entry = None ∨ Entry.title entry = Some ""%string)
        ∧ Entry.level_1 entry = ""%string))
  ∧ (let body := decode codepoint (Node.content node) in
     let d := find SEPARATOR body in
     (∀ s, Node.title node = Some s → s ≠ ""%string →
           node_title codepoint node = decode codepoint s)
     ∧ (Node.title node = None ∨ Node.title node = Some ""%string →
          node_title codepoint node `prefix_of` body
          ∧ (length (node_title codepoint node) ≤ 30)%nat
          ∧ (0 < d ≤ 30 → node_title codepoint node = take (Z.to_nat d) body)
          ∧ (¬ 0 < d ≤ 30 → node_title codepoint node = take 30 body))
     ∧ (node_title codepoint node = [] ↔
          (Node.title node = None ∨ Node.title node = Some ""%string)
          ∧ Node.content node = ""%string)).
Proof.
  split.
  - apply (title_or_auto codepoint (Entry.title entry) (Entry.level_1 entry)).
  - apply (title_or_auto codepoint (Node.title node) (Node.content node)).
Qed.

(** a record and a node without stored title whose texts hold [" — "] *)
Lemma shown_titles_witness :
  let dash := String (ascii_of_N 151) EmptyString in
  let entry :=
    Sample.entry "P0001" "P" 1 None 0 0 0
      ("Fix login " ++ dash ++ " token expiry was off by one")%string in
  let node :=
    Sample.node "P0001.1" "P0001" "P0001" 2 1 None 0
      ("Cause " ++ dash ++ " the clock of the test server")%string in
  find SEPARATOR (decode latin1_dash (Entry.level_1 entry)) = 9
  ∧ entry_title latin1_dash entry = decode latin1_dash "Fix login"
  ∧ find SEPARATOR (decode latin1_dash (Node.content node)) = 5
  ∧ node_title latin1_dash node = decode latin1_dash "Cause".
Proof.
  intros dash entry node.
  destruct (shown_titles latin1_dash entry node)
    as [(_ & Hentry & _) (_ & Hnode & _)].
  split; [reflexivity|]. split.
  - apply (proj1 (proj2 (proj2 (Hentry (or_introl eq_refl))))).
    vm_compute. split; [reflexivity|discriminate].
  - split; [reflexivity|].
    apply (proj1 (proj2 (proj2 (Hnode (or_introl eq_refl))))).
    vm_compute. split; [reflexivity|discriminate].
Defined.

(** ** Token figures *)

(** X25. From 1000 up to 9999 tokens [fmt_tokens] prints the
    nearest tenth of a thousand: the text is ["<t / 10>.<t % 10>k"] for a
    number of tenths [t] between 10 and 100 that is within 50 tokens of [n]
    (so 9999 reads ["10.0k"]). From 10000 tokens on it prints the thousands
    rounded down: the figure [k] of ["<k>k"] has [1000 k <= n < 1000 (k + 1)]. *)
Theorem fmt_tokens_rounds_to_nearest_then_down (n : Z) :
  (1000 ≤ n < 10000 →
     ∃ t, fmt_tokens n = pretty (t / 10) +:+ "." +:+ pretty (t mod 10) +:+ "k"
          ∧ 10 ≤ t ≤ 100 ∧ Z.abs (n - 100 * t) ≤ 50)
  ∧ (10000 ≤ n →
       ∃ k, fmt_tokens n = pretty k +:+ "k" ∧ 1000 * k ≤ n < 1000 * (k + 1)).
Proof.
  split.
  - intros Hn. exists (tenths (truediv n 1000)). split.
    + unfold fmt_tokens.
      rewrite (proj2 (Z.ltb_ge n 1000)) by lia.
      rewrite (proj2 (Z.ltb_lt n 10000)) by lia.
      unfold format_1f.
      rewrite (proj2 (Z.ltb_ge _ 0)) by (apply truediv_1000_positive; lia).
      unfold decimal_1. by rewrite !string_app_assoc.
    + by apply tenths_1000_near.
  - intros Hn. exists (n / 1000). split.
    + unfold fmt_tokens.
      rewrite (proj2 (Z.ltb_ge n 1000)) by lia.
      by rewrite (proj2 (Z.ltb_ge n 10000)) by lia.
    + pose proof (Z.div_mod n 1000) as Hdiv.
      pose proof (Z.mod_pos_bound n 1000). lia.
Qed.

(** ** Configuration files *)

Section ConfigTheorems.
Context {F : Type} (float_truthy : F → bool) (upper : string → string).
Implicit Types (a b : ConfigFile F).

(** X26. Whatever the two configuration files hold, the dict of
    [load_v2_config] has the three keys of [DEFAULT_V2_CONFIG] and the dict
    of [load_prefix_labels] has every built-in prefix; with both files
    missing they are the defaults themselves. *)
Theorem loaders_keep_the_default_keys a b :
  (∀ key, is_Some (v2_dict (F := F) DEFAULT_V2_CONFIG !! key) →
          is_Some (load_v2_config a b !! key))
  ∧ (∀ key, is_Some (DEFAULT_PREFIX_LABELS (F := F) !! key) →
            is_Some (load_prefix_labels float_truthy upper a b !! key))
  ∧ load_v2_config (F := F) Missing Missing = v2_dict DEFAULT_V2_CONFIG
  ∧ load_prefix_labels float_truthy upper Missing Missing = DEFAULT_PREFIX_LABELS.
Proof.
  split; [|split; [|done]].
  - intros key. apply load_v2_config_from_keeps.
  - intros key. apply load_prefix_labels_from_keeps.
Qed.

(** X27. When the file beside the database exists but cannot be
    read or parsed, or does not hold an object, [load_v2_config] goes on to
    the project's file, as if the first were missing, whereas
    [load_prefix_labels] stops and returns the built-in labels, whatever the
    project's file says. *)
Theorem unusable_first_file a b :
  a = Unreadable ∨ (∃ data, a = Parsed data ∧ ∀ items, data ≠ JObject items) →
  load_v2_config a b = load_v2_config Missing b
  ∧ load_prefix_labels float_truthy upper a b = DEFAULT_PREFIX_LABELS.
Proof.
  intros [->|(data & -> & Hdata)]; [done|].
  destruct data; try done. by destruct (Hdata items).
Qed.

(** X28. A file beside the database hides the project's file: once
    it exists, [load_prefix_labels] never looks at the project's file, and
    once it holds an object whose [bulkReadV2] is an object or is absent,
    neither does [load_v2_config]; with [bulkReadV2] absent the result is
    [DEFAULT_V2_CONFIG]. *)
Theorem first_file_hides_the_project_file a b :
  (a ≠ Missing →
     load_prefix_labels float_truthy upper a b
     = load_prefix_labels float_truthy upper a Missing)
  ∧ (∀ top,
       a = Parsed (JObject top) →
       (item "bulkReadV2" top = None →
          load_v2_config a b = v2_dict DEFAULT_V2_CONFIG)
       ∧ (∀ v2, item "bulkReadV2" top = Some (JObject v2) →
            load_v2_config a b = load_v2_config a Missing)).
Proof.
  split.
  - intros Ha. destruct a as [| |data]; [done|done|].
    unfold load_prefix_labels. cbn [load_prefix_labels_from].
    destruct (json_get data "prefixes" JNull) as [p|]; [|done].
    destruct (if truthy float_truthy p then p else JObject []); done.
  - intros top ->. unfold load_v2_config. cbn [load_v2_config_from json_get]. split.
    + by intros ->.
    + by intros v2 ->.
Qed.

(** X29. With a file beside the database that holds an object whose
    [prefixes] is an object, every custom prefix is filed under its upper-cased key: the
    label of a key [K] is the value of the last item of [prefixes] whose key
    upper-cases to [K], and the built-in label of [K], if any, when there
    is no such item. *)
Theorem custom_prefixes_are_upper_cased b top items key :
  item "prefixes" top = Some (JObject items) →
  load_prefix_labels float_truthy upper (Parsed (JObject top)) b !! key
  = match item key (prod_map upper id <$> items) with
    | Some label => Some label
    | None => DEFAULT_PREFIX_LABELS !! key
    end.
Proof.
  intros Hitems. unfold load_prefix_labels.
  cbn [load_prefix_labels_from json_get]. rewrite Hitems. cbn [from_option id].
  destruct items as [|kv items].
  - done.
  - cbn [truthy nonempty]. rewrite foldl_upper. apply update_lookup.
Qed.

(** X30. With a file beside the database that holds an object whose
    [bulkReadV2] is an object, each key that object sets has the file's value in the dict of
    [load_v2_config], and every other key its default. *)
Theorem v2_overrides b top v2 key :
  item "bulkReadV2" top = Some (JObject v2) →
  load_v2_config (Parsed (JObject top)) b !! key
  = match item key v2 with
    | Some value => Some value
    | None => v2_dict DEFAULT_V2_CONFIG !! key
    end.
Proof.
  intros Hv2. unfold load_v2_config.
  cbn [load_v2_config_from json_get]. rewrite Hv2. cbn [from_option id].
  apply update_lookup.
Qed.
End ConfigTheorems.

Lemma unusable_first_file_witness :
  let project : ConfigFile Q :=
    Parsed (JObject [("bulkReadV2"%string, JObject [("topNewestCount"%string, JInt 9)]);
                     ("prefixes"%string, JObject [("X"%string, JString "Experiments")])]) in
  load_v2_config Unreadable project = load_v2_config Missing project
  ∧ load_prefix_labels (λ x, negb (Qeq_bool x 0)) upper_ascii Unreadable project
    = DEFAULT_PREFIX_LABELS.
Proof. intros project. apply unusable_first_file. by left. Defined.

Lemma custom_prefixes_are_upper_cased_witness :
  let items : list (string * json Q) :=
    [("x"%string, JString "Experiments"); ("p"%string, JString "Plans");
     ("P"%string, JString "Programs")] in
  load_prefix_labels (λ x, negb (Qeq_bool x 0)) upper_ascii
    (Parsed (JObject [("prefixes"%string, JObject items)])) Missing !! "P"%string
  = match item "P"%string (prod_map upper_ascii id <$> items) with
    | Some label => Some label
    | None => DEFAULT_PREFIX_LABELS !! "P"%string
    end.
Proof. intros items. by apply custom_prefixes_are_upper_cased. Defined.

Lemma v2_overrides_witness :
  let v2 : list (string * json Q) := [("topNewestCount"%string, JInt 9)] in
  load_v2_config (Parsed (JObject [("bulkReadV2"%string, JObject v2)])) Missing
    !! "topAccessCount"%string
  = match item "topAccessCount"%string v2 with
    | Some value => Some value
    | None => v2_dict DEFAULT_V2_CONFIG !! "topAccessCount"%string
    end.
Proof. intros v2. by apply v2_overrides. Defined.
